(** * Pokerbot (rl_bot/player.py): hand evaluator, equity simulator, equity
      cache and discard selector, as a shallow embedding.

    Cards are the engine's two-character tokens (rank character, suit
    character).  Python exceptions are an explicit error result, the random
    generator and the equity cache are explicit state. *)

From Stdlib Require Import List ZArith QArith Bool Ascii String Lia Permutation.
From Stdlib Require Import OrderedTypeEx Lqa.
Import ListNotations.

Local Open Scope string_scope.
Local Open Scope list_scope.
Local Open Scope Z_scope.

(** ** Exceptions and the error monad *)

Inductive exn : Type :=
| KeyError
| IndexError
| ValueError
| TypeError
| ZeroDivisionError.

Inductive result (A : Type) : Type :=
| Ok (a : A)
| Raise (e : exn).

Arguments Ok {A} a.
Arguments Raise {A} e.

Definition bind {A B : Type} (m : result A) (f : A -> result B) : result B :=
  match m with
  | Ok a => f a
  | Raise e => Raise e
  end.

Notation "x <- m ;; k" := (bind m (fun x => k))
  (at level 61, m at next level, right associativity).

(** A list comprehension whose element expression may raise: elements are
    evaluated left to right and the first exception escapes. *)
Fixpoint mapM {A B : Type} (f : A -> result B) (l : list A) : result (list B) :=
  match l with
  | [] => Ok []
  | x :: l' => y <- f x ;; ys <- mapM f l' ;; Ok (y :: ys)
  end.

(** [l[i]] for a non-negative index. *)
Definition getitem {A : Type} (l : list A) (i : nat) : result A :=
  match nth_error l i with
  | Some x => Ok x
  | None => Raise IndexError
  end.

(** ** Cards *)

Definition card : Type := string.

(** [c[i]] on a string. *)
Definition char_at (c : card) (i : nat) : result ascii :=
  match String.get i c with
  | Some ch => Ok ch
  | None => Raise IndexError
  end.

Definition RANK_TO_INT : list (ascii * Z) :=
  [("2"%char, 2); ("3"%char, 3); ("4"%char, 4); ("5"%char, 5); ("6"%char, 6);
   ("7"%char, 7); ("8"%char, 8); ("9"%char, 9); ("T"%char, 10);
   ("J"%char, 11); ("Q"%char, 12); ("K"%char, 13); ("A"%char, 14)].

Fixpoint dict_lookup (d : list (ascii * Z)) (k : ascii) : result Z :=
  match d with
  | [] => Raise KeyError
  | (k', v) :: d' => if Ascii.eqb k' k then Ok v else dict_lookup d' k
  end.

(** [RANK_TO_INT[c[0]]] *)
Definition rank_of (c : card) : result Z :=
  ch <- char_at c 0 ;; dict_lookup RANK_TO_INT ch.

(** [c[1]] *)
Definition suit_of (c : card) : result ascii := char_at c 1.

(** [[r + s for r in "23456789TJQKA" for s in "cdhs"]] *)
Definition full_deck : list card :=
  flat_map (fun r => map (fun s => String r (String s EmptyString))
                         (list_ascii_of_string "cdhs"))
           (list_ascii_of_string "23456789TJQKA").

(** ** Scores: the tuples returned by the evaluator

    Every tuple the evaluator builds has integers and tuples of integers as
    its items, for instance [(7, 9, 4)] or [(1, 12, (14, 8, 3))]. *)

Inductive item : Type :=
| PInt (z : Z)
| PTup (t : list Z).

Definition score : Type := list item.

Fixpoint ints_eqb (a b : list Z) : bool :=
  match a, b with
  | [], [] => true
  | x :: a', y :: b' => (x =? y) && ints_eqb a' b'
  | _, _ => false
  end.

(** [a > b] on tuples of integers: the first differing position decides,
    otherwise the longer tuple is the greater. *)
Fixpoint ints_gt (a b : list Z) : bool :=
  match a, b with
  | [], _ => false
  | _ :: _, [] => true
  | x :: a', y :: b' => if x =? y then ints_gt a' b' else x >? y
  end.

(** [a == b] on items; an integer never equals a tuple. *)
Definition item_eqb (a b : item) : bool :=
  match a, b with
  | PInt x, PInt y => x =? y
  | PTup x, PTup y => ints_eqb x y
  | _, _ => false
  end.

(** [a > b] on items; ordering an integer against a tuple is a TypeError. *)
Definition item_gt (a b : item) : result bool :=
  match a, b with
  | PInt x, PInt y => Ok (x >? y)
  | PTup x, PTup y => Ok (ints_gt x y)
  | _, _ => Raise TypeError
  end.

(** [s1 == s2] on scores. *)
Fixpoint score_eqb (s1 s2 : score) : bool :=
  match s1, s2 with
  | [], [] => true
  | a :: s1', b :: s2' => item_eqb a b && score_eqb s1' s2'
  | _, _ => false
  end.

(** [s1 > s2] on scores. *)
Fixpoint score_gt (s1 s2 : score) : result bool :=
  match s1, s2 with
  | [], _ => Ok false
  | _ :: _, [] => Ok true
  | a :: s1', b :: s2' => if item_eqb a b then score_gt s1' s2' else item_gt a b
  end.

(** ** Sorting, counting *)

(** [sorted(l, reverse=True)] on integers. *)
Fixpoint insert_desc (x : Z) (l : list Z) : list Z :=
  match l with
  | [] => [x]
  | y :: l' => if y >? x then y :: insert_desc x l' else x :: l
  end.

Definition sorted_desc (l : list Z) : list Z := fold_right insert_desc [] l.

(** [Counter(ranks)]: a dict from rank to multiplicity, keys in order of first
    occurrence. *)
Fixpoint counter_add (r : Z) (d : list (Z * Z)) : list (Z * Z) :=
  match d with
  | [] => [(r, 1)]
  | (k, n) :: d' => if k =? r then (k, n + 1) :: d' else (k, n) :: counter_add r d'
  end.

Definition Counter (ranks : list Z) : list (Z * Z) :=
  fold_left (fun d r => counter_add r d) ranks [].

(** The sort key [(x[1], x[0])] compared as a tuple. *)
Definition count_key_gt (a b : Z * Z) : bool :=
  if snd a =? snd b then fst a >? fst b else snd a >? snd b.

(** [sorted(items, key=lambda x: (x[1], x[0]), reverse=True)]; the sort is
    stable, items with equal keys keep their order. *)
Fixpoint insert_count (x : Z * Z) (l : list (Z * Z)) : list (Z * Z) :=
  match l with
  | [] => [x]
  | y :: l' => if count_key_gt y x then y :: insert_count x l' else x :: l
  end.

Definition sorted_counts (l : list (Z * Z)) : list (Z * Z) :=
  fold_right insert_count [] l.

(** [set(l)] as a duplicate-free list. *)
Definition set_of_ints (l : list Z) : list Z := nodup Z.eq_dec l.
Definition set_of_chars (l : list ascii) : list ascii := nodup ascii_dec l.

(** [max(gen)]: ValueError on an empty generator. *)
Definition py_max (l : list Z) : result Z :=
  match l with
  | [] => Raise ValueError
  | x :: l' => Ok (fold_left Z.max l' x)
  end.

(** ** The 5-card classifier *)

(** Lines 400-453 of [eval5]: everything after [ranks] and [suits] are
    built; [is_flush] is [len(set(suits)) == 1]. *)
Definition classify (ranks : list Z) (is_flush : bool) : result score :=
  let rank_counts := Counter ranks in
  let counts_sorted := sorted_counts rank_counts in
  let uniq := sorted_desc (set_of_ints ranks) in
  let '(is_straight, straight_high) :=
    if (List.length uniq =? 5)%nat then
      if nth 0 uniq 0 - nth 4 uniq 0 =? 4 then (true, nth 0 uniq 0)
      else if ints_eqb uniq [14; 5; 4; 3; 2] then (true, 5)
      else (false, 0)
    else (false, 0) in
  if is_flush && is_straight then Ok [PInt 8; PInt straight_high]
  else
    c1 <- getitem counts_sorted 0 ;;
    let '(c1_rank, c1_cnt) := c1 in
    let '(c2_rank, c2_cnt) :=
      match counts_sorted with
      | _ :: c2 :: _ => c2
      | _ => (0, 0)
      end in
    if c1_cnt =? 4 then
      kicker <- py_max (filter (fun r => negb (r =? c1_rank)) ranks) ;;
      Ok [PInt 7; PInt c1_rank; PInt kicker]
    else if (c1_cnt =? 3) && (c2_cnt =? 2) then
      Ok [PInt 6; PInt c1_rank; PInt c2_rank]
    else if is_flush then
      Ok [PInt 5; PTup (sorted_desc ranks)]
    else if is_straight then
      Ok [PInt 4; PInt straight_high]
    else if c1_cnt =? 3 then
      let kickers := sorted_desc (filter (fun r => negb (r =? c1_rank)) ranks) in
      Ok [PInt 3; PInt c1_rank; PTup kickers]
    else if (c1_cnt =? 2) && (c2_cnt =? 2) then
      let high_pair := Z.max c1_rank c2_rank in
      let low_pair := Z.min c1_rank c2_rank in
      kicker <- py_max (filter (fun r => negb (r =? high_pair) && negb (r =? low_pair))
                               ranks) ;;
      Ok [PInt 2; PInt high_pair; PInt low_pair; PInt kicker]
    else if c1_cnt =? 2 then
      let pair_rank := c1_rank in
      let kickers := sorted_desc (filter (fun r => negb (r =? pair_rank)) ranks) in
      Ok [PInt 1; PInt pair_rank; PTup kickers]
    else
      Ok [PInt 0; PTup (sorted_desc ranks)].

Definition eval5 (cards5 : list card) : result score :=
  rs <- mapM rank_of cards5 ;;
  let ranks := sorted_desc rs in
  suits <- mapM suit_of cards5 ;;
  let is_flush := (List.length (set_of_chars suits) =? 1)%nat in
  classify ranks is_flush.

(** ** The best-hand search *)

(** [itertools.combinations(l, k)], in its lexicographic order. *)
Fixpoint combinations {A : Type} (l : list A) (k : nat) {struct l} : list (list A) :=
  match k, l with
  | O, _ => [[]]
  | S _, [] => []
  | S k', x :: l' => map (cons x) (combinations l' k') ++ combinations l' k
  end.

(** The body of the [for idxs in combinations(range(n), 5)] loop; [best]
    is [None] until the first hand is scored. *)
Fixpoint eval7_loop (cards : list card) (combos : list (list nat))
    (best : option score) : result (option score) :=
  match combos with
  | [] => Ok best
  | idxs :: rest =>
      hand <- mapM (getitem cards) idxs ;;
      sc <- eval5 hand ;;
      better <- match best with
                | None => Ok true
                | Some b => score_gt sc b
                end ;;
      eval7_loop cards rest (if better : bool then Some sc else best)
  end.

(** For [n > 5] the loop runs at least once, so [best] is a score when it is
    returned (lemma [combinations_range_nonempty]); the [None] branch stands
    for the TypeError any use of a [None] score would raise. *)
Definition eval7 (cards : list card) : result score :=
  let n := List.length cards in
  if (n <=? 5)%nat then eval5 cards
  else
    best <- eval7_loop cards (combinations (seq 0 n) 5) None ;;
    match best with
    | Some b => Ok b
    | None => Raise TypeError
    end.

(** ** The opponent reduction *)

(** [[cards3[j] for j in range(3) if j != drop_i]] *)
Definition keep_of (cards3 : list card) (drop_i : nat) : result (list card) :=
  mapM (getitem cards3) (filter (fun j => negb (j =? drop_i)%nat) (seq 0 3)).

Fixpoint best_two_loop (cards3 current_board : list card) (drops : list nat)
    (best : option (score * list card)) : result (option (score * list card)) :=
  match drops with
  | [] => Ok best
  | drop_i :: rest =>
      keep <- keep_of cards3 drop_i ;;
      sc <- eval7 (keep ++ current_board) ;;
      better <- match best with
                | None => Ok true
                | Some (best_score, _) => score_gt sc best_score
                end ;;
      best_two_loop cards3 current_board rest
        (if better : bool then Some (sc, keep) else best)
  end.

(** [range(3)] is not empty, so [best_keep] is a list when it is returned. *)
Definition best_two_from_three (cards3 current_board : list card)
  : result (list card) :=
  best <- best_two_loop cards3 current_board (seq 0 3) None ;;
  match best with
  | Some (_, best_keep) => Ok best_keep
  | None => Raise TypeError
  end.

(** ** Cache keys *)

(** [sorted(my_cards)] on card tokens: ascending by code points, stable. *)
Fixpoint insert_card (x : card) (l : list card) : list card :=
  match l with
  | [] => [x]
  | y :: l' => if String.ltb y x then y :: insert_card x l' else x :: l
  end.

Definition sorted_cards (l : list card) : list card := fold_right insert_card [] l.

Record cache_key : Type := mk_key {
  key_hand : list card;
  key_board : list card;
  key_street : Z;
  key_bucket : Z
}.

Fixpoint cards_eqb (a b : list card) : bool :=
  match a, b with
  | [], [] => true
  | x :: a', y :: b' => String.eqb x y && cards_eqb a' b'
  | _, _ => false
  end.

Definition key_eqb (k1 k2 : cache_key) : bool :=
  cards_eqb (key_hand k1) (key_hand k2)
  && cards_eqb (key_board k1) (key_board k2)
  && (key_street k1 =? key_street k2)
  && (key_bucket k1 =? key_bucket k2).

(** [40 if iterations <= 45 else 60 if iterations <= 70 else 90 if
    iterations <= 100 else 120] *)
Definition it_bucket (iterations : Z) : Z :=
  if iterations <=? 45 then 40
  else if iterations <=? 70 then 60
  else if iterations <=? 100 then 90
  else 120.

(** [(tuple(sorted(my_cards)), tuple(board), street, it_bucket)] *)
Definition make_key (my_cards board : list card) (street iterations : Z) : cache_key :=
  mk_key (sorted_cards my_cards) board street (it_bucket iterations).

(** The dict [eq_cache]. *)
Definition cache : Type := list (cache_key * Q).

Fixpoint cache_get (d : cache) (k : cache_key) : option Q :=
  match d with
  | [] => None
  | (k', v) :: d' => if key_eqb k' k then Some v else cache_get d' k
  end.

Fixpoint cache_set (d : cache) (k : cache_key) (v : Q) : cache :=
  match d with
  | [] => [(k, v)]
  | (k', v') :: d' => if key_eqb k' k then (k', v) :: d' else (k', v') :: cache_set d' k v
  end.

(** [DiscardAction(idx)] *)
Inductive action : Type :=
| DiscardAction (idx : nat).

Notation "' pat <- m ;; k" := (bind m (fun x => match x with pat => k end))
  (at level 61, pat pattern, m at next level, right associativity).

(** ** The Monte Carlo simulator, the cache and the discard selector

    The player object owns a random generator and the equity cache.  The
    generator is abstract: [shuffle g deck] is [self.rng.shuffle(deck)], it
    returns the deck in its new order together with the generator's next
    state.  Equities are floats in the source; [wins] only ever holds
    multiples of one half, and the model keeps it, and the final quotient, as
    exact rationals. *)

Section Simulator.

Variable rng_state : Type.
Variable shuffle : rng_state -> list card -> list card * rng_state.

Record player : Type := mk_player {
  rng : rng_state;
  eq_cache : cache
}.

(** [while len(sim_board) < 6: sim_board.append(deck[d]); d += 1], run with
    [fuel = 6 - len(sim_board)], the number of times the guard holds. *)
Fixpoint runout (fuel : nat) (deck : list card) (d : nat) (sim_board : list card)
  : result (list card * nat) :=
  match fuel with
  | O => Ok (sim_board, d)
  | S fuel' =>
      c <- getitem deck d ;;
      runout fuel' deck (S d) (sim_board ++ [c])
  end.

(** One pass through the body of [for _ in range(iterations)]. *)
Definition sim_iteration (my_cards board deck : list card) (g : rng_state)
    (wins : Q) : result (list card * rng_state * Q) :=
  let '(deck, g) := shuffle g deck in
  let d := 0%nat in
  o0 <- getitem deck d ;;
  o1 <- getitem deck (d + 1) ;;
  o2 <- getitem deck (d + 2) ;;
  let opp3 := [o0; o1; o2] in
  let d := (d + 3)%nat in
  let sim_board := board in
  my2 <- (if (List.length my_cards =? 3)%nat
          then best_two_from_three my_cards sim_board
          else Ok my_cards) ;;
  opp2 <- best_two_from_three opp3 sim_board ;;
  ' (sim_board, d) <- runout (6 - List.length sim_board) deck d sim_board ;;
  s1 <- eval7 (my2 ++ sim_board) ;;
  s2 <- eval7 (opp2 ++ sim_board) ;;
  gt <- score_gt s1 s2 ;;
  if gt : bool then Ok (deck, g, (wins + 1)%Q)
  else if score_eqb s1 s2 then Ok (deck, g, (wins + (1 # 2))%Q)
  else Ok (deck, g, wins).

Fixpoint sim_loop (n : nat) (my_cards board deck : list card) (g : rng_state)
    (wins : Q) : result (rng_state * Q) :=
  match n with
  | O => Ok (g, wins)
  | S n' =>
      ' (deck', g', wins') <- sim_iteration my_cards board deck g wins ;;
      sim_loop n' my_cards board deck' g' wins'
  end.

Definition calculate_equity_python (g : rng_state) (my_cards board : list card)
    (iterations : Z) : result (Q * rng_state) :=
  let wins := 0%Q in
  let used := my_cards ++ board in
  let deck := filter (fun c => negb (existsb (String.eqb c) used)) full_deck in
  ' (g', wins) <- sim_loop (Z.to_nat iterations) my_cards board deck g wins ;;
  if iterations =? 0 then Raise ZeroDivisionError
  else Ok ((wins / inject_Z iterations)%Q, g').

Definition calculate_equity (p : player) (my_cards board : list card)
    (street iterations : Z) : result (Q * player) :=
  let bucket := it_bucket iterations in
  let key := mk_key (sorted_cards my_cards) board street bucket in
  match cache_get (eq_cache p) key with
  | Some cached => Ok (cached, p)
  | None =>
      ' (eq, g') <- calculate_equity_python (rng p) my_cards board bucket ;;
      Ok (eq, mk_player g' (cache_set (eq_cache p) key eq))
  end.

(** The body of [for i in range(3)] in [get_best_discard]. *)
Fixpoint discard_loop (idxs : list nat) (my_cards board : list card) (iters : Z)
    (p : player) (best_idx : nat) (best_eq : Q) : result (nat * player) :=
  match idxs with
  | [] => Ok (best_idx, p)
  | i :: rest =>
      kept <- keep_of my_cards i ;;
      ci <- getitem my_cards i ;;
      let board_after_discard := board ++ [ci] in
      ' (eq, p') <- calculate_equity p kept board_after_discard 1 iters ;;
      if negb (Qle_bool eq best_eq)
      then discard_loop rest my_cards board iters p' i eq
      else discard_loop rest my_cards board iters p' best_idx best_eq
  end.

Definition get_best_discard (p : player) (my_cards board : list card)
  : result (action * player) :=
  let best_idx := 0%nat in
  let best_eq := (- (1))%Q in
  let iters := if (2 <=? List.length board)%nat then 60 else 50 in
  ' (idx, p') <- discard_loop (seq 0 3) my_cards board iters p best_idx best_eq ;;
  Ok (DiscardAction idx, p').

End Simulator.

Arguments mk_player {rng_state} _ _.
Arguments rng {rng_state} _.
Arguments eq_cache {rng_state} _.
Arguments calculate_equity_python {rng_state} shuffle g my_cards board iterations.
Arguments calculate_equity {rng_state} shuffle p my_cards board street iterations.
Arguments get_best_discard {rng_state} shuffle p my_cards board.
Arguments sim_iteration {rng_state} shuffle my_cards board deck g wins.
Arguments sim_loop {rng_state} shuffle n my_cards board deck g wins.
Arguments discard_loop {rng_state} shuffle idxs my_cards board iters p best_idx best_eq.

(** Two generators for running the model: one leaves the deck as it is, one
    reverses it. *)
Definition shuffle_id (g : unit) (deck : list card) : list card * unit := (deck, g).
Definition shuffle_rev (g : unit) (deck : list card) : list card * unit := (rev deck, g).

(** ** The ranking law, stated on the ranks and suits of a hand

    These definitions follow the wording of the ranking rules, not the
    evaluator: they say what a score must be for a hand, in terms of how often
    each rank occurs, whether the suits agree and whether the ranks run. *)

(** Rank and suit of a well-formed card token. *)
Definition card_rank (c : card) : Z :=
  match rank_of c with
  | Ok r => r
  | Raise _ => 0
  end.

Definition card_suit (c : card) : ascii :=
  match suit_of c with
  | Ok s => s
  | Raise _ => "000"%char
  end.

(** How many of the ranks [rs] equal [r]. *)
Fixpoint mult (rs : list Z) (r : Z) : nat :=
  match rs with
  | [] => 0
  | x :: rs' => if x =? r then S (mult rs' r) else mult rs' r
  end.

(** All cards share the suit of the first. *)
Definition one_suit (cs : list card) : bool :=
  match cs with
  | [] => false
  | c :: cs' => forallb (fun c' => Ascii.eqb (card_suit c') (card_suit c)) cs'
  end.

(** The ranks are the five consecutive ranks ending in [h], or the wheel
    A-2-3-4-5 with [h = 5]. *)
Definition straight_to (rs : list Z) (h : Z) : bool :=
  forallb (fun r => (0 <? mult rs r)%nat) [h; h - 1; h - 2; h - 3; h - 4]
  || ((h =? 5) && forallb (fun r => (0 <? mult rs r)%nat) [14; 5; 4; 3; 2]).

Definition has_straight (rs : list Z) : bool :=
  existsb (straight_to rs) [5; 6; 7; 8; 9; 10; 11; 12; 13; 14].

Fixpoint descending (l : list Z) : bool :=
  match l with
  | x :: ((y :: _) as l') => (y <=? x) && descending l'
  | _ => true
  end.

Fixpoint distinct (l : list Z) : bool :=
  match l with
  | [] => true
  | x :: l' => (mult l' x =? 0)%nat && distinct l'
  end.

(** [l] lists the ranks [rs] in descending order: it is descending and every
    rank occurs as often in [l] as in [rs]. *)
Definition desc_of (l rs : list Z) : bool :=
  descending l && forallb (fun r => (mult l r =? mult rs r)%nat) (l ++ rs).

(** The ranks of [rs] other than [r]. *)
Definition others (rs : list Z) (r : Z) : list Z :=
  filter (fun x => negb (x =? r)) rs.

(** The law: category and tie-break payload of a 5-card hand with ranks [rs]
    whose suits agree exactly when [flush] holds. *)
Definition canonical (rs : list Z) (flush : bool) (v : score) : bool :=
  match v with
  | [PInt 8; PInt h] => flush && straight_to rs h
  | [PInt 7; PInt q; PInt k] => (mult rs q =? 4)%nat && (mult rs k =? 1)%nat
  | [PInt 6; PInt t; PInt p] => (mult rs t =? 3)%nat && (mult rs p =? 2)%nat
  | [PInt 5; PTup l] => flush && negb (has_straight rs) && desc_of l rs
  | [PInt 4; PInt h] => negb flush && straight_to rs h
  | [PInt 3; PInt t; PTup l] =>
      (mult rs t =? 3)%nat && desc_of l (others rs t) && distinct l
  | [PInt 2; PInt hp; PInt lp; PInt k] =>
      (mult rs hp =? 2)%nat && (mult rs lp =? 2)%nat && (lp <? hp)
      && (mult rs k =? 1)%nat
  | [PInt 1; PInt p; PTup l] =>
      (mult rs p =? 2)%nat && desc_of l (others rs p) && distinct l
  | [PInt 0; PTup l] =>
      negb flush && negb (has_straight rs) && desc_of l rs && distinct l
  | _ => false
  end.

(** The primary category of a score. *)
Definition category (v : score) : Z :=
  match v with
  | PInt c :: _ => c
  | _ => -1
  end.

(** The tie-break payload of a score. *)
Definition payload (v : score) : list item := tl v.

(** A hand as dealt: five distinct cards of the deck. *)
Definition hand5 (cs : list card) : Prop :=
  List.length cs = 5%nat /\ NoDup cs /\ incl cs full_deck.

(** ** Layout of scores *)

Definition is_tup (x : item) : bool :=
  match x with
  | PInt _ => false
  | PTup _ => true
  end.

Definition kinds (v : score) : list bool := map is_tup v.

(** The layout the evaluator uses for each category. *)
Definition shaped (v : score) : bool :=
  match v with
  | [PInt c; PInt _] => (c =? 8) || (c =? 4)
  | [PInt c; PInt _; PInt _] => (c =? 7) || (c =? 6)
  | [PInt c; PTup _] => (c =? 5) || (c =? 0)
  | [PInt c; PInt _; PTup _] => (c =? 3) || (c =? 1)
  | [PInt c; PInt _; PInt _; PInt _] => c =? 2
  | _ => false
  end.

(** All lists of length [k] over [dom]. *)
Fixpoint lists_over (dom : list Z) (k : nat) : list (list Z) :=
  match k with
  | O => [[]]
  | S k' => flat_map (fun x => map (cons x) (lists_over dom k')) dom
  end.

Definition all_ranks : list Z := [2; 3; 4; 5; 6; 7; 8; 9; 10; 11; 12; 13; 14].

(** Every score the law could allow for the ranks [rs]: the integers of a
    score are ranks of the hand, its tuples are those ranks in descending
    order. *)
Definition candidates (rs : list Z) : list score :=
  let rs1 := set_of_ints rs in
  flat_map (fun h => [[PInt 8; PInt h]; [PInt 4; PInt h]]) rs1
  ++ flat_map (fun q =>
       flat_map (fun k => [[PInt 7; PInt q; PInt k]; [PInt 6; PInt q; PInt k]]) rs1) rs1
  ++ [[PInt 5; PTup (sorted_desc rs)]; [PInt 0; PTup (sorted_desc rs)]]
  ++ flat_map (fun t => [[PInt 3; PInt t; PTup (sorted_desc (others rs t))];
                         [PInt 1; PInt t; PTup (sorted_desc (others rs t))]]) rs1
  ++ flat_map (fun hp =>
       flat_map (fun lp => map (fun k => [PInt 2; PInt hp; PInt lp; PInt k]) rs1) rs1) rs1.

(** What distinct cards of a 52-card deck allow: a rank occurs at most four
    times, and at most once when all cards are of one suit. *)
Definition admissible (rs : list Z) (flush : bool) : bool :=
  forallb (fun r => (mult rs r <=? (if flush then 1 else 4))%nat) all_ranks.

(** The check run on every descending list of ranks. *)
Definition law_holds (rs : list Z) (flush : bool) : bool :=
  match classify rs flush with
  | Ok v => shaped v && implb (admissible rs flush) (canonical rs flush v)
  | Raise _ => false
  end.

(** The classifier's score is the only candidate the law allows. *)
Definition law_decides (rs : list Z) (flush : bool) : bool :=
  match classify rs flush with
  | Ok v0 =>
      implb (admissible rs flush)
            (forallb (fun v => implb (canonical rs flush v) (score_eqb v v0))
                     (candidates rs))
  | Raise _ => false
  end.

Definition scores_well (rs : list Z) (flush : bool) : bool :=
  match classify rs flush with
  | Ok v => shaped v
  | Raise _ => false
  end.

Definition descending_lists (k : nat) : list (list Z) :=
  filter descending (lists_over all_ranks k).

(** ** Subsets of a card list *)

(** [subseq h l]: [h] picks some of the positions of [l], in order. *)
Inductive subseq {A : Type} : list A -> list A -> Prop :=
| subseq_nil : subseq [] []
| subseq_take (x : A) (h l : list A) : subseq h l -> subseq (x :: h) (x :: l)
| subseq_skip (x : A) (h l : list A) : subseq h l -> subseq h (x :: l).

(** The binomial coefficient, by Pascal's rule. *)
Fixpoint binom (n k : nat) : nat :=
  match k, n with
  | O, _ => 1
  | S _, O => 0
  | S k', S n' => (binom n' k' + binom n' k)%nat
  end.

(** The search loop of [eval7] over the hands themselves rather than their
    index tuples. *)
Fixpoint best_of_hands (hands : list (list card)) (best : option score)
  : result (option score) :=
  match hands with
  | [] => Ok best
  | hand :: rest =>
      sc <- eval5 hand ;;
      better <- match best with
                | None => Ok true
                | Some b => score_gt sc b
                end ;;
      best_of_hands rest (if better : bool then Some sc else best)
  end.

(** [a <= b] on scores: [a > b] evaluates to [False]. *)
Definition score_le (a b : score) : Prop := score_gt a b = Ok false.

(** The estimate a query returns, without the player's next state. *)
Definition estimate_of {S : Type} (r : result (Q * S)) : result Q :=
  match r with
  | Ok (e, _) => Ok e
  | Raise x => Raise x
  end.

(** The check behind the straight lemmas: a descending list holding each of
    the ranks [target] is [target]. *)
Definition only_ranks (target : list Z) (rs : list Z) : bool :=
  implb (forallb (fun r => (0 <? mult rs r)%nat) target) (ints_eqb rs target).

(** Every cached estimate is a probability; true of the empty cache a player
    starts with and kept by every query. *)
Definition cache_ok (d : cache) : Prop :=
  forall k v, cache_get d k = Some v -> (0 <= v)%Q /\ (v <= 1)%Q.

(** The iteration count [get_best_discard] asks for. *)
Definition discard_iters (board : list card) : Z :=
  if (2 <=? List.length board)%nat then 60 else 50.

(** * The decision policy around the evaluator

    The rest of [rl_bot/player.py]: board texture, pre-flop points, the
    engine hooks and [get_action]. *)

(** ** Board texture *)

(** [sorted(l)] on integers: ascending, stable. *)
Fixpoint insert_asc (x : Z) (l : list Z) : list Z :=
  match l with
  | [] => [x]
  | y :: l' => if y <? x then y :: insert_asc x l' else x :: l
  end.

Definition sorted_asc (l : list Z) : list Z := fold_right insert_asc [] l.

(** [s_counts[s] += 1] on a [defaultdict(int)] keyed by suit. *)
Fixpoint suit_add (s : ascii) (d : list (ascii * Z)) : list (ascii * Z) :=
  match d with
  | [] => [(s, 1)]
  | (k, n) :: d' => if Ascii.eqb k s then (k, n + 1) :: d' else (k, n) :: suit_add s d'
  end.

Definition suit_counts (suits : list ascii) : list (ascii * Z) :=
  fold_left (fun d s => suit_add s d) suits [].

(** [for i in range(len(ranks) - 2): if ranks[i + 2] - ranks[i] <= 4: return
    True], followed by [return False]. *)
Fixpoint wet_scan (ranks : list Z) (idxs : list nat) : result bool :=
  match idxs with
  | [] => Ok false
  | i :: rest =>
      hi <- getitem ranks (i + 2) ;;
      lo <- getitem ranks i ;;
      if hi - lo <=? 4 then Ok true else wet_scan ranks rest
  end.

Definition is_board_wet (board : list card) : result bool :=
  if (List.length board <? 3)%nat then Ok false
  else
    suits <- mapM suit_of board ;;
    let s_counts := suit_counts suits in
    if existsb (fun kv => 3 <=? snd kv) s_counts then Ok true
    else
      rs <- mapM rank_of board ;;
      let ranks := sorted_asc rs in
      wet_scan ranks (seq 0 (List.length ranks - 2)).

(** The docstring's criteria, stated on the cards in any order: three or
    more cards of one suit, or three ranks within a span of four. *)
Definition suit_count (s : ascii) (cs : list card) : nat :=
  List.length (filter (fun c => Ascii.eqb (card_suit c) s) cs).

Definition three_suited (cs : list card) : bool :=
  existsb (fun c => (3 <=? suit_count (card_suit c) cs)%nat) cs.

(** How many of the ranks [rs] lie in [lo .. lo + 4]. *)
Definition within (lo : Z) (rs : list Z) : nat :=
  List.length (filter (fun x => (lo <=? x) && (x <=? lo + 4)) rs).

Definition three_close (rs : list Z) : bool :=
  existsb (fun lo => (3 <=? within lo rs)%nat) rs.

Definition wet (board : list card) : bool :=
  (3 <=? List.length board)%nat
  && (three_suited board || three_close (map card_rank board)).

(** The scan of [is_board_wet] as a recursion on the sorted ranks. *)
Fixpoint windows (ranks : list Z) : bool :=
  match ranks with
  | lo :: ((_ :: hi :: _) as rest) => (hi - lo <=? 4) || windows rest
  | _ => false
  end.

Fixpoint ascending (l : list Z) : bool :=
  match l with
  | x :: ((y :: _) as l') => (x <=? y) && ascending l'
  | _ => true
  end.

(** The value a [defaultdict(int)] holds for a key. *)
Fixpoint suit_lookup (d : list (ascii * Z)) (s : ascii) : Z :=
  match d with
  | [] => 0
  | (k, n) :: d' => if Ascii.eqb k s then n else suit_lookup d' s
  end.

(** ** Pre-flop points *)

(** [sum(l)] *)
Definition py_sum (l : list Z) : Z := fold_left Z.add l 0.

(** The three index expressions [ranks[0]], [ranks[1]], [ranks[2]] are
    evaluated here before the conditions that use them: with fewer than three
    cards the source raises IndexError inside its first [if], whichever
    operand of the [or] it reaches, and so does this. *)
Definition evaluate_preflop_points (cards : list card) : result Z :=
  rs <- mapM rank_of cards ;;
  let ranks := sorted_desc rs in
  suits <- mapM suit_of cards ;;
  let points := py_sum ranks in
  r0 <- getitem ranks 0 ;;
  r1 <- getitem ranks 1 ;;
  r2 <- getitem ranks 2 ;;
  let points :=
    if (r0 =? r1) || (r1 =? r2) || (r0 =? r2)
    then (if r0 =? r2 then points + 20 + 30 else points + 20)
    else points in
  s0 <- getitem suits 0 ;;
  s1 <- getitem suits 1 ;;
  s2 <- getitem suits 2 ;;
  let points :=
    if Ascii.eqb s0 s1 && Ascii.eqb s1 s2 then points + 12
    else if Ascii.eqb s0 s1 || Ascii.eqb s1 s2 || Ascii.eqb s0 s2 then points + 3
    else points in
  let gap1 := r0 - r1 in
  let gap2 := r1 - r2 in
  let points :=
    if (gap1 =? 1) && (gap2 =? 1) then points + 12
    else if (gap1 =? 1) || (gap2 =? 1) then points + 4
    else points in
  Ok points.

(** The three bonuses of [evaluate_preflop_points], on the ranks in
    descending order and the suits as listed. *)
Definition pair_bonus (r0 r1 r2 : Z) : Z :=
  if (r0 =? r1) || (r1 =? r2) || (r0 =? r2)
  then (if r0 =? r2 then 50 else 20)
  else 0.

Definition suit_bonus (s0 s1 s2 : ascii) : Z :=
  if Ascii.eqb s0 s1 && Ascii.eqb s1 s2 then 12
  else if Ascii.eqb s0 s1 || Ascii.eqb s1 s2 || Ascii.eqb s0 s2 then 3
  else 0.

Definition gap_bonus (r0 r1 r2 : Z) : Z :=
  if (r0 - r1 =? 1) && (r1 - r2 =? 1) then 12
  else if (r0 - r1 =? 1) || (r1 - r2 =? 1) then 4
  else 0.

(** ** Actions, legal actions and the engine's states *)

(** The five action classes of the engine. *)
Inductive action_cls : Type :=
| Fold_cls
| Call_cls
| Check_cls
| Raise_cls
| Discard_cls.

Definition action_cls_eqb (c1 c2 : action_cls) : bool :=
  match c1, c2 with
  | Fold_cls, Fold_cls | Call_cls, Call_cls | Check_cls, Check_cls
  | Raise_cls, Raise_cls | Discard_cls, Discard_cls => true
  | _, _ => false
  end.

(** An element of [legal_actions]: an action class, or an instance of
    one. *)
Inductive legal_item : Type :=
| LClass (c : action_cls)
| LInstance (c : action_cls).

(** [has_action]: an element counts when it is the class asked for
    ([a == action_cls]) or an instance of it ([isinstance(a, action_cls)]). *)
Definition has_action (legal_actions : list legal_item) (cls : action_cls) : bool :=
  existsb (fun a => match a with
                    | LClass c => action_cls_eqb c cls
                    | LInstance c => action_cls_eqb c cls
                    end) legal_actions.

(** What [get_action] returns: one of the four betting actions, or the
    [DiscardAction] of the discard selector. *)
Inductive reply : Type :=
| FoldAction
| CallAction
| CheckAction
| RaiseAction (amount : Z)
| Discard (a : action).

Definition reply_cls (r : reply) : action_cls :=
  match r with
  | FoldAction => Fold_cls
  | CallAction => Call_cls
  | CheckAction => Check_cls
  | RaiseAction _ => Raise_cls
  | Discard _ => Discard_cls
  end.

(** The fields of the engine's [GameState] and [RoundState] that the player
    reads; [rs_legal_actions] and [rs_raise_bounds] are the results of the
    methods [legal_actions()] and [raise_bounds()]. *)
Record GameState : Type := mk_game {
  gs_round_num : Z;
  gs_bankroll : Z
}.

Record RoundState : Type := mk_round {
  rs_legal_actions : list legal_item;
  rs_street : Z;
  rs_hands : list (list card);
  rs_board : list card;
  rs_pips : list Z;
  rs_stacks : list Z;
  rs_raise_bounds : Z * Z
}.

(** [l[i]] for an integer index; a negative index counts from the end. *)
Definition getitem_z {A : Type} (l : list A) (i : Z) : result A :=
  if 0 <=? i then getitem l (Z.to_nat i)
  else if - Z.of_nat (List.length l) <=? i
       then getitem l (Z.to_nat (Z.of_nat (List.length l) + i))
       else Raise IndexError.

(** The iteration count [get_action] asks for after the flop. *)
Definition base_iters (pot : Z) (board : list card) : Z :=
  let base_iters := 50 in
  let base_iters := if 80 <=? pot then 70 else base_iters in
  let base_iters := if 200 <=? pot then 90 else base_iters in
  let base_iters := if (4 <=? List.length board)%nat then Z.max base_iters 80
                    else base_iters in
  let base_iters := if (5 <=? List.length board)%nat then Z.max base_iters 110
                    else base_iters in
  base_iters.

(** ** The player object and its hooks

    The engine's constants [NUM_ROUNDS] and [STARTING_STACK] are parameters;
    [random g] is [self.rng.random()].  The float expressions of the policy
    are computed on rationals: [0.10], [0.60], [0.80], [0.05] and [1.5] are the
    fractions they denote, [int(pot * 0.55)] truncates towards zero. *)

Section Policy.

Variable rng_state : Type.
Variable shuffle : rng_state -> list card -> list card * rng_state.
Variable random : rng_state -> Q * rng_state.
Variable NUM_ROUNDS : Z.
Variable STARTING_STACK : Z.

(** The player object: the lockdown flag beside the generator and the
    cache. *)
Record bot : Type := mk_bot {
  lockdown_mode : bool;
  core : player rng_state
}.

Definition handle_new_round (b : bot) (game_state : GameState) : bot :=
  let cache := if gs_round_num game_state mod 10 =? 0 then []
               else eq_cache (core b) in
  let rounds_remaining := NUM_ROUNDS - gs_round_num game_state + 1 in
  let secure_threshold := (inject_Z rounds_remaining * (3 # 2) + 10)%Q in
  mk_bot (negb (Qle_bool (inject_Z (gs_bankroll game_state)) secure_threshold))
         (mk_player (rng (core b)) cache).

(** [(STARTING_STACK - stacks[0]) + (STARTING_STACK - stacks[1])] *)
Definition compute_pot (round_state : RoundState) : result Z :=
  s0 <- getitem (rs_stacks round_state) 0 ;;
  s1 <- getitem (rs_stacks round_state) 1 ;;
  Ok ((STARTING_STACK - s0) + (STARTING_STACK - s1)).

(** [max(min_r, min(max_r, target))] *)
Definition clamp_raise (min_r max_r target : Z) : Z :=
  Z.max min_r (Z.min max_r target).

Definition get_action (b : bot) (round_state : RoundState) (active : Z)
  : result (reply * bot) :=
  let legal := rs_legal_actions round_state in
  let street := rs_street round_state in
  my_cards <- getitem_z (rs_hands round_state) active ;;
  let board := rs_board round_state in
  if has_action legal Discard_cls then
    ' (a, p') <- get_best_discard shuffle (core b) my_cards board ;;
    Ok (Discard a, mk_bot (lockdown_mode b) p')
  else if lockdown_mode b then
    if has_action legal Check_cls then Ok (CheckAction, b)
    else if has_action legal Call_cls then Ok (CallAction, b)
    else Ok (FoldAction, b)
  else if street =? 0 then
    points <- evaluate_preflop_points my_cards ;;
    if 35 <=? points then
      if has_action legal Raise_cls then
        let '(u, g') := random (rng (core b)) in
        let b' := mk_bot (lockdown_mode b) (mk_player g' (eq_cache (core b))) in
        if negb (Qle_bool (1 # 10) u) && has_action legal Call_cls
        then Ok (CallAction, b')
        else
          let '(min_r, max_r) := rs_raise_bounds round_state in
          if 45 <? points then Ok (RaiseAction max_r, b')
          else
            pot <- compute_pot round_state ;;
            opp_pip <- getitem_z (rs_pips round_state) (1 - active) ;;
            let target_raise_to := opp_pip + pot in
            Ok (RaiseAction (clamp_raise min_r max_r target_raise_to), b')
      else if has_action legal Call_cls then Ok (CallAction, b)
      else if has_action legal Check_cls then Ok (CheckAction, b)
      else Ok (FoldAction, b)
    else if 26 <=? points then
      if has_action legal Call_cls then Ok (CallAction, b)
      else if has_action legal Check_cls then Ok (CheckAction, b)
      else Ok (FoldAction, b)
    else
      if has_action legal Check_cls then Ok (CheckAction, b)
      else Ok (FoldAction, b)
  else
    pot <- compute_pot round_state ;;
    my_pip <- getitem_z (rs_pips round_state) active ;;
    opp_pip <- getitem_z (rs_pips round_state) (1 - active) ;;
    let cost_to_call := Z.max 0 (opp_pip - my_pip) in
    is_wet <- is_board_wet board ;;
    ' (equity, p') <- calculate_equity shuffle (core b) my_cards board street
                        (base_iters pot board) ;;
    let b' := mk_bot (lockdown_mode b) p' in
    if negb (Qle_bool equity (6 # 10)) && has_action legal Raise_cls then
      let '(min_r, max_r) := rs_raise_bounds round_state in
      let bet_size := if is_wet : bool then pot else Z.quot (pot * 55) 100 in
      if negb (Qle_bool equity (8 # 10)) && is_wet then Ok (RaiseAction max_r, b')
      else
        let call_to := Z.max my_pip opp_pip in
        let raise_to := call_to + Z.max 1 bet_size in
        Ok (RaiseAction (clamp_raise min_r max_r raise_to), b')
    else if negb (Qle_bool equity (6 # 10))
            && (0 <? cost_to_call) && has_action legal Call_cls
    then Ok (CallAction, b')
    else if negb (Qle_bool equity (6 # 10)) && has_action legal Check_cls
    then Ok (CheckAction, b')
    else if (0 <? cost_to_call)
            && Qle_bool (inject_Z cost_to_call
                         / inject_Z (Z.max 1 (pot + cost_to_call)) + (5 # 100))%Q
                        equity
            && has_action legal Call_cls
    then Ok (CallAction, b')
    else if has_action legal Check_cls then Ok (CheckAction, b')
    else Ok (FoldAction, b').

End Policy.

Arguments mk_bot {rng_state} _ _.
Arguments lockdown_mode {rng_state} _.
Arguments core {rng_state} _.
Arguments handle_new_round {rng_state} NUM_ROUNDS b game_state.
Arguments get_action {rng_state} shuffle random STARTING_STACK b round_state active.

(** A generator for running the model: [random] returns one half. *)
Definition random_half (g : unit) : Q * unit := ((1 # 2)%Q, g).

(** The cache holds no entry of the 40-iteration bucket. *)
Definition buckets_ok (d : cache) : Prop :=
  forall k v, In (k, v) d -> In (key_bucket k) [60; 90; 120].

(** Round states for running the model: before the flop with a pair of aces,
    on a dry flop, and when a discard is due. *)
Definition preflop_state : RoundState :=
  mk_round [LClass Fold_cls; LClass Call_cls; LClass Raise_cls] 0
           [["Ah"; "Ad"; "Kc"]; []] [] [1; 2] [399; 398] (4, 400).

Definition flop_state : RoundState :=
  mk_round [LClass Check_cls; LClass Raise_cls] 3
           [["Ah"; "Kd"]; []] ["2c"; "3d"; "9h"] [0; 0] [396; 396] (2, 396).

Definition discard_state : RoundState :=
  mk_round [LClass Discard_cls] 2
           [["Ah"; "2c"; "3d"]; []] ["As"; "7d"] [0; 0] [396; 396] (2, 396).

Definition fresh_bot : bot unit := mk_bot false (mk_player tt []).

(** * Properties *)

(** ** The evaluator on sample hands *)

Example eval5_royal :
  eval5 ["Ah"; "Kh"; "Qh"; "Jh"; "Th"] = Ok [PInt 8; PInt 14].
Proof. reflexivity. Qed.

Example eval5_boat :
  eval5 ["8s"; "8d"; "8c"; "2h"; "2s"] = Ok [PInt 6; PInt 8; PInt 2].
Proof. reflexivity. Qed.

Example canonical_accepts_boat :
  canonical [8; 8; 8; 2; 2] false [PInt 6; PInt 8; PInt 2] = true.
Proof. reflexivity. Qed.

Example canonical_rejects_swapped_boat :
  canonical [8; 8; 8; 2; 2] false [PInt 6; PInt 2; PInt 8] = false.
Proof. reflexivity. Qed.

Example canonical_rejects_flush_for_straight_flush :
  canonical [14; 13; 12; 11; 10] true [PInt 5; PTup [14; 13; 12; 11; 10]] = false.
Proof. reflexivity. Qed.

Example canonical_rejects_unsorted_kickers :
  canonical [9; 9; 14; 3; 7] false [PInt 1; PInt 9; PTup [14; 3; 7]] = false
  /\ canonical [9; 9; 14; 3; 7] false [PInt 1; PInt 9; PTup [14; 7; 3]] = true.
Proof. split; reflexivity. Qed.

Example eval5_two_pair_of_four_cards :
  eval5 ["Ah"; "Kd"; "Ac"; "Ks"] = Raise ValueError.
Proof. reflexivity. Qed.

Example eval5_pair_of_two_cards :
  eval5 ["Ah"; "Ad"] = Ok [PInt 1; PInt 14; PTup []].
Proof. reflexivity. Qed.

(** ** The order on scores *)

Lemma ints_eqb_eq (a b : list Z) : ints_eqb a b = true <-> a = b.
Proof.
  revert b; induction a as [|x a IH]; intros [|y b]; simpl; split;
    try discriminate; try reflexivity.
  - intros H. apply andb_true_iff in H. destruct H as [Hx Hr].
    apply Z.eqb_eq in Hx. apply IH in Hr. congruence.
  - intros H. injection H as -> ->. rewrite Z.eqb_refl. simpl. now apply IH.
Qed.

Lemma ints_gt_irrefl (a : list Z) : ints_gt a a = false.
Proof. induction a as [|x a IH]; simpl; [reflexivity|]. now rewrite Z.eqb_refl. Qed.

Lemma ints_gt_total (a b : list Z) :
  a = b \/ ints_gt a b = true \/ ints_gt b a = true.
Proof.
  revert b; induction a as [|x a IH]; intros [|y b]; simpl; auto.
  rewrite (Z.eqb_sym y x). destruct (x =? y) eqn:E.
  - apply Z.eqb_eq in E. subst y. destruct (IH b) as [-> | [H | H]]; auto.
  - apply Z.eqb_neq in E.
    destruct (Z.gtb_spec x y); [auto|]. right; right.
    destruct (Z.gtb_spec y x); [reflexivity|lia].
Qed.

Lemma ints_gt_asym (a b : list Z) : ints_gt a b = true -> ints_gt b a = false.
Proof.
  revert b; induction a as [|x a IH]; intros [|y b]; simpl; try discriminate; auto.
  rewrite (Z.eqb_sym y x). destruct (x =? y) eqn:E; [apply IH|].
  intros H. destruct (Z.gtb_spec x y); [|discriminate].
  destruct (Z.gtb_spec y x); [lia|reflexivity].
Qed.

Lemma ints_gt_trans (a b c : list Z) :
  ints_gt a b = true -> ints_gt b c = true -> ints_gt a c = true.
Proof.
  revert b c; induction a as [|x a IH]; intros [|y b] [|z c]; simpl;
    try discriminate; auto.
  destruct (Z.eqb_spec x y) as [->|Nxy]; destruct (Z.eqb_spec y z) as [->|Nyz].
  - apply IH.
  - auto.
  - destruct (Z.eqb_spec x z); [contradiction|auto].
  - intros H1 H2.
    destruct (Z.gtb_spec x y); [|discriminate].
    destruct (Z.gtb_spec y z); [|discriminate].
    destruct (Z.eqb_spec x z); [lia|].
    destruct (Z.gtb_spec x z); [reflexivity|lia].
Qed.

Lemma item_eqb_eq (a b : item) : item_eqb a b = true <-> a = b.
Proof.
  destruct a as [x|x], b as [y|y]; simpl; split; try discriminate.
  - intros H. apply Z.eqb_eq in H. congruence.
  - intros H. injection H as ->. apply Z.eqb_refl.
  - intros H. apply ints_eqb_eq in H. congruence.
  - intros H. injection H as ->. now apply ints_eqb_eq.
Qed.

Lemma item_eqb_refl (a : item) : item_eqb a a = true.
Proof. now apply item_eqb_eq. Qed.

Lemma score_eqb_eq (s1 s2 : score) : score_eqb s1 s2 = true <-> s1 = s2.
Proof.
  revert s2; induction s1 as [|a s1 IH]; intros [|b s2]; simpl; split;
    try discriminate; try reflexivity.
  - intros H. apply andb_true_iff in H. destruct H as [Ha Hr].
    apply item_eqb_eq in Ha. apply IH in Hr. congruence.
  - intros H. injection H as -> ->. rewrite item_eqb_refl. simpl. now apply IH.
Qed.

Lemma score_gt_irrefl (s : score) : score_gt s s = Ok false.
Proof. induction s as [|a s IH]; simpl; [reflexivity|]. now rewrite item_eqb_refl. Qed.

(** Scores of one layout: integers and tuples at the same positions. *)
Lemma score_gt_defined (a b : score) :
  kinds a = kinds b -> exists r, score_gt a b = Ok r.
Proof.
  revert b; induction a as [|x a IH]; intros [|y b]; simpl; try discriminate; eauto.
  intros H. injection H as Hk Hr. destruct (item_eqb x y); [now apply IH|].
  destruct x, y; simpl in *; try discriminate; eauto.
Qed.

Lemma score_gt_total (a b : score) :
  kinds a = kinds b ->
  a = b \/ score_gt a b = Ok true \/ score_gt b a = Ok true.
Proof.
  revert b; induction a as [|x a IH]; intros [|y b]; simpl; try discriminate; auto.
  intros H. injection H as Hk Hr.
  destruct (item_eqb x y) eqn:E.
  - apply item_eqb_eq in E. subst y. rewrite item_eqb_refl.
    destruct (IH b Hr) as [-> | [H | H]]; auto.
  - assert (E' : item_eqb y x = false).
    { destruct (item_eqb y x) eqn:E'; [|reflexivity].
      apply item_eqb_eq in E'. subst. now rewrite item_eqb_refl in E. }
    rewrite E'. destruct x as [x|x], y as [y|y]; simpl in *; try discriminate.
    + apply Z.eqb_neq in E. right.
      destruct (Z.gtb_spec x y); [auto|]. right.
      destruct (Z.gtb_spec y x); [reflexivity|lia].
    + destruct (ints_gt_total x y) as [-> | [H | H]].
      * now rewrite (proj2 (ints_eqb_eq y y) eq_refl) in E.
      * rewrite H; auto.
      * rewrite H; auto.
Qed.

Lemma score_gt_asym (a b : score) :
  score_gt a b = Ok true -> score_gt b a = Ok false.
Proof.
  revert b; induction a as [|x a IH]; intros [|y b]; simpl; try discriminate; auto.
  destruct (item_eqb x y) eqn:E.
  - apply item_eqb_eq in E. subst y. rewrite item_eqb_refl. apply IH.
  - assert (E' : item_eqb y x = false).
    { destruct (item_eqb y x) eqn:E'; [|reflexivity].
      apply item_eqb_eq in E'. subst. now rewrite item_eqb_refl in E. }
    rewrite E'. destruct x as [x|x], y as [y|y]; simpl; try discriminate.
    + intros H. injection H as H. f_equal.
      destruct (Z.gtb_spec x y); [|discriminate].
      destruct (Z.gtb_spec y x); [lia|reflexivity].
    + intros H. injection H as H. f_equal. now apply ints_gt_asym.
Qed.

Lemma score_gt_trans (a b c : score) :
  kinds a = kinds b -> kinds b = kinds c ->
  score_gt a b = Ok true -> score_gt b c = Ok true -> score_gt a c = Ok true.
Proof.
  revert b c; induction a as [|x a IH]; intros [|y b] [|z c]; simpl;
    try discriminate; auto.
  intros Hab Hbc. injection Hab as Hxy Hab. injection Hbc as Hyz Hbc.
  destruct (item_eqb x y) eqn:Exy.
  { apply item_eqb_eq in Exy. subst y. destruct (item_eqb x z); [now apply IH|auto]. }
  destruct (item_eqb y z) eqn:Eyz.
  { apply item_eqb_eq in Eyz. subst z. rewrite Exy. auto. }
  intros H1 H2.
  destruct x as [x|x], y as [y|y], z as [z|z]; simpl in *; try discriminate.
  - injection H1 as H1. injection H2 as H2.
    destruct (Z.gtb_spec x y); [|discriminate].
    destruct (Z.gtb_spec y z); [|discriminate].
    destruct (x =? z) eqn:E; [apply Z.eqb_eq in E; lia|].
    f_equal. destruct (Z.gtb_spec x z); [reflexivity|lia].
  - injection H1 as H1. injection H2 as H2.
    pose proof (ints_gt_trans _ _ _ H1 H2) as H3.
    destruct (ints_eqb x z) eqn:E.
    + apply ints_eqb_eq in E. subst z. now rewrite ints_gt_irrefl in H3.
    + now rewrite H3.
Qed.

(** ** Sorting and counting ranks *)

Lemma mult_insert_desc (x : Z) (l : list Z) (r : Z) :
  mult (insert_desc x l) r = mult (x :: l) r.
Proof.
  induction l as [|y l IH]; simpl; [reflexivity|].
  destruct (y >? x); simpl; [|reflexivity].
  simpl in IH. rewrite IH.
  destruct (y =? r), (x =? r); reflexivity.
Qed.

Lemma mult_sorted_desc (l : list Z) (r : Z) : mult (sorted_desc l) r = mult l r.
Proof.
  induction l as [|x l IH]; simpl; [reflexivity|].
  fold (sorted_desc l). rewrite mult_insert_desc. simpl. now rewrite IH.
Qed.

Lemma length_insert_desc (x : Z) (l : list Z) :
  List.length (insert_desc x l) = S (List.length l).
Proof.
  induction l as [|y l IH]; simpl; [reflexivity|].
  destruct (y >? x); simpl; [now rewrite IH|reflexivity].
Qed.

Lemma length_sorted_desc (l : list Z) : List.length (sorted_desc l) = List.length l.
Proof.
  induction l as [|x l IH]; simpl; [reflexivity|].
  fold (sorted_desc l). now rewrite length_insert_desc, IH.
Qed.

Lemma descending_cons (x : Z) (l : list Z) :
  descending (x :: l) = true <->
  (match l with [] => True | y :: _ => y <= x end) /\ descending l = true.
Proof.
  destruct l as [|y l]; simpl.
  - tauto.
  - rewrite andb_true_iff, Z.leb_le. tauto.
Qed.

Lemma descending_insert_desc (x : Z) (l : list Z) :
  descending l = true -> descending (insert_desc x l) = true.
Proof.
  induction l as [|y l IH]; intros H; [reflexivity|].
  apply descending_cons in H. destruct H as [Hh Ht].
  cbn [insert_desc]. destruct (Z.gtb_spec y x) as [G|G].
  - apply descending_cons. split; [|now apply IH].
    destruct l as [|z l]; cbn [insert_desc]; [lia|].
    destruct (z >? x); lia.
  - apply descending_cons. split; [lia|].
    apply descending_cons. now split.
Qed.

Lemma descending_sorted_desc (l : list Z) : descending (sorted_desc l) = true.
Proof.
  induction l as [|x l IH]; [reflexivity|].
  cbn [sorted_desc fold_right]. fold (sorted_desc l).
  now apply descending_insert_desc.
Qed.

Lemma in_insert_desc (x y : Z) (l : list Z) :
  In y (insert_desc x l) <-> y = x \/ In y l.
Proof.
  induction l as [|z l IH]; simpl; [intuition congruence|].
  destruct (z >? x); simpl; rewrite ?IH; intuition congruence.
Qed.

Lemma in_sorted_desc (y : Z) (l : list Z) : In y (sorted_desc l) <-> In y l.
Proof.
  induction l as [|x l IH]; simpl; [tauto|].
  fold (sorted_desc l). rewrite in_insert_desc, IH. intuition congruence.
Qed.

Lemma in_lists_over (dom : list Z) (l : list Z) :
  (forall x, In x l -> In x dom) -> In l (lists_over dom (List.length l)).
Proof.
  induction l as [|x l IH]; intros H; simpl; [auto|].
  apply in_flat_map. exists x. split; [apply H; now left|].
  apply in_map. apply IH. intros y Hy. apply H. now right.
Qed.

Lemma in_descending_lists (l : list Z) :
  (forall x, In x l -> In x all_ranks) ->
  In (sorted_desc l) (descending_lists (List.length l)).
Proof.
  intros H. unfold descending_lists. apply filter_In. split.
  - rewrite <- (length_sorted_desc l). apply in_lists_over.
    intros x Hx. apply H. now apply in_sorted_desc.
  - apply descending_sorted_desc.
Qed.

(** ** The law depends on the ranks only through their multiplicities *)

Lemma forallb_pointwise {A : Type} (f g : A -> bool) (l : list A) :
  (forall x, f x = g x) -> forallb f l = forallb g l.
Proof. intros H. induction l as [|x l IH]; simpl; [reflexivity|]. now rewrite H, IH. Qed.

Lemma in_mult_pos (rs : list Z) (r : Z) : In r rs <-> (0 < mult rs r)%nat.
Proof.
  induction rs as [|x rs IH]; simpl; [split; [tauto|lia]|].
  destruct (Z.eqb_spec x r) as [->|N]; split; intros H; try lia; auto.
  - apply IH. destruct H as [H|H]; [contradiction|exact H].
  - right. now apply IH.
Qed.

Section SameRanks.

Variables rs rs' : list Z.
Hypothesis same_mult : forall r, mult rs r = mult rs' r.

Lemma straight_to_same (h : Z) : straight_to rs h = straight_to rs' h.
Proof. unfold straight_to. simpl. now rewrite !same_mult. Qed.

Lemma has_straight_same : has_straight rs = has_straight rs'.
Proof. unfold has_straight. simpl. now rewrite !straight_to_same. Qed.

Lemma forallb_same_mult (f : Z -> bool) : forallb f rs = forallb f rs'.
Proof.
  apply eq_true_iff_eq. rewrite !forallb_forall. split; intros H x Hx; apply H.
  - apply in_mult_pos. rewrite same_mult. now apply in_mult_pos.
  - apply in_mult_pos. rewrite <- same_mult. now apply in_mult_pos.
Qed.

Lemma desc_of_same (l : list Z) : desc_of l rs = desc_of l rs'.
Proof.
  unfold desc_of. f_equal. rewrite !forallb_app. f_equal.
  - apply forallb_pointwise. intros r. now rewrite same_mult.
  - rewrite forallb_same_mult. apply forallb_pointwise. intros r. now rewrite same_mult.
Qed.

Lemma admissible_same (flush : bool) : admissible rs flush = admissible rs' flush.
Proof. unfold admissible. apply forallb_pointwise. intros r. now rewrite same_mult. Qed.

End SameRanks.

Lemma mult_others (rs : list Z) (t r : Z) :
  mult (others rs t) r = if r =? t then 0%nat else mult rs r.
Proof.
  induction rs as [|x rs IH]; simpl; [now destruct (r =? t)|].
  destruct (Z.eqb_spec x t) as [->|N]; simpl.
  - rewrite IH. rewrite (Z.eqb_sym t r). now destruct (r =? t).
  - rewrite IH. destruct (Z.eqb_spec x r) as [->|N']; [|reflexivity].
    destruct (Z.eqb_spec r t); [contradiction|reflexivity].
Qed.

Lemma length_others (rs : list Z) (t : Z) :
  (List.length (others rs t) + mult rs t = List.length rs)%nat.
Proof.
  induction rs as [|x rs IH]; simpl; [reflexivity|].
  destruct (x =? t); simpl; lia.
Qed.

Lemma canonical_same (rs rs' : list Z) (flush : bool) (v : score) :
  (forall r, mult rs r = mult rs' r) ->
  canonical rs flush v = canonical rs' flush v.
Proof.
  intros Hm.
  assert (Ho : forall t l, desc_of l (others rs t) = desc_of l (others rs' t)).
  { intros t l. apply desc_of_same.
    intros r. rewrite !mult_others. now rewrite Hm. }
  unfold canonical.
  repeat match goal with
         | |- context [match ?x with _ => _ end] => destruct x; try reflexivity
         end;
    rewrite ?Hm, ?Ho, ?(straight_to_same rs rs' Hm), ?(has_straight_same rs rs' Hm),
      ?(desc_of_same rs rs' Hm); reflexivity.
Qed.

(** ** Card tokens of the deck *)

Lemma full_deck_tokens :
  forallb (fun c =>
             match rank_of c, suit_of c with
             | Ok r, Ok _ => existsb (Z.eqb r) all_ranks
             | _, _ => false
             end) full_deck = true.
Proof. vm_compute. reflexivity. Qed.

Lemma rank_of_deck (c : card) :
  In c full_deck -> rank_of c = Ok (card_rank c) /\ In (card_rank c) all_ranks.
Proof.
  intros H. pose proof (proj1 (forallb_forall _ _) full_deck_tokens c H) as F.
  cbv beta in F.
  unfold card_rank. destruct (rank_of c) as [r|e]; [|discriminate].
  destruct (suit_of c); [|discriminate].
  split; [reflexivity|].
  apply existsb_exists in F. destruct F as [x [Hx E]].
  apply Z.eqb_eq in E. now subst.
Qed.

Lemma suit_of_deck (c : card) : In c full_deck -> suit_of c = Ok (card_suit c).
Proof.
  intros H. pose proof (proj1 (forallb_forall _ _) full_deck_tokens c H) as F.
  cbv beta in F.
  unfold card_suit. destruct (rank_of c); [|discriminate].
  now destruct (suit_of c).
Qed.

Lemma mapM_total {A B : Type} (f : A -> result B) (g : A -> B) (l : list A) :
  (forall x, In x l -> f x = Ok (g x)) -> mapM f l = Ok (map g l).
Proof.
  induction l as [|x l IH]; intros H; simpl; [reflexivity|].
  rewrite (H x (or_introl eq_refl)). simpl.
  rewrite IH; [reflexivity|]. intros y Hy. apply H. now right.
Qed.

Lemma eval5_deck (cs : list card) :
  incl cs full_deck ->
  eval5 cs = classify (sorted_desc (map card_rank cs))
                      (List.length (set_of_chars (map card_suit cs)) =? 1)%nat.
Proof.
  intros H. unfold eval5.
  rewrite (mapM_total rank_of card_rank).
  2:{ intros c Hc. now apply rank_of_deck, H. }
  simpl. rewrite (mapM_total suit_of card_suit).
  2:{ intros c Hc. now apply suit_of_deck, H. }
  reflexivity.
Qed.

Lemma ranks_in_all_ranks (cs : list card) :
  incl cs full_deck -> forall x, In x (map card_rank cs) -> In x all_ranks.
Proof.
  intros H x Hx. apply in_map_iff in Hx. destruct Hx as [c [<- Hc]].
  now apply rank_of_deck, H.
Qed.

(** [len(set(suits)) == 1] says that all suits are the first one. *)
Lemma nodup_all_equal (s0 : ascii) (l : list ascii) :
  (forall s, In s l -> s = s0) -> nodup ascii_dec (s0 :: l) = [s0].
Proof.
  induction l as [|s l IH]; intros H; [reflexivity|].
  assert (s = s0) by (apply H; now left). subst s.
  change (nodup ascii_dec (s0 :: s0 :: l))
    with (if in_dec ascii_dec s0 (s0 :: l) then nodup ascii_dec (s0 :: l)
          else s0 :: nodup ascii_dec (s0 :: l)).
  destruct (in_dec ascii_dec s0 (s0 :: l)) as [_|N].
  - apply IH. intros s Hs. apply H. now right.
  - exfalso. apply N. now left.
Qed.

Lemma set_of_chars_single (s0 : ascii) (l : list ascii) :
  (List.length (set_of_chars (s0 :: l)) =? 1)%nat
  = forallb (fun s => Ascii.eqb s s0) l.
Proof.
  destruct (forallb (fun s => Ascii.eqb s s0) l) eqn:F.
  - unfold set_of_chars. rewrite nodup_all_equal; [reflexivity|].
    intros s Hs. apply (proj1 (forallb_forall _ _) F) in Hs.
    now apply Ascii.eqb_eq in Hs.
  - apply Nat.eqb_neq. intros L.
    assert (A : forallb (fun s => Ascii.eqb s s0) l = true); [|congruence].
    apply forallb_forall. intros s Hs. apply Ascii.eqb_eq.
    unfold set_of_chars in L.
    destruct (nodup ascii_dec (s0 :: l)) as [|z [|z' t]] eqn:N; try discriminate.
    assert (I0 : In s0 (nodup ascii_dec (s0 :: l))) by (apply nodup_In; now left).
    assert (I1 : In s (nodup ascii_dec (s0 :: l))) by (apply nodup_In; now right).
    rewrite N in I0, I1. simpl in I0, I1. intuition congruence.
Qed.

Lemma is_flush_one_suit (cs : list card) :
  cs <> [] ->
  (List.length (set_of_chars (map card_suit cs)) =? 1)%nat = one_suit cs.
Proof.
  destruct cs as [|c cs]; [congruence|]. intros _.
  simpl map. rewrite set_of_chars_single. unfold one_suit.
  induction cs as [|c' cs IH]; simpl; [reflexivity|]. now rewrite IH.
Qed.

(** ** Distinct cards: how often a rank can occur *)

Lemma mult_map_rank (cs : list card) (r : Z) :
  mult (map card_rank cs) r
  = List.length (filter (fun c => card_rank c =? r) cs).
Proof.
  induction cs as [|c cs IH]; simpl; [reflexivity|].
  destruct (card_rank c =? r); simpl; now rewrite IH.
Qed.

Lemma deck_rank_four :
  forallb (fun r => (List.length (filter (fun c => Z.eqb (card_rank c) r) full_deck) <=? 4)%nat)
          all_ranks = true.
Proof. vm_compute. reflexivity. Qed.

Lemma deck_rank_suit_one :
  forallb (fun c0 =>
    forallb (fun r =>
      (List.length (filter (fun c => Z.eqb (card_rank c) r
                                     && Ascii.eqb (card_suit c) (card_suit c0))
                           full_deck) <=? 1)%nat) all_ranks) full_deck = true.
Proof. vm_compute. reflexivity. Qed.

Lemma filter_length_le_deck (f : card -> bool) (cs : list card) :
  NoDup cs -> incl cs full_deck ->
  (List.length (filter f cs) <= List.length (filter f full_deck))%nat.
Proof.
  intros N I. apply NoDup_incl_length.
  - now apply NoDup_filter.
  - intros c Hc. apply filter_In in Hc. apply filter_In. destruct Hc. auto.
Qed.

Lemma filter_pointwise_in {A : Type} (f g : A -> bool) (l : list A) :
  (forall x, In x l -> f x = g x) -> filter f l = filter g l.
Proof.
  induction l as [|x l IH]; intros H; simpl; [reflexivity|].
  rewrite (H x (or_introl eq_refl)), IH; [reflexivity|].
  intros y Hy. apply H. now right.
Qed.

Lemma hand_admissible (cs : list card) :
  cs <> [] -> NoDup cs -> incl cs full_deck ->
  admissible (map card_rank cs) (one_suit cs) = true.
Proof.
  intros NE N I. unfold admissible. apply forallb_forall. intros r Hr.
  apply Nat.leb_le. rewrite mult_map_rank.
  destruct (one_suit cs) eqn:F.
  - destruct cs as [|c0 cs']; [congruence|].
    rewrite (filter_pointwise_in _
               (fun c => (card_rank c =? r) && Ascii.eqb (card_suit c) (card_suit c0))).
    + etransitivity; [apply filter_length_le_deck; assumption|].
      pose proof (proj1 (forallb_forall _ _) deck_rank_suit_one c0
                        (I c0 (or_introl eq_refl))) as H1.
      pose proof (proj1 (forallb_forall _ _) H1 r Hr) as H2.
      now apply Nat.leb_le in H2.
    + intros c [<-|Hc].
      * now rewrite (proj2 (Ascii.eqb_eq _ _) eq_refl), andb_true_r.
      * simpl in F. rewrite (proj1 (forallb_forall _ _) F c Hc).
        now rewrite andb_true_r.
  - etransitivity; [apply filter_length_le_deck; assumption|].
    pose proof (proj1 (forallb_forall _ _) deck_rank_four r Hr) as H.
    now apply Nat.leb_le in H.
Qed.

(** ** Scores in the evaluator's layout are totally ordered *)

Ltac shape_inv H :=
  match type of H with
  | shaped ?v = true =>
      destruct v as [|[?|?] [|[?|?] [|[?|?] [|[?|?] [|? ?]]]]];
      simpl in H; try discriminate H
  end.

Lemma shaped_head (v : score) :
  shaped v = true -> v = PInt (category v) :: payload v.
Proof. intros H. shape_inv H; reflexivity. Qed.

Lemma shaped_category_range (v : score) :
  shaped v = true -> 0 <= category v <= 8.
Proof.
  intros H. shape_inv H; simpl;
    rewrite ?orb_true_iff, ?Z.eqb_eq in H; lia.
Qed.

Lemma shaped_same_kinds (a b : score) :
  shaped a = true -> shaped b = true -> category a = category b ->
  kinds a = kinds b.
Proof.
  intros Ha Hb E. shape_inv Ha; shape_inv Hb; simpl in E; subst;
    rewrite ?orb_true_iff, ?Z.eqb_eq in *; try reflexivity; exfalso; lia.
Qed.

Lemma score_gt_head (ca cb : Z) (ra rb : list item) :
  ca <> cb -> score_gt (PInt ca :: ra) (PInt cb :: rb) = Ok (ca >? cb).
Proof. intros N. simpl. now destruct (Z.eqb_spec ca cb). Qed.

Lemma shaped_gt_defined (a b : score) :
  shaped a = true -> shaped b = true -> exists r, score_gt a b = Ok r.
Proof.
  intros Ha Hb. destruct (Z.eq_dec (category a) (category b)) as [E|N].
  - apply score_gt_defined. now apply shaped_same_kinds.
  - rewrite (shaped_head a Ha), (shaped_head b Hb).
    rewrite score_gt_head by assumption. eauto.
Qed.

Lemma shaped_gt_category (a b : score) :
  shaped a = true -> shaped b = true -> category a < category b ->
  score_gt b a = Ok true /\ score_gt a b = Ok false.
Proof.
  intros Ha Hb L. rewrite (shaped_head a Ha), (shaped_head b Hb).
  rewrite !score_gt_head by lia. split; f_equal.
  - destruct (Z.gtb_spec (category b) (category a)); [reflexivity|lia].
  - destruct (Z.gtb_spec (category a) (category b)); [lia|reflexivity].
Qed.

Lemma score_gt_category_ge (a b : score) :
  shaped a = true -> shaped b = true -> score_gt a b = Ok true ->
  category b <= category a.
Proof.
  intros Ha Hb G. destruct (Z_lt_le_dec (category a) (category b)) as [L|L]; [|exact L].
  destruct (shaped_gt_category a b Ha Hb L) as [_ F]. congruence.
Qed.

Lemma shaped_gt_total (a b : score) :
  shaped a = true -> shaped b = true ->
  a = b \/ score_gt a b = Ok true \/ score_gt b a = Ok true.
Proof.
  intros Ha Hb. destruct (Z.lt_trichotomy (category a) (category b)) as [L|[E|L]].
  - right; right. now apply shaped_gt_category.
  - apply score_gt_total. now apply shaped_same_kinds.
  - right; left. now apply shaped_gt_category.
Qed.

Lemma shaped_gt_trans (a b c : score) :
  shaped a = true -> shaped b = true -> shaped c = true ->
  score_gt a b = Ok true -> score_gt b c = Ok true -> score_gt a c = Ok true.
Proof.
  intros Ha Hb Hc G1 G2.
  pose proof (score_gt_category_ge a b Ha Hb G1) as L1.
  pose proof (score_gt_category_ge b c Hb Hc G2) as L2.
  destruct (Z.eq_dec (category a) (category c)) as [E|N].
  - apply (score_gt_trans a b c); auto; apply shaped_same_kinds; auto; lia.
  - apply shaped_gt_category; auto. lia.
Qed.

(** ** The law allows one score only *)

Lemma descending_head_max (x : Z) (l : list Z) :
  descending (x :: l) = true -> forall y, In y l -> y <= x.
Proof.
  revert x. induction l as [|z l IH]; intros x H y Hy; [destruct Hy|].
  apply descending_cons in H. destruct H as [Hzx Hd].
  destruct Hy as [<-|Hy]; [exact Hzx|].
  specialize (IH z Hd y Hy). lia.
Qed.

Lemma mult_zero_not_in (rs : list Z) (r : Z) : ~ In r rs -> mult rs r = 0%nat.
Proof.
  intros N. destruct (mult rs r) eqn:E; [reflexivity|].
  exfalso. apply N. apply in_mult_pos. lia.
Qed.

Lemma descending_unique (l l' : list Z) :
  descending l = true -> descending l' = true ->
  (forall r, mult l r = mult l' r) -> l = l'.
Proof.
  revert l'. induction l as [|x l IH]; intros [|x' l'] D D' M.
  - reflexivity.
  - specialize (M x'). simpl in M. rewrite Z.eqb_refl in M. discriminate.
  - specialize (M x). simpl in M. rewrite Z.eqb_refl in M. discriminate.
  - assert (Hx : x <= x').
    { assert (I : In x (x' :: l')).
      { apply in_mult_pos. rewrite <- M. simpl. rewrite Z.eqb_refl. lia. }
      destruct I as [->|I]; [lia|]. now apply (descending_head_max x' l'). }
    assert (Hx' : x' <= x).
    { assert (I : In x' (x :: l)).
      { apply in_mult_pos. rewrite M. simpl. rewrite Z.eqb_refl. lia. }
      destruct I as [->|I]; [lia|]. now apply (descending_head_max x l). }
    assert (x = x') by lia. subst x'. f_equal.
    apply IH.
    + apply descending_cons in D. tauto.
    + apply descending_cons in D'. tauto.
    + intros r. specialize (M r). simpl in M. destruct (x =? r); lia.
Qed.

Lemma desc_of_sorted (l rs : list Z) : desc_of l rs = true -> l = sorted_desc rs.
Proof.
  unfold desc_of. intros H. apply andb_true_iff in H. destruct H as [D F].
  apply descending_unique; [exact D|apply descending_sorted_desc|].
  intros r. rewrite mult_sorted_desc.
  destruct (in_dec Z.eq_dec r (l ++ rs)) as [I|N].
  - apply (proj1 (forallb_forall _ _) F) in I. now apply Nat.eqb_eq in I.
  - rewrite !mult_zero_not_in; [reflexivity| |]; intros I; apply N, in_app_iff; auto.
Qed.

Lemma mult_eqb_in (rs : list Z) (r : Z) (n : nat) :
  (mult rs r =? S n)%nat = true -> In r (set_of_ints rs).
Proof.
  intros H. apply Nat.eqb_eq in H. apply nodup_In, in_mult_pos. lia.
Qed.

Lemma straight_to_in (rs : list Z) (h : Z) :
  straight_to rs h = true -> In h (set_of_ints rs).
Proof.
  unfold straight_to. intros H. apply nodup_In.
  apply orb_true_iff in H. destruct H as [H|H].
  - simpl in H. apply andb_true_iff in H. destruct H as [H _].
    apply in_mult_pos. now apply Nat.ltb_lt.
  - apply andb_true_iff in H. destruct H as [E H]. apply Z.eqb_eq in E. subst h.
    simpl in H. rewrite !andb_true_iff in H.
    apply in_mult_pos. apply Nat.ltb_lt. tauto.
Qed.

Ltac law_facts :=
  repeat match goal with
         | H : _ && _ = true |- _ => apply andb_true_iff in H; destruct H
         | H : (mult _ _ =? S _)%nat = true |- _ => apply mult_eqb_in in H
         | H : straight_to _ _ = true |- _ => apply straight_to_in in H
         | H : desc_of _ _ = true |- _ => apply desc_of_sorted in H; subst
         end.

Ltac pick_item :=
  simpl; first [left; reflexivity | right; left; reflexivity].

Ltac in_candidates :=
  unfold candidates; cbv zeta; rewrite !in_app_iff, !in_flat_map;
  first
    [ left; eexists; split; [|pick_item]; eassumption
    | right; left; eexists; split;
      [|apply in_flat_map; eexists; split; [|pick_item]]; eassumption
    | right; right; left; pick_item
    | right; right; right; left; eexists; split; [|pick_item]; eassumption
    | right; right; right; right; eexists; split;
      [|apply in_flat_map; eexists; split;
        [|apply in_map_iff; eexists; split; [reflexivity|]]]; eassumption ].

Lemma canonical_candidate (rs : list Z) (flush : bool) (v : score) :
  canonical rs flush v = true -> In v (candidates rs).
Proof.
  unfold canonical. intros H.
  repeat match type of H with
         | context [match ?x with _ => _ end] => destruct x; try discriminate H
         end;
    law_facts; in_candidates.
Qed.

(** ** The classifier on every list of five ranks *)

Lemma law_checked :
  forallb (fun rs => law_holds rs true && law_holds rs false) (descending_lists 5) = true.
Proof. vm_compute. reflexivity. Qed.

Lemma short_hands_checked :
  forallb (fun rs => scores_well rs true && scores_well rs false)
          (descending_lists 2 ++ descending_lists 3) = true.
Proof. vm_compute. reflexivity. Qed.

Lemma law_decided :
  forallb (fun rs => law_decides rs true && law_decides rs false) (descending_lists 5)
  = true.
Proof. vm_compute. reflexivity. Qed.

Lemma classify_law (rs : list Z) (flush : bool) :
  List.length rs = 5%nat -> (forall x, In x rs -> In x all_ranks) ->
  exists v, classify (sorted_desc rs) flush = Ok v /\ shaped v = true
            /\ (admissible rs flush = true ->
                canonical rs flush v = true
                /\ forall v', canonical rs flush v' = true -> v' = v).
Proof.
  intros L I. pose proof (in_descending_lists rs I) as M. rewrite L in M.
  pose proof (proj1 (forallb_forall _ _) law_checked _ M) as C. cbv beta in C.
  pose proof (proj1 (forallb_forall _ _) law_decided _ M) as U. cbv beta in U.
  apply andb_true_iff in C. apply andb_true_iff in U.
  assert (C' : law_holds (sorted_desc rs) flush = true)
    by (destruct flush; tauto).
  assert (U' : law_decides (sorted_desc rs) flush = true)
    by (destruct flush; tauto).
  unfold law_holds in C'. unfold law_decides in U'.
  destruct (classify (sorted_desc rs) flush) as [v|e]; [|discriminate].
  apply andb_true_iff in C'. destruct C' as [S A].
  exists v. split; [reflexivity|]. split; [exact S|].
  intros Adm.
  rewrite (admissible_same (sorted_desc rs) rs (mult_sorted_desc rs)) in A, U'.
  rewrite Adm in A, U'. simpl in A, U'.
  assert (Same : forall w, canonical (sorted_desc rs) flush w = canonical rs flush w)
    by (intros w; apply canonical_same, mult_sorted_desc).
  split; [now rewrite <- Same|].
  intros v' Hv'. rewrite <- Same in Hv'.
  pose proof (proj1 (forallb_forall _ _) U' v' (canonical_candidate _ _ _ Hv')) as E.
  cbv beta in E. rewrite Hv' in E. simpl in E. now apply score_eqb_eq.
Qed.

Lemma classify_short (rs : list Z) (flush : bool) :
  List.length rs = 2%nat \/ List.length rs = 3%nat ->
  (forall x, In x rs -> In x all_ranks) ->
  exists v, classify (sorted_desc rs) flush = Ok v /\ shaped v = true.
Proof.
  intros L I. pose proof (in_descending_lists rs I) as M.
  assert (M' : In (sorted_desc rs) (descending_lists 2 ++ descending_lists 3)).
  { apply in_or_app. destruct L as [L|L]; rewrite L in M; [left|right]; exact M. }
  pose proof (proj1 (forallb_forall _ _) short_hands_checked _ M') as C.
  cbv beta in C. apply andb_true_iff in C.
  assert (C' : scores_well (sorted_desc rs) flush = true)
    by (destruct flush; tauto).
  unfold scores_well in C'.
  destruct (classify (sorted_desc rs) flush) as [v|e]; [|discriminate].
  eauto.
Qed.

(** Five cards of the deck always get a score, in the evaluator's layout. *)
Lemma eval5_total (cs : list card) :
  List.length cs = 5%nat -> incl cs full_deck ->
  exists v, eval5 cs = Ok v /\ shaped v = true.
Proof.
  intros L I. rewrite (eval5_deck cs I).
  destruct (classify_law (map card_rank cs)
              (List.length (set_of_chars (map card_suit cs)) =? 1)%nat)
    as [v [E [S _]]].
  - now rewrite length_map.
  - now apply ranks_in_all_ranks.
  - eauto.
Qed.

Lemma eval5_hand5 (cs : list card) :
  hand5 cs ->
  exists v, eval5 cs = Ok v /\ shaped v = true
            /\ canonical (map card_rank cs) (one_suit cs) v = true
            /\ forall v', canonical (map card_rank cs) (one_suit cs) v' = true -> v' = v.
Proof.
  intros [L [N I]]. rewrite (eval5_deck cs I).
  assert (NE : cs <> []) by (destruct cs; [discriminate|congruence]).
  rewrite (is_flush_one_suit cs NE).
  destruct (classify_law (map card_rank cs) (one_suit cs)) as [v [E [S C]]].
  - now rewrite length_map.
  - now apply ranks_in_all_ranks.
  - exists v. split; [exact E|]. split; [exact S|].
    apply C. now apply hand_admissible.
Qed.

(** C1.  Every hand of five distinct cards gets a score that follows the
    ranking law: its category and tie-break payload are those the law
    prescribes for the hand's ranks and suits (straight flush 8 with the
    straight's high card, four of a kind 7 with quad rank and kicker, full
    house 6 with trips rank and pair rank, flush 5 with the ranks descending,
    straight 4 with its high card, three of a kind 3 with trips rank and
    kickers descending, two pair 2 with higher pair, lower pair and kicker,
    one pair 1 with pair rank and kickers descending, high card 0 with the
    ranks descending), and no other score satisfies the law for that hand.
    On the scores of any three hands the comparison never raises, a higher
    category wins, exactly one of less, equal and greater holds, equality of
    scores is identity of category and payload, and the order is
    transitive. *)
Theorem eval5_canonical_law (h1 h2 h3 : list card) :
  hand5 h1 -> hand5 h2 -> hand5 h3 ->
  exists v1 v2 v3,
    eval5 h1 = Ok v1 /\ eval5 h2 = Ok v2 /\ eval5 h3 = Ok v3
    /\ canonical (map card_rank h1) (one_suit h1) v1 = true
    /\ (forall v, canonical (map card_rank h1) (one_suit h1) v = true -> v = v1)
    /\ 0 <= category v1 <= 8
    /\ (exists r, score_gt v1 v2 = Ok r)
    /\ (category v1 < category v2 -> score_gt v2 v1 = Ok true)
    /\ (v1 = v2 \/ score_gt v1 v2 = Ok true \/ score_gt v2 v1 = Ok true)
    /\ (score_gt v1 v2 = Ok true -> score_gt v2 v1 = Ok false /\ v1 <> v2)
    /\ (score_eqb v1 v2 = true <->
        category v1 = category v2 /\ payload v1 = payload v2)
    /\ (score_gt v1 v2 = Ok true -> score_gt v2 v3 = Ok true ->
        score_gt v1 v3 = Ok true).
Proof.
  intros H1 H2 H3.
  destruct (eval5_hand5 h1 H1) as [v1 [E1 [S1 [C1 U1]]]].
  destruct (eval5_hand5 h2 H2) as [v2 [E2 [S2 _]]].
  destruct (eval5_hand5 h3 H3) as [v3 [E3 [S3 _]]].
  exists v1, v2, v3. repeat split; auto.
  - now apply shaped_category_range.
  - now apply shaped_category_range.
  - now apply shaped_gt_defined.
  - intros L. now apply shaped_gt_category.
  - now apply shaped_gt_total.
  - now apply score_gt_asym.
  - intros E. subst v2. rewrite score_gt_irrefl in H. discriminate.
  - apply score_eqb_eq in H. now subst.
  - apply score_eqb_eq in H. now subst.
  - intros [Ec Ep]. apply score_eqb_eq.
    rewrite (shaped_head v1 S1), (shaped_head v2 S2). congruence.
  - now apply shaped_gt_trans.
Qed.

Lemma eval5_canonical_law_witness :
  hand5 ["8s"; "8d"; "8c"; "2h"; "2s"] /\
  hand5 ["Ah"; "Kh"; "Qh"; "Jh"; "Th"] /\
  hand5 ["As"; "2d"; "3c"; "4h"; "5s"] /\
  exists v1 v2 v3,
    eval5 ["8s"; "8d"; "8c"; "2h"; "2s"] = Ok v1
    /\ eval5 ["Ah"; "Kh"; "Qh"; "Jh"; "Th"] = Ok v2
    /\ eval5 ["As"; "2d"; "3c"; "4h"; "5s"] = Ok v3
    /\ canonical [8; 8; 8; 2; 2] false v1 = true
    /\ score_gt v2 v1 = Ok true.
Proof.
  assert (D : forall cs, List.length cs = 5%nat ->
                         NoDup cs -> incl cs full_deck -> hand5 cs)
    by (intros cs L N I; repeat split; assumption).
  assert (A : hand5 ["8s"; "8d"; "8c"; "2h"; "2s"]).
  { apply D; [reflexivity| |].
    - repeat constructor; simpl; intuition discriminate.
    - intros c Hc. simpl in Hc. vm_compute. intuition. }
  assert (B : hand5 ["Ah"; "Kh"; "Qh"; "Jh"; "Th"]).
  { apply D; [reflexivity| |].
    - repeat constructor; simpl; intuition discriminate.
    - intros c Hc. simpl in Hc. vm_compute. intuition. }
  assert (C : hand5 ["As"; "2d"; "3c"; "4h"; "5s"]).
  { apply D; [reflexivity| |].
    - repeat constructor; simpl; intuition discriminate.
    - intros c Hc. simpl in Hc. vm_compute. intuition. }
  split; [exact A|]. split; [exact B|]. split; [exact C|].
  destruct (eval5_canonical_law _ _ _ A B C)
    as [v1 [v2 [v3 [E1 [E2 [E3 [K [_ [_ [_ [G _]]]]]]]]]]].
  exists v1, v2, v3. repeat split; try assumption.
  apply G. vm_compute in E1, E2. injection E1 as <-. injection E2 as <-.
  reflexivity.
Defined.

(** ** The best-hand search *)

Lemma score_le_refl (a : score) : score_le a a.
Proof. apply score_gt_irrefl. Qed.

Lemma score_le_trans (a b c : score) :
  shaped a = true -> shaped b = true -> shaped c = true ->
  score_le a b -> score_le b c -> score_le a c.
Proof.
  unfold score_le. intros Sa Sb Sc Hab Hbc.
  destruct (shaped_gt_defined a c Sa Sc) as [[|] G]; [exfalso|exact G].
  destruct (shaped_gt_total a b Sa Sb) as [->|[H|H]]; try congruence.
  pose proof (shaped_gt_trans b a c Sb Sa Sc H G). congruence.
Qed.

Lemma score_gt_le (a b : score) : score_gt a b = Ok true -> score_le b a.
Proof. apply score_gt_asym. Qed.

Create HintDb scores.
#[local] Hint Resolve score_le_refl score_gt_le : scores.

Lemma score_le_cases (a b : score) :
  shaped a = true -> shaped b = true -> score_le a b ->
  a = b \/ score_gt b a = Ok true.
Proof.
  unfold score_le. intros Sa Sb H.
  destruct (shaped_gt_total a b Sa Sb) as [->|[G|G]]; auto. congruence.
Qed.

Lemma combinations_length {A : Type} (l : list A) (k : nat) :
  List.length (combinations l k) = binom (List.length l) k.
Proof.
  revert k; induction l as [|x l IH]; intros [|k]; simpl; try reflexivity.
  now rewrite length_app, length_map, !IH.
Qed.

Lemma subseq_nil_l {A : Type} (l : list A) : subseq [] l.
Proof. induction l as [|x l IH]; [constructor|now constructor]. Qed.

Lemma combinations_subseq {A : Type} (l h : list A) (k : nat) :
  In h (combinations l k) <-> subseq h l /\ List.length h = k.
Proof.
  revert h k; induction l as [|x l IH]; intros h [|k]; simpl.
  - split.
    + intros [<-|[]]. split; [constructor|reflexivity].
    + intros [_ L]. destruct h; [now left|discriminate].
  - split; [tauto|]. intros [S L]. inversion S; subst. discriminate.
  - split.
    + intros [<-|[]]. split; [apply subseq_nil_l|reflexivity].
    + intros [_ L]. destruct h; [now left|discriminate].
  - rewrite in_app_iff, in_map_iff. split.
    + intros [[h' [<- Hh]]|Hh].
      * apply IH in Hh. destruct Hh as [S L]. split; [now constructor|simpl; lia].
      * apply IH in Hh. destruct Hh as [S L]. split; [now constructor|exact L].
    + intros [S L]. inversion S; subst.
      * left. exists h0. split; [reflexivity|]. apply IH. split; [assumption|].
        simpl in L. lia.
      * right. apply IH. now split.
Qed.

Lemma subseq_incl {A : Type} (h l : list A) : subseq h l -> incl h l.
Proof.
  induction 1 as [|x h l S IH|x h l S IH]; intros y Hy.
  - exact Hy.
  - destruct Hy as [<-|Hy]; [now left|right; now apply IH].
  - right. now apply IH.
Qed.

Lemma getitem_app_length {A : Type} (pre l : list A) (x : A) :
  getitem (pre ++ x :: l) (List.length pre) = Ok x.
Proof.
  unfold getitem. rewrite nth_error_app2 by lia.
  now rewrite Nat.sub_diag.
Qed.

(** Index tuples and the hands they select. *)
Lemma combinations_range (pre l : list card) (k : nat) :
  Forall2 (fun idxs hand => mapM (getitem (pre ++ l)) idxs = Ok hand)
          (combinations (seq (List.length pre) (List.length l)) k)
          (combinations l k).
Proof.
  revert pre k; induction l as [|x l IH]; intros pre [|k]; simpl;
    try (repeat constructor; fail).
  apply Forall2_app.
  - specialize (IH (pre ++ [x]) k).
    rewrite <- app_assoc, length_app in IH. simpl in IH.
    rewrite Nat.add_1_r in IH.
    induction IH as [|idxs hand ids hs R _ IHF]; simpl; constructor; [|exact IHF].
    simpl. rewrite getitem_app_length. simpl. now rewrite R.
  - specialize (IH (pre ++ [x]) (S k)).
    rewrite <- app_assoc, length_app in IH. simpl in IH.
    now rewrite Nat.add_1_r in IH.
Qed.

Lemma eval7_loop_hands (cards : list card) (combos : list (list nat))
    (hands : list (list card)) (best : option score) :
  Forall2 (fun idxs hand => mapM (getitem cards) idxs = Ok hand) combos hands ->
  eval7_loop cards combos best = best_of_hands hands best.
Proof.
  intros F. revert best. induction F as [|idxs hand cs hs R _ IH]; intros best.
  - reflexivity.
  - simpl. rewrite R. simpl. destruct (eval5 hand) as [sc|e]; simpl; [|reflexivity].
    destruct (match best with None => Ok true | Some b => score_gt sc b end);
      simpl; [apply IH|reflexivity].
Qed.

Lemma eval7_unfold (cards : list card) :
  (5 < List.length cards)%nat ->
  eval7 cards =
  (best <- best_of_hands (combinations cards 5) None ;;
   match best with Some b => Ok b | None => Raise TypeError end).
Proof.
  intros L. unfold eval7.
  destruct (Nat.leb_spec (List.length cards) 5) as [L'|_]; [lia|].
  pose proof (combinations_range [] cards 5) as F. simpl in F.
  now rewrite (eval7_loop_hands cards _ (combinations cards 5) None F).
Qed.

(** The loop returns an upper bound of the scores it has seen, and one of
    them. *)
Lemma best_of_hands_max (hands : list (list card)) (best : option score) :
  (forall h, In h hands -> exists v, eval5 h = Ok v /\ shaped v = true) ->
  (forall b, best = Some b -> shaped b = true) ->
  exists r, best_of_hands hands best = Ok r
    /\ (hands <> [] \/ best <> None -> exists m, r = Some m /\ shaped m = true
          /\ (best = Some m \/ exists h, In h hands /\ eval5 h = Ok m)
          /\ (forall b, best = Some b -> score_le b m)
          /\ (forall h v, In h hands -> eval5 h = Ok v -> score_le v m))
    /\ (hands = [] -> r = best).
Proof.
  revert best. induction hands as [|h hands IH]; intros best T SB.
  - exists best. split; [reflexivity|]. split; [|reflexivity].
    intros [N|N]; [congruence|]. destruct best as [b|]; [|congruence].
    exists b. repeat split; auto.
    + intros b' E. injection E as <-. apply score_le_refl.
    + intros h v [].
  - destruct (T h (or_introl eq_refl)) as [v [E S]].
    assert (T' : forall h', In h' hands -> exists v', eval5 h' = Ok v' /\ shaped v' = true)
      by (intros h' Hh'; apply T; now right).
    simpl. rewrite E. simpl.
    destruct best as [b|].
    + pose proof (SB b eq_refl) as Sb.
      destruct (shaped_gt_defined v b S Sb) as [[|] G]; rewrite G; simpl.
      * destruct (IH (Some v) T') as [r [R [M _]]].
        { intros b' Eb. now injection Eb as <-. }
        exists r. split; [exact R|]. split; [|discriminate].
        intros _. destruct M as [m [-> [Sm [Hin [Hb Hall]]]]]; [right; discriminate|].
        exists m. repeat split; auto.
        -- right. destruct Hin as [Em|[h' [Hh' Eh']]].
           ++ injection Em as <-. exists h. split; [now left|exact E].
           ++ exists h'. split; [now right|exact Eh'].
        -- intros b' Eb. injection Eb as <-.
           apply (score_le_trans b v m); auto. now apply score_gt_le.
        -- intros h' v' [<-|Hh'] Eh'.
           ++ rewrite E in Eh'. injection Eh' as <-. now apply Hb.
           ++ now apply (Hall h').
      * destruct (IH (Some b) T') as [r [R [M _]]].
        { intros b' Eb. now injection Eb as <-. }
        exists r. split; [exact R|]. split; [|discriminate].
        intros _. destruct M as [m [-> [Sm [Hin [Hb Hall]]]]]; [right; discriminate|].
        exists m. repeat split; auto.
        -- destruct Hin as [Em|[h' [Hh' Eh']]]; [now left|].
           right. exists h'. split; [now right|exact Eh'].
        -- intros h' v' [<-|Hh'] Eh'.
           ++ rewrite E in Eh'. injection Eh' as <-.
              apply (score_le_trans v b m); auto.
           ++ now apply (Hall h').
    + destruct (IH (Some v) T') as [r [R [M _]]].
      { intros b' Eb. now injection Eb as <-. }
      exists r. split; [exact R|]. split; [|discriminate].
      intros _. destruct M as [m [-> [Sm [Hin [Hb Hall]]]]]; [right; discriminate|].
      exists m. repeat split; auto.
      * right. destruct Hin as [Em|[h' [Hh' Eh']]].
        -- injection Em as <-. exists h. split; [now left|exact E].
        -- exists h'. split; [now right|exact Eh'].
      * discriminate.
      * intros h' v' [<-|Hh'] Eh'.
        -- rewrite E in Eh'. injection Eh' as <-. now apply Hb.
        -- now apply (Hall h').
Qed.

Lemma combinations_too_long {A : Type} (l : list A) (k : nat) :
  (List.length l < k)%nat -> combinations l k = [].
Proof.
  revert k; induction l as [|x l IH]; intros [|k] L; simpl in *; try lia; auto.
  rewrite !IH by lia. reflexivity.
Qed.

Lemma combinations_all {A : Type} (l : list A) : combinations l (List.length l) = [l].
Proof.
  induction l as [|x l IH]; simpl; [reflexivity|].
  rewrite IH, combinations_too_long by lia. reflexivity.
Qed.

Lemma combinations_nonempty {A : Type} (l : list A) (k : nat) :
  (k <= List.length l)%nat -> combinations l k <> [].
Proof.
  revert k; induction l as [|x l IH]; intros [|k] L; simpl in *; try discriminate; try lia.
  intros E. apply app_eq_nil in E. destruct E as [E _].
  apply map_eq_nil in E. revert E. apply IH. lia.
Qed.

Lemma combinations_range_nonempty (n : nat) :
  (5 <= n)%nat -> combinations (seq 0 n) 5 <> [].
Proof. intros L. apply combinations_nonempty. now rewrite length_seq. Qed.

Lemma eval5_short (cs : list card) :
  List.length cs = 2%nat \/ List.length cs = 3%nat -> incl cs full_deck ->
  exists v, eval5 cs = Ok v /\ shaped v = true.
Proof.
  intros L I. rewrite (eval5_deck cs I). apply classify_short.
  - now rewrite length_map.
  - now apply ranks_in_all_ranks.
Qed.

Lemma hands_of_deck (cards h : list card) :
  incl cards full_deck -> In h (combinations cards 5) ->
  exists v, eval5 h = Ok v /\ shaped v = true.
Proof.
  intros I Hh. apply combinations_subseq in Hh. destruct Hh as [S L].
  apply eval5_total; [exact L|].
  intros c Hc. apply I. now apply (subseq_incl h cards).
Qed.

(** More than five cards of the deck: the search returns a score that one
    5-card selection attains and no 5-card selection exceeds. *)
Lemma eval7_max (cards : list card) :
  incl cards full_deck -> (5 < List.length cards)%nat ->
  exists best, eval7 cards = Ok best /\ shaped best = true
    /\ (exists h, In h (combinations cards 5) /\ eval5 h = Ok best)
    /\ (forall h v, In h (combinations cards 5) -> eval5 h = Ok v -> score_le v best).
Proof.
  intros I L. rewrite (eval7_unfold cards L).
  destruct (best_of_hands_max (combinations cards 5) None) as [r [R [M _]]].
  - intros h Hh. now apply (hands_of_deck cards).
  - discriminate.
  - destruct M as [m [-> [Sm [Hin [_ Hall]]]]].
    { left. apply combinations_nonempty. lia. }
    rewrite R. simpl. exists m. repeat split; auto.
    destruct Hin as [E|Hin]; [discriminate|exact Hin].
Qed.

(** Any pool of the deck other than a 4-card pool, from two cards up, gets
    a score. *)
Lemma eval7_total (cards : list card) :
  incl cards full_deck -> (2 <= List.length cards)%nat -> List.length cards <> 4%nat ->
  exists m, eval7 cards = Ok m /\ shaped m = true.
Proof.
  intros I L2 L4.
  destruct (Nat.le_gt_cases (List.length cards) 5) as [L|L].
  - unfold eval7. destruct (Nat.leb_spec (List.length cards) 5) as [_|L']; [|lia].
    assert (C : List.length cards = 2%nat \/ List.length cards = 3%nat
                \/ List.length cards = 5%nat) by lia.
    destruct C as [C|[C|C]].
    + apply eval5_short; auto.
    + apply eval5_short; auto.
    + now apply eval5_total.
  - destruct (eval7_max cards I L) as [m [E [S _]]]. eauto.
Qed.

(** C2.  On cards of the deck: with at most five cards the search is the
    5-card classifier applied to the input; with five or more it scores
    C(n,5) index selections and returns a score that some 5-card selection of
    the input attains and that no 5-card selection exceeds under the full
    comparison of scores. *)
Theorem eval7_best_subset (cards : list card) :
  incl cards full_deck ->
  ((List.length cards <= 5)%nat -> eval7 cards = eval5 cards)
  /\ ((5 <= List.length cards)%nat ->
      List.length (combinations (seq 0 (List.length cards)) 5)
      = binom (List.length cards) 5
      /\ exists best, eval7 cards = Ok best
         /\ (exists h, subseq h cards /\ List.length h = 5%nat /\ eval5 h = Ok best)
         /\ (forall h, subseq h cards -> List.length h = 5%nat ->
               exists v, eval5 h = Ok v /\ score_gt v best = Ok false
                         /\ (v = best \/ score_gt best v = Ok true))).
Proof.
  intros I. split.
  - intros L. unfold eval7.
    now destruct (Nat.leb_spec (List.length cards) 5) as [_|L']; [|lia].
  - intros L. split.
    { rewrite combinations_length. now rewrite length_seq. }
    destruct (Nat.eq_dec (List.length cards) 5) as [E5|N5].
    + destruct (eval5_total cards E5 I) as [v [E S]].
      exists v. split.
      { unfold eval7. now rewrite E5. }
      assert (Only : forall h, subseq h cards -> List.length h = 5%nat -> h = cards).
      { intros h Sh Lh.
        assert (Hin : In h (combinations cards 5)) by (now apply combinations_subseq).
        rewrite <- E5, combinations_all in Hin.
        destruct Hin as [<-|[]]. reflexivity. }
      split.
      * exists cards. split; [|now split].
        assert (Hin : In cards (combinations cards 5)).
        { rewrite <- E5, combinations_all. now left. }
        now apply combinations_subseq in Hin.
      * intros h Sh Lh. rewrite (Only h Sh Lh). exists v.
        split; [exact E|]. split; [apply score_gt_irrefl|now left].
    + destruct (eval7_max cards I) as [best [E [S [[h [Hin Eh]] Hall]]]]; [lia|].
      exists best. split; [exact E|]. split.
      * exists h. apply combinations_subseq in Hin. tauto.
      * intros h' Sh Lh.
        assert (Hin' : In h' (combinations cards 5)) by (now apply combinations_subseq).
        destruct (hands_of_deck cards h' I Hin') as [v [Ev Sv]].
        exists v. split; [exact Ev|].
        pose proof (Hall h' v Hin' Ev) as Le.
        split; [exact Le|]. now apply score_le_cases.
Qed.

Lemma eval7_best_subset_witness :
  incl ["Ah"; "Kd"; "2c"; "3d"; "9h"; "9s"; "Kc"; "4d"] full_deck
  /\ exists best,
       eval7 ["Ah"; "Kd"; "2c"; "3d"; "9h"; "9s"; "Kc"; "4d"] = Ok best
       /\ exists v, eval5 ["Ah"; "2c"; "3d"; "9s"; "4d"] = Ok v
                    /\ score_gt v best = Ok false.
Proof.
  assert (I : incl ["Ah"; "Kd"; "2c"; "3d"; "9h"; "9s"; "Kc"; "4d"] full_deck).
  { intros c Hc. simpl in Hc. vm_compute. intuition. }
  split; [exact I|].
  destruct (eval7_best_subset _ I) as [_ H].
  destruct H as [_ [best [E [_ Hall]]]]; [simpl; lia|].
  exists best. split; [exact E|].
  destruct (Hall ["Ah"; "2c"; "3d"; "9s"; "4d"]) as [v [Ev [Hle _]]].
  - repeat (first [apply subseq_nil | apply subseq_take | apply subseq_skip]).
  - reflexivity.
  - exists v. now split.
Defined.

Example eval7_eight_cards :
  eval7 ["Ah"; "Kd"; "2c"; "3d"; "9h"; "9s"; "Kc"; "4d"]
  = Ok [PInt 2; PInt 13; PInt 9; PInt 14]
  /\ List.length (combinations (seq 0 8) 5) = 56%nat.
Proof. split; reflexivity. Qed.

(** ** The wheel *)

Lemma mult_pos_in (rs : list Z) (r : Z) : In r rs -> (0 <? mult rs r)%nat = true.
Proof.
  induction rs as [|x rs IH]; simpl; [tauto|].
  intros [->|H].
  - now rewrite Z.eqb_refl.
  - destruct (x =? r); [reflexivity|now apply IH].
Qed.

Lemma straights_checked :
  forallb (fun rs => only_ranks [14; 5; 4; 3; 2] rs && only_ranks [10; 9; 8; 7; 6] rs)
          (descending_lists 5) = true.
Proof. vm_compute. reflexivity. Qed.

Lemma sorted_ranks_of (target : list Z) (cs : list card) :
  (forall rs, In rs (descending_lists 5) -> only_ranks target rs = true) ->
  List.length cs = 5%nat -> incl cs full_deck ->
  (forall r, In r target -> In r (map card_rank cs)) ->
  sorted_desc (map card_rank cs) = target.
Proof.
  intros Chk L I T.
  pose proof (in_descending_lists (map card_rank cs) (ranks_in_all_ranks cs I)) as M.
  rewrite length_map, L in M. specialize (Chk _ M). unfold only_ranks in Chk.
  assert (F : forallb (fun r => (0 <? mult (sorted_desc (map card_rank cs)) r)%nat)
                      target = true).
  { apply forallb_forall. intros r Hr. rewrite mult_sorted_desc.
    now apply mult_pos_in, T. }
  rewrite F in Chk. simpl in Chk. now apply ints_eqb_eq.
Qed.

(** C8.  Five cards of the deck holding an ace, a 2, a 3, a 4 and a 5, not
    all of one suit, score as a straight with high card 5; five cards holding
    6, 7, 8, 9 and ten, not all of one suit, score as a straight with high
    card 10; and the wheel's score is strictly below the other. *)
Theorem wheel_below_ten_high (wheel six_to_ten : list card) :
  List.length wheel = 5%nat -> incl wheel full_deck -> one_suit wheel = false ->
  (forall r, In r [14; 5; 4; 3; 2] -> In r (map card_rank wheel)) ->
  List.length six_to_ten = 5%nat -> incl six_to_ten full_deck ->
  one_suit six_to_ten = false ->
  (forall r, In r [10; 9; 8; 7; 6] -> In r (map card_rank six_to_ten)) ->
  eval5 wheel = Ok [PInt 4; PInt 5]
  /\ eval5 six_to_ten = Ok [PInt 4; PInt 10]
  /\ score_gt [PInt 4; PInt 10] [PInt 4; PInt 5] = Ok true
  /\ score_gt [PInt 4; PInt 5] [PInt 4; PInt 10] = Ok false
  /\ score_eqb [PInt 4; PInt 5] [PInt 4; PInt 10] = false.
Proof.
  intros L1 I1 F1 T1 L2 I2 F2 T2.
  assert (C : forall t rs, In rs (descending_lists 5) ->
                (t = [14; 5; 4; 3; 2] \/ t = [10; 9; 8; 7; 6]) -> only_ranks t rs = true).
  { intros t rs M Ht.
    pose proof (proj1 (forallb_forall _ _) straights_checked rs M) as H.
    cbv beta in H. apply andb_true_iff in H. destruct Ht as [->| ->]; tauto. }
  assert (NE : forall cs : list card, List.length cs = 5%nat -> cs <> [])
    by (intros [|? ?]; [discriminate|congruence]).
  repeat split.
  - rewrite (eval5_deck wheel I1), (is_flush_one_suit wheel (NE _ L1)), F1.
    rewrite (sorted_ranks_of [14; 5; 4; 3; 2] wheel); auto.
  - rewrite (eval5_deck six_to_ten I2), (is_flush_one_suit six_to_ten (NE _ L2)), F2.
    rewrite (sorted_ranks_of [10; 9; 8; 7; 6] six_to_ten); auto.
Qed.

Lemma wheel_below_ten_high_witness :
  eval5 ["As"; "2d"; "3c"; "4h"; "5s"] = Ok [PInt 4; PInt 5]
  /\ eval5 ["6c"; "7d"; "8h"; "9s"; "Td"] = Ok [PInt 4; PInt 10]
  /\ score_gt [PInt 4; PInt 10] [PInt 4; PInt 5] = Ok true
  /\ score_gt [PInt 4; PInt 5] [PInt 4; PInt 10] = Ok false
  /\ score_eqb [PInt 4; PInt 5] [PInt 4; PInt 10] = false.
Proof.
  apply (wheel_below_ten_high ["As"; "2d"; "3c"; "4h"; "5s"]
                              ["6c"; "7d"; "8h"; "9s"; "Td"]).
  - reflexivity.
  - intros c Hc. simpl in Hc. vm_compute. intuition.
  - reflexivity.
  - intros r Hr. simpl in Hr. vm_compute. intuition.
  - reflexivity.
  - intros c Hc. simpl in Hc. vm_compute. intuition.
  - reflexivity.
  - intros r Hr. simpl in Hr. vm_compute. intuition.
Defined.

(** ** Sorting card tokens *)

Lemma card_ltb_lt (a b : card) : String.ltb a b = true <-> String_as_OT.lt a b.
Proof.
  unfold String.ltb. rewrite <- String_as_OT.cmp_lt. unfold String_as_OT.cmp.
  destruct (String.compare a b); split; congruence.
Qed.

Lemma card_ltb_trans (a b c : card) :
  String.ltb a b = true -> String.ltb b c = true -> String.ltb a c = true.
Proof.
  rewrite !card_ltb_lt. apply String_as_OT.lt_trans.
Qed.

Lemma card_ltb_irrefl (a : card) : String.ltb a a = false.
Proof.
  destruct (String.ltb a a) eqn:E; [|reflexivity].
  apply card_ltb_lt in E. apply String_as_OT.lt_not_eq in E.
  exfalso. apply E. reflexivity.
Qed.

Lemma card_ltb_asym (a b : card) : String.ltb a b = true -> String.ltb b a = false.
Proof.
  intros H. destruct (String.ltb b a) eqn:E; [|reflexivity].
  pose proof (card_ltb_trans a b a H E) as T. now rewrite card_ltb_irrefl in T.
Qed.

Lemma card_ltb_total (a b : card) :
  String.ltb a b = true \/ a = b \/ String.ltb b a = true.
Proof.
  unfold String.ltb. rewrite (String.compare_antisym b a).
  destruct (String.compare a b) eqn:E; simpl; auto.
  right; left. now apply String.compare_eq_iff.
Qed.

Lemma insert_card_comm (x y : card) (l : list card) :
  insert_card x (insert_card y l) = insert_card y (insert_card x l).
Proof.
  induction l as [|z l IH].
  - simpl. destruct (card_ltb_total x y) as [H|[->|H]].
    + now rewrite H, (card_ltb_asym x y H).
    + reflexivity.
    + now rewrite H, (card_ltb_asym y x H).
  - cbn [insert_card].
    destruct (String.ltb z y) eqn:Ezy; destruct (String.ltb z x) eqn:Ezx;
      cbn [insert_card]; rewrite ?Ezy, ?Ezx.
    + now rewrite IH.
    + assert (Hxy : String.ltb x y = true).
      { destruct (card_ltb_total x y) as [H|[->|H]]; [exact H|congruence|].
        pose proof (card_ltb_trans z y x Ezy H). congruence. }
      now rewrite Hxy.
    + assert (Hyx : String.ltb y x = true).
      { destruct (card_ltb_total y x) as [H|[->|H]]; [exact H|congruence|].
        pose proof (card_ltb_trans z x y Ezx H). congruence. }
      now rewrite Hyx.
    + destruct (card_ltb_total x y) as [H|[->|H]].
      * now rewrite H, (card_ltb_asym x y H).
      * reflexivity.
      * now rewrite H, (card_ltb_asym y x H).
Qed.

Lemma sorted_cards_permutation (l l' : list card) :
  Permutation l l' -> sorted_cards l = sorted_cards l'.
Proof.
  induction 1 as [|x l l' P IH|x y l|l l' l'' P1 IH1 P2 IH2]; simpl.
  - reflexivity.
  - fold (sorted_cards l) (sorted_cards l'). now rewrite IH.
  - apply insert_card_comm.
  - congruence.
Qed.

(** ** The cache *)

Lemma cards_eqb_eq (a b : list card) : cards_eqb a b = true <-> a = b.
Proof.
  revert b; induction a as [|x a IH]; intros [|y b]; simpl; split;
    try discriminate; try reflexivity.
  - intros H. apply andb_true_iff in H. destruct H as [Hx Hr].
    apply String.eqb_eq in Hx. apply IH in Hr. congruence.
  - intros H. injection H as -> ->. rewrite String.eqb_refl. simpl. now apply IH.
Qed.

Lemma key_eqb_eq (k1 k2 : cache_key) : key_eqb k1 k2 = true <-> k1 = k2.
Proof.
  destruct k1 as [h1 b1 s1 i1], k2 as [h2 b2 s2 i2]. unfold key_eqb. simpl.
  rewrite !andb_true_iff, !cards_eqb_eq, !Z.eqb_eq. split.
  - intros [[[-> ->] ->] ->]. reflexivity.
  - intros H. injection H as -> -> -> ->. auto.
Qed.

Lemma key_eqb_refl (k : cache_key) : key_eqb k k = true.
Proof. now apply key_eqb_eq. Qed.

Lemma cache_get_set (d : cache) (k : cache_key) (v : Q) :
  cache_get (cache_set d k v) k = Some v.
Proof.
  induction d as [|[k' v'] d IH]; simpl.
  - now rewrite key_eqb_refl.
  - destruct (key_eqb k' k) eqn:E; simpl; rewrite E; [reflexivity|exact IH].
Qed.

Lemma cache_get_set_other (d : cache) (k k' : cache_key) (v : Q) :
  key_eqb k k' = false -> cache_get (cache_set d k v) k' = cache_get d k'.
Proof.
  intros N. induction d as [|[k0 v0] d IH]; simpl.
  - now rewrite N.
  - destruct (key_eqb k0 k) eqn:E; simpl.
    + apply key_eqb_eq in E. subst k0. now rewrite N.
    + now rewrite IH.
Qed.

Lemma it_bucket_values (iterations : Z) :
  In (it_bucket iterations) [40; 60; 90; 120].
Proof.
  unfold it_bucket.
  destruct (iterations <=? 45); [simpl; auto|].
  destruct (iterations <=? 70); [simpl; auto|].
  destruct (iterations <=? 100); simpl; auto.
Qed.

Section CacheProperties.

Variable rng_state : Type.
Variable shuffle : rng_state -> list card -> list card * rng_state.

Lemma calculate_equity_hit (p : player rng_state) (my_cards board : list card)
    (street iterations : Z) (e : Q) :
  cache_get (eq_cache p) (make_key my_cards board street iterations) = Some e ->
  calculate_equity shuffle p my_cards board street iterations = Ok (e, p).
Proof. intros H. unfold calculate_equity. unfold make_key in H. now rewrite H. Qed.

Lemma calculate_equity_miss (p : player rng_state) (my_cards board : list card)
    (street iterations : Z) :
  cache_get (eq_cache p) (make_key my_cards board street iterations) = None ->
  calculate_equity shuffle p my_cards board street iterations =
  (' (eq, g') <- calculate_equity_python shuffle (rng p) my_cards board
                   (it_bucket iterations) ;;
   Ok (eq, mk_player g'
             (cache_set (eq_cache p)
                        (make_key my_cards board street iterations) eq))).
Proof. intros H. unfold calculate_equity. unfold make_key in H. now rewrite H. Qed.

(** A query that returned leaves its estimate in the cache under its key. *)
Lemma calculate_equity_stores (p p' : player rng_state) (my_cards board : list card)
    (street iterations : Z) (e : Q) :
  calculate_equity shuffle p my_cards board street iterations = Ok (e, p') ->
  cache_get (eq_cache p') (make_key my_cards board street iterations) = Some e.
Proof.
  intros H.
  destruct (cache_get (eq_cache p) (make_key my_cards board street iterations))
    as [c|] eqn:G.
  - rewrite (calculate_equity_hit _ _ _ _ _ _ G) in H. injection H as <- <-. exact G.
  - rewrite (calculate_equity_miss _ _ _ _ _ G) in H.
    destruct (calculate_equity_python shuffle (rng p) my_cards board
                (it_bucket iterations)) as [[eq g']|x]; simpl in H; [|discriminate].
    injection H as <- <-. simpl. apply cache_get_set.
Qed.

(** An entry of the cache survives every query that returns. *)
Lemma calculate_equity_keeps (p p' : player rng_state) (my_cards board : list card)
    (street iterations : Z) (e : Q) (k : cache_key) (v : Q) :
  calculate_equity shuffle p my_cards board street iterations = Ok (e, p') ->
  cache_get (eq_cache p) k = Some v -> cache_get (eq_cache p') k = Some v.
Proof.
  intros H K.
  destruct (cache_get (eq_cache p) (make_key my_cards board street iterations))
    as [c|] eqn:G.
  - rewrite (calculate_equity_hit _ _ _ _ _ _ G) in H. now injection H as <- <-.
  - rewrite (calculate_equity_miss _ _ _ _ _ G) in H.
    destruct (calculate_equity_python shuffle (rng p) my_cards board
                (it_bucket iterations)) as [[eq g']|x]; simpl in H; [|discriminate].
    injection H as <- <-. simpl. rewrite cache_get_set_other; [exact K|].
    destruct (key_eqb (make_key my_cards board street iterations) k) eqn:E;
      [|reflexivity].
    apply key_eqb_eq in E. subst k. congruence.
Qed.

(** C6.  The iteration count is cut down to one of four buckets, any count
    up to 45 (so 41 to 45) falling in the bucket of 40.  On a miss the
    simulator runs with the bucket's count and its estimate is stored under
    the key; a query whose key finds an entry returns the stored estimate and
    leaves generator and cache as they were, so the simulator is not run;
    after a query has returned, every query with the same key returns that
    very estimate without a second simulation; and an entry stays in the cache
    through every later query. *)
Theorem cache_buckets_and_hits (p : player rng_state) (my_cards board : list card)
    (street iterations : Z) :
  In (it_bucket iterations) [40; 60; 90; 120]
  /\ (iterations <= 45 -> it_bucket iterations = it_bucket 40)
  /\ (cache_get (eq_cache p) (make_key my_cards board street iterations) = None ->
      calculate_equity shuffle p my_cards board street iterations =
      (' (eq, g') <- calculate_equity_python shuffle (rng p) my_cards board
                       (it_bucket iterations) ;;
       Ok (eq, mk_player g'
                 (cache_set (eq_cache p)
                            (make_key my_cards board street iterations) eq))))
  /\ (forall e, cache_get (eq_cache p) (make_key my_cards board street iterations)
                = Some e ->
                calculate_equity shuffle p my_cards board street iterations = Ok (e, p))
  /\ (forall e p', calculate_equity shuffle p my_cards board street iterations
                   = Ok (e, p') ->
        (forall my_cards' board' street' iterations',
           make_key my_cards' board' street' iterations'
           = make_key my_cards board street iterations ->
           calculate_equity shuffle p' my_cards' board' street' iterations'
           = Ok (e, p'))
        /\ (forall k v, cache_get (eq_cache p) k = Some v ->
                        cache_get (eq_cache p') k = Some v)).
Proof.
  split; [apply it_bucket_values|].
  split. { intros L. unfold it_bucket. destruct (Z.leb_spec iterations 45); [reflexivity|lia]. }
  split; [apply calculate_equity_miss|].
  split; [intros e; apply calculate_equity_hit|].
  intros e p' H. split.
  - intros my' board' street' it' K.
    apply calculate_equity_hit. rewrite K. now apply (calculate_equity_stores p).
  - intros k v. now apply (calculate_equity_keeps p p' my_cards board street iterations e).
Qed.

(** C10.  Two queries that miss the cache, on the same cards and board, in
    the same iteration bucket and from the same generator state, compute the
    same estimate whatever their stages: the stage goes into the key only, the
    simulation is run without it. *)
Theorem stage_only_in_key (p1 p2 : player rng_state) (my_cards board : list card)
    (street1 street2 iterations1 iterations2 : Z) :
  rng p1 = rng p2 ->
  it_bucket iterations1 = it_bucket iterations2 ->
  cache_get (eq_cache p1) (make_key my_cards board street1 iterations1) = None ->
  cache_get (eq_cache p2) (make_key my_cards board street2 iterations2) = None ->
  estimate_of (calculate_equity shuffle p1 my_cards board street1 iterations1)
  = estimate_of (calculate_equity shuffle p2 my_cards board street2 iterations2)
  /\ estimate_of (calculate_equity shuffle p1 my_cards board street1 iterations1)
     = estimate_of (calculate_equity_python shuffle (rng p1) my_cards board
                      (it_bucket iterations1)).
Proof.
  intros R B M1 M2.
  rewrite (calculate_equity_miss _ _ _ _ _ M1), (calculate_equity_miss _ _ _ _ _ M2).
  rewrite <- R, <- B.
  destruct (calculate_equity_python shuffle (rng p1) my_cards board
              (it_bucket iterations1)) as [[eq g']|x]; simpl; split; reflexivity.
Qed.

(** C4, as far as it holds.  Queries that list the same own cards in another
    order, with the same board sequence, stage and iteration bucket, have the
    same key, and once the first has returned the second returns its stored
    estimate. *)
Theorem own_card_order_shares_key (p p' : player rng_state)
    (my_cards my_cards' board : list card) (street iterations iterations' : Z) (e : Q) :
  Permutation my_cards my_cards' ->
  it_bucket iterations = it_bucket iterations' ->
  make_key my_cards board street iterations
  = make_key my_cards' board street iterations'
  /\ (calculate_equity shuffle p my_cards board street iterations = Ok (e, p') ->
      calculate_equity shuffle p' my_cards' board street iterations' = Ok (e, p')).
Proof.
  intros P B.
  assert (K : make_key my_cards board street iterations
              = make_key my_cards' board street iterations').
  { unfold make_key. now rewrite (sorted_cards_permutation _ _ P), B. }
  split; [exact K|].
  intros H. apply calculate_equity_hit. rewrite <- K.
  now apply (calculate_equity_stores p).
Qed.

End CacheProperties.

Lemma cache_buckets_and_hits_witness :
  it_bucket 43 = it_bucket 40
  /\ exists e p',
       calculate_equity shuffle_id (mk_player tt []) ["Ah"; "Kd"] ["2c"; "3d"; "9h"] 3 43
       = Ok (e, p')
       /\ calculate_equity shuffle_id p' ["Kd"; "Ah"] ["2c"; "3d"; "9h"] 3 40
          = Ok (e, p').
Proof.
  destruct (cache_buckets_and_hits unit shuffle_id (mk_player tt [])
              ["Ah"; "Kd"] ["2c"; "3d"; "9h"] 3 43) as [_ [B [_ [_ H]]]].
  split; [apply B; lia|].
  destruct (calculate_equity shuffle_id (mk_player tt [])
              ["Ah"; "Kd"] ["2c"; "3d"; "9h"] 3 43) as [[e p']|x] eqn:E;
    [|vm_compute in E; discriminate E].
  exists e, p'. split; [reflexivity|].
  apply (proj1 (H e p' eq_refl)). reflexivity.
Defined.

Lemma stage_only_in_key_witness :
  estimate_of (calculate_equity shuffle_rev (mk_player tt [])
                 ["Ah"; "Kd"] ["2c"; "3d"; "9h"] 1 60)
  = estimate_of (calculate_equity shuffle_rev
                   (mk_player tt [(make_key ["Ah"; "Kd"] ["2c"; "3d"; "9h"] 1 60, 1 # 2)])
                   ["Ah"; "Kd"] ["2c"; "3d"; "9h"] 3 65).
Proof.
  assert (B : it_bucket 60 = it_bucket 65) by reflexivity.
  assert (M1 : cache_get (eq_cache (mk_player tt []))
                 (make_key ["Ah"; "Kd"] ["2c"; "3d"; "9h"] 1 60) = None)
    by reflexivity.
  assert (M2 : cache_get
                 (eq_cache (mk_player tt
                    [(make_key ["Ah"; "Kd"] ["2c"; "3d"; "9h"] 1 60, 1 # 2)]))
                 (make_key ["Ah"; "Kd"] ["2c"; "3d"; "9h"] 3 65) = None)
    by (vm_compute; reflexivity).
  exact (proj1 (stage_only_in_key unit shuffle_rev (mk_player tt [])
                  (mk_player tt [(make_key ["Ah"; "Kd"] ["2c"; "3d"; "9h"] 1 60, 1 # 2)])
                  ["Ah"; "Kd"] ["2c"; "3d"; "9h"] 1 3 60 65 eq_refl B M1 M2)).
Defined.

Lemma own_card_order_shares_key_witness :
  Permutation ["Ah"; "Kd"] ["Kd"; "Ah"]
  /\ make_key ["Ah"; "Kd"] ["2c"; "3d"; "9h"] 3 60
     = make_key ["Kd"; "Ah"] ["2c"; "3d"; "9h"] 3 65.
Proof.
  split; [apply perm_swap|].
  apply (own_card_order_shares_key unit shuffle_id (mk_player tt []) (mk_player tt [])
           ["Ah"; "Kd"] ["Kd"; "Ah"] ["2c"; "3d"; "9h"] 3 60 65 0%Q).
  - apply perm_swap.
  - reflexivity.
Defined.

(** C4 as stated fails: the board enters the key as the sequence it is given
    in.  Two queries with the same cards, the board listed in another order,
    have different keys, and the second misses the entry of the first. *)
Lemma board_order_splits_key :
  Permutation ["2c"; "3d"; "9h"] ["3d"; "2c"; "9h"]
  /\ make_key ["Ah"; "Kd"] ["2c"; "3d"; "9h"] 3 60
     <> make_key ["Ah"; "Kd"] ["3d"; "2c"; "9h"] 3 60
  /\ exists e p',
       calculate_equity shuffle_id (mk_player tt []) ["Ah"; "Kd"] ["2c"; "3d"; "9h"] 3 60
       = Ok (e, p')
       /\ cache_get (eq_cache p') (make_key ["Ah"; "Kd"] ["3d"; "2c"; "9h"] 3 60) = None.
Proof.
  split; [apply perm_swap|]. split; [intros H; discriminate H|].
  eexists. eexists. split; vm_compute; reflexivity.
Qed.

(** ** The opponent reduction *)

Lemma keep_of_three (a b c : card) (i : nat) :
  keep_of [a; b; c] i
  = Ok (match i with
        | 0%nat => [b; c]
        | 1%nat => [a; c]
        | 2%nat => [a; b]
        | _ => [a; b; c]
        end).
Proof. destruct i as [|[|[|i]]]; reflexivity. Qed.

Lemma score_le_gt_trans (a b c : score) :
  shaped a = true -> shaped b = true -> shaped c = true ->
  score_le a b -> score_gt c b = Ok true -> score_gt c a = Ok true.
Proof.
  intros Sa Sb Sc Hab Hcb.
  destruct (shaped_gt_total a c Sa Sc) as [->|[H|H]]; [|exfalso|exact H].
  - unfold score_le in Hab. congruence.
  - pose proof (shaped_gt_trans a c b Sa Sc Sb H Hcb). unfold score_le in Hab.
    congruence.
Qed.

(** Whenever the three retentions can be scored, the reduction returns the
    first retention of maximal score. *)
Lemma best_two_from_three_first_max (a b c : card) (current_board : list card)
    (s0 s1 s2 : score) :
  eval7 ([b; c] ++ current_board) = Ok s0 -> shaped s0 = true ->
  eval7 ([a; c] ++ current_board) = Ok s1 -> shaped s1 = true ->
  eval7 ([a; b] ++ current_board) = Ok s2 -> shaped s2 = true ->
  exists keep sk,
    best_two_from_three [a; b; c] current_board = Ok keep
    /\ eval7 (keep ++ current_board) = Ok sk
    /\ score_le s0 sk /\ score_le s1 sk /\ score_le s2 sk
    /\ ((keep = [b; c] /\ sk = s0)
        \/ (keep = [a; c] /\ sk = s1 /\ score_gt s1 s0 = Ok true)
        \/ (keep = [a; b] /\ sk = s2 /\ score_gt s2 s0 = Ok true
            /\ score_gt s2 s1 = Ok true)).
Proof.
  intros E0 S0 E1 S1 E2 S2.
  unfold best_two_from_three. cbn [seq best_two_loop].
  rewrite !keep_of_three. cbn [bind].
  rewrite E0. cbn [bind]. rewrite E1. cbn [bind].
  destruct (shaped_gt_defined s1 s0 S1 S0) as [[|] G1]; rewrite G1; cbn [bind].
  - rewrite E2. cbn [bind].
    destruct (shaped_gt_defined s2 s1 S2 S1) as [[|] G2]; rewrite G2; cbn [bind].
    + exists [a; b], s2. split; [reflexivity|]. split; [exact E2|].
      assert (G20 : score_gt s2 s0 = Ok true) by (apply (shaped_gt_trans s2 s1 s0); auto).
      repeat split; auto with scores.
      right; right. auto.
    + exists [a; c], s1. split; [reflexivity|]. split; [exact E1|].
      repeat split; auto with scores.
  - rewrite E2. cbn [bind].
    destruct (shaped_gt_defined s2 s0 S2 S0) as [[|] G2]; rewrite G2; cbn [bind].
    + exists [a; b], s2. split; [reflexivity|]. split; [exact E2|].
      assert (G21 : score_gt s2 s1 = Ok true)
        by (apply (score_le_gt_trans s1 s0 s2); auto).
      repeat split; auto with scores.
      right; right. auto.
    + exists [b; c], s0. split; [reflexivity|]. split; [exact E0|].
      repeat split; auto with scores.
Qed.

Lemma incl_cons2 (x y : card) (l : list card) :
  In x l -> In y l -> incl [x; y] l.
Proof. intros Hx Hy z [<-|[<-|[]]]; assumption. Qed.

(** With a board of any size but two, three cards of the deck are always
    reduced to two of them. *)
Lemma best_two_from_three_total (cards3 current_board : list card) :
  List.length cards3 = 3%nat -> incl cards3 full_deck ->
  incl current_board full_deck -> List.length current_board <> 2%nat ->
  exists keep,
    best_two_from_three cards3 current_board = Ok keep
    /\ List.length keep = 2%nat /\ incl keep cards3.
Proof.
  intros L I IB NB.
  destruct cards3 as [|a [|b [|c [|? ?]]]]; try discriminate.
  assert (T : forall x y, In x [a; b; c] -> In y [a; b; c] ->
                exists s, eval7 ([x; y] ++ current_board) = Ok s /\ shaped s = true).
  { intros x y Hx Hy. apply eval7_total.
    - apply incl_app; [|exact IB]. apply incl_cons2; apply I; assumption.
    - simpl. lia.
    - simpl. lia. }
  destruct (T b c) as [s0 [E0 S0]]; [simpl; auto|simpl; auto|].
  destruct (T a c) as [s1 [E1 S1]]; [simpl; auto|simpl; auto|].
  destruct (T a b) as [s2 [E2 S2]]; [simpl; auto|simpl; auto|].
  destruct (best_two_from_three_first_max a b c current_board s0 s1 s2 E0 S0 E1 S1 E2 S2)
    as [keep [sk [R [_ [_ [_ [_ K]]]]]]].
  exists keep. split; [exact R|].
  destruct K as [[-> _]|[[-> _]|[-> _]]]; (split; [reflexivity|]);
    apply incl_cons2; simpl; auto.
Qed.

(** ** The simulator *)

Lemma full_deck_nodup : NoDup full_deck.
Proof.
  assert (E : nodup string_dec full_deck = full_deck) by (vm_compute; reflexivity).
  rewrite <- E. apply NoDup_nodup.
Qed.

Lemma full_deck_length : List.length full_deck = 52%nat.
Proof. reflexivity. Qed.

Lemma unseen_incl (used : list card) :
  incl (filter (fun c => negb (existsb (String.eqb c) used)) full_deck) full_deck.
Proof. intros c Hc. apply filter_In in Hc. tauto. Qed.

Lemma unseen_length (used : list card) :
  (52 <= List.length (filter (fun c => negb (existsb (String.eqb c) used)) full_deck)
         + List.length used)%nat.
Proof.
  pose proof (filter_length (fun c => negb (existsb (String.eqb c) used)) full_deck) as F.
  cbv beta in F. change (List.length full_deck) with 52%nat in F.
  assert (B : (List.length
                 (filter (fun c => negb (negb (existsb (String.eqb c) used))) full_deck)
               <= List.length used)%nat).
  { apply NoDup_incl_length.
    - apply NoDup_filter, full_deck_nodup.
    - intros c Hc. apply filter_In in Hc. destruct Hc as [_ Hc].
      rewrite negb_involutive in Hc. apply existsb_exists in Hc.
      destruct Hc as [u [Hu E]]. apply String.eqb_eq in E. now subst. }
  lia.
Qed.

Lemma getitem_lt {A : Type} (l : list A) (i : nat) :
  (i < List.length l)%nat -> exists x, getitem l i = Ok x /\ In x l.
Proof.
  intros L. unfold getitem. destruct (nth_error l i) as [x|] eqn:E.
  - exists x. split; [reflexivity|]. now apply nth_error_In in E.
  - apply nth_error_None in E. lia.
Qed.

Section SimulatorProperties.

Variable rng_state : Type.
Variable shuffle : rng_state -> list card -> list card * rng_state.
Hypothesis shuffle_permutes :
  forall g deck, Permutation deck (fst (shuffle g deck)).

Lemma runout_total (fuel : nat) (deck : list card) (d : nat) (sim_board : list card) :
  (d + fuel <= List.length deck)%nat ->
  exists sim_board',
    runout fuel deck d sim_board = Ok (sim_board', (d + fuel)%nat)
    /\ List.length sim_board' = (List.length sim_board + fuel)%nat
    /\ incl sim_board' (sim_board ++ deck).
Proof.
  revert d sim_board. induction fuel as [|fuel IH]; intros d sim_board L.
  - exists sim_board. rewrite !Nat.add_0_r. split; [reflexivity|].
    split; [reflexivity|]. now apply incl_appl, incl_refl.
  - destruct (getitem_lt deck d) as [c [E Hc]]; [lia|].
    cbn [runout]. rewrite E. cbn [bind].
    destruct (IH (S d) (sim_board ++ [c])) as [sb [R [Len Inc]]]; [lia|].
    exists sb. rewrite R. split; [f_equal; f_equal; lia|].
    split; [rewrite Len, length_app; simpl; lia|].
    intros x Hx. apply Inc in Hx. apply in_app_iff in Hx.
    destruct Hx as [Hx|Hx]; [|apply in_app_iff; now right].
    apply in_app_iff in Hx. destruct Hx as [Hx|[<-|[]]]; apply in_app_iff; auto.
Qed.

(** One iteration, on a board of any size up to seven but two: it returns,
    leaves the deck a permutation of itself, and adds 1, one half or nothing
    to [wins]. *)
Lemma sim_iteration_total (my_cards board deck : list card) (g : rng_state) (wins : Q) :
  List.length my_cards = 2%nat \/ List.length my_cards = 3%nat ->
  incl my_cards full_deck -> incl board full_deck ->
  List.length board <> 2%nat -> (List.length board <= 7)%nat ->
  incl deck full_deck -> (9 <= List.length deck)%nat ->
  exists deck' g' wins',
    sim_iteration shuffle my_cards board deck g wins = Ok (deck', g', wins')
    /\ Permutation deck deck'
    /\ (wins' = (wins + 1)%Q \/ wins' = (wins + (1 # 2))%Q \/ wins' = wins).
Proof.
  intros LM IM IB NB LB ID LD. unfold sim_iteration.
  pose proof (shuffle_permutes g deck) as P.
  destruct (shuffle g deck) as [deck' g'] eqn:Sh. simpl in P.
  assert (LD' : (9 <= List.length deck')%nat)
    by (rewrite <- (Permutation_length P); exact LD).
  assert (ID' : incl deck' full_deck).
  { intros c Hc. apply ID. apply (Permutation_in c (Permutation_sym P) Hc). }
  destruct (getitem_lt deck' 0) as [o0 [E0 H0]]; [lia|].
  destruct (getitem_lt deck' 1) as [o1 [E1 H1]]; [lia|].
  destruct (getitem_lt deck' 2) as [o2 [E2 H2]]; [lia|].
  cbn [Nat.add]. rewrite E0. cbn [bind]. rewrite E1. cbn [bind]. rewrite E2. cbn [bind].
  assert (M : exists my2,
             (if (List.length my_cards =? 3)%nat
              then best_two_from_three my_cards board else Ok my_cards) = Ok my2
             /\ List.length my2 = 2%nat /\ incl my2 full_deck).
  { destruct LM as [L|L]; rewrite L; cbn [Nat.eqb].
    - exists my_cards. auto.
    - destruct (best_two_from_three_total my_cards board L IM IB NB)
        as [keep [R [Lk Ik]]].
      exists keep. split; [exact R|]. split; [exact Lk|].
      intros c Hc. apply IM. now apply Ik. }
  destruct M as [my2 [EM [LM2 IM2]]]. rewrite EM. cbn [bind].
  destruct (best_two_from_three_total [o0; o1; o2] board) as [opp2 [EO [LO IO]]];
    [reflexivity| |exact IB|exact NB|].
  { intros c [<-|[<-|[<-|[]]]]; apply ID'; assumption. }
  rewrite EO. cbn [bind].
  destruct (runout_total (6 - List.length board) deck' 3 board) as [sb [R [Lsb Isb]]];
    [lia|].
  rewrite R. cbn [bind].
  assert (Isb' : incl sb full_deck).
  { intros c Hc. apply Isb in Hc. apply in_app_iff in Hc.
    destruct Hc as [Hc|Hc]; [now apply IB|now apply ID']. }
  destruct (eval7_total (my2 ++ sb)) as [s1 [Es1 Ss1]].
  { now apply incl_app. }
  { rewrite length_app. lia. }
  { rewrite length_app. lia. }
  destruct (eval7_total (opp2 ++ sb)) as [s2 [Es2 Ss2]].
  { apply incl_app; [|exact Isb'].
    intros c Hc. apply IO in Hc. destruct Hc as [<-|[<-|[<-|[]]]]; apply ID'; assumption. }
  { rewrite length_app. lia. }
  { rewrite length_app. lia. }
  rewrite Es1. cbn [bind]. rewrite Es2. cbn [bind].
  destruct (shaped_gt_defined s1 s2 Ss1 Ss2) as [r G]. rewrite G. cbn [bind].
  destruct r; [|destruct (score_eqb s1 s2)]; eauto 10.
Qed.

Lemma sim_loop_total (n : nat) (my_cards board deck : list card) (g : rng_state)
    (wins : Q) :
  List.length my_cards = 2%nat \/ List.length my_cards = 3%nat ->
  incl my_cards full_deck -> incl board full_deck ->
  List.length board <> 2%nat -> (List.length board <= 7)%nat ->
  incl deck full_deck -> (9 <= List.length deck)%nat ->
  exists g' wins',
    sim_loop shuffle n my_cards board deck g wins = Ok (g', wins')
    /\ (wins <= wins')%Q /\ (wins' <= wins + inject_Z (Z.of_nat n))%Q.
Proof.
  intros LM IM IB NB LB. revert deck g wins.
  induction n as [|n IH]; intros deck g wins ID LD.
  - exists g, wins. split; [reflexivity|]. simpl. unfold inject_Z. split; lra.
  - destruct (sim_iteration_total my_cards board deck g wins LM IM IB NB LB ID LD)
      as [deck' [g' [w' [E [P W]]]]].
    cbn [sim_loop]. rewrite E. cbn [bind].
    destruct (IH deck' g' w') as [g'' [w'' [R [Lo Hi]]]].
    { intros c Hc. apply ID. apply (Permutation_in c (Permutation_sym P) Hc). }
    { rewrite <- (Permutation_length P). exact LD. }
    exists g'', w''. split; [exact R|].
    rewrite Nat2Z.inj_succ. unfold Z.succ. rewrite inject_Z_plus.
    change (inject_Z 1) with 1%Q.
    destruct W as [-> | [-> | ->]]; split; lra.
Qed.

(** On cards of the deck, own hand of two or three cards, a board of at
    most seven cards but not two, and a positive iteration count, the
    simulator returns an estimate between 0 and 1. *)
Lemma calculate_equity_python_total (g : rng_state) (my_cards board : list card)
    (iterations : Z) :
  List.length my_cards = 2%nat \/ List.length my_cards = 3%nat ->
  incl my_cards full_deck -> incl board full_deck ->
  List.length board <> 2%nat -> (List.length board <= 7)%nat ->
  1 <= iterations ->
  exists e g',
    calculate_equity_python shuffle g my_cards board iterations = Ok (e, g')
    /\ (0 <= e)%Q /\ (e <= 1)%Q.
Proof.
  intros LM IM IB NB LB LI. unfold calculate_equity_python.
  cbv zeta.
  set (deck := filter (fun c => negb (existsb (String.eqb c) (my_cards ++ board)))
                      full_deck).
  assert (LD : (9 <= List.length deck)%nat).
  { pose proof (unseen_length (my_cards ++ board)) as U. fold deck in U.
    rewrite length_app in U. lia. }
  destruct (sim_loop_total (Z.to_nat iterations) my_cards board deck g 0%Q
              LM IM IB NB LB (unseen_incl _) LD) as [g' [w [R [Lo Hi]]]].
  rewrite R. cbn [bind].
  destruct (Z.eqb_spec iterations 0) as [->|_]; [lia|].
  exists (w / inject_Z iterations)%Q, g'. split; [reflexivity|].
  rewrite Z2Nat.id in Hi by lia.
  assert (Pos : (0 < inject_Z iterations)%Q).
  { change 0%Q with (inject_Z 0). rewrite <- Zlt_Qlt. lia. }
  split.
  - apply Qle_shift_div_l; [exact Pos|]. lra.
  - apply Qle_shift_div_r; [exact Pos|]. lra.
Qed.

End SimulatorProperties.

(** ** Queries through the cache *)

Lemma cache_ok_set (d : cache) (k : cache_key) (v : Q) :
  cache_ok d -> (0 <= v)%Q -> (v <= 1)%Q -> cache_ok (cache_set d k v).
Proof.
  intros H V0 V1 k' v' G. destruct (key_eqb k k') eqn:E.
  - apply key_eqb_eq in E. subst k'. rewrite cache_get_set in G.
    injection G as <-. now split.
  - rewrite cache_get_set_other in G by assumption. now apply (H k').
Qed.

Lemma cache_ok_empty : cache_ok [].
Proof. intros k v H. discriminate H. Qed.

Section QueryProperties.

Variable rng_state : Type.
Variable shuffle : rng_state -> list card -> list card * rng_state.
Hypothesis shuffle_permutes :
  forall g deck, Permutation deck (fst (shuffle g deck)).

(** A query on cards of the deck, with a board of at most seven cards but
    not two, returns, whatever the cache holds. *)
Lemma calculate_equity_total (p : player rng_state) (my_cards board : list card)
    (street iterations : Z) :
  List.length my_cards = 2%nat \/ List.length my_cards = 3%nat ->
  incl my_cards full_deck -> incl board full_deck ->
  List.length board <> 2%nat -> (List.length board <= 7)%nat ->
  exists e p',
    calculate_equity shuffle p my_cards board street iterations = Ok (e, p')
    /\ (cache_ok (eq_cache p) -> (0 <= e)%Q /\ (e <= 1)%Q /\ cache_ok (eq_cache p')).
Proof.
  intros LM IM IB NB LB.
  destruct (cache_get (eq_cache p) (make_key my_cards board street iterations))
    as [c|] eqn:G.
  - exists c, p. split; [now apply calculate_equity_hit|].
    intros C. destruct (C _ _ G). auto.
  - rewrite (calculate_equity_miss _ shuffle _ _ _ _ _ G).
    destruct (calculate_equity_python_total rng_state shuffle shuffle_permutes
                (rng p) my_cards board (it_bucket iterations) LM IM IB NB LB)
      as [e [g' [E [E0 E1]]]].
    { pose proof (it_bucket_values iterations) as V. simpl in V. lia. }
    rewrite E. cbn [bind]. eexists. eexists. split; [reflexivity|].
    intros C. split; [exact E0|]. split; [exact E1|]. simpl.
    now apply cache_ok_set.
Qed.

(** The selector on three cards of the deck and a board of at most six
    cards but not one: the three queries return, and the index returned is
    the first whose estimate is maximal. *)
Lemma get_best_discard_first_max (p : player rng_state) (a b c : card)
    (board : list card) :
  incl [a; b; c] full_deck -> incl board full_deck ->
  List.length board <> 1%nat -> (List.length board <= 6)%nat ->
  cache_ok (eq_cache p) ->
  exists e0 e1 e2 p1 p2 p3 idx,
    calculate_equity shuffle p [b; c] (board ++ [a]) 1 (discard_iters board)
    = Ok (e0, p1)
    /\ calculate_equity shuffle p1 [a; c] (board ++ [b]) 1 (discard_iters board)
       = Ok (e1, p2)
    /\ calculate_equity shuffle p2 [a; b] (board ++ [c]) 1 (discard_iters board)
       = Ok (e2, p3)
    /\ get_best_discard shuffle p [a; b; c] board = Ok (DiscardAction idx, p3)
    /\ ((idx = 0%nat /\ (e1 <= e0)%Q /\ (e2 <= e0)%Q)
        \/ (idx = 1%nat /\ (e0 < e1)%Q /\ (e2 <= e1)%Q)
        \/ (idx = 2%nat /\ (e0 < e2)%Q /\ (e1 < e2)%Q)).
Proof.
  intros I IB N1 L6 C.
  assert (Q : forall q x y z, In x [a; b; c] -> In y [a; b; c] -> In z [a; b; c] ->
            cache_ok (eq_cache q) ->
            exists e q', calculate_equity shuffle q [x; y] (board ++ [z]) 1
                           (discard_iters board) = Ok (e, q')
                         /\ (0 <= e)%Q /\ (e <= 1)%Q /\ cache_ok (eq_cache q')).
  { intros q x y z Hx Hy Hz Cq.
    destruct (calculate_equity_total q [x; y] (board ++ [z]) 1 (discard_iters board))
      as [e [q' [E B]]].
    - now left.
    - apply incl_cons2; apply I; assumption.
    - apply incl_app; [exact IB|]. intros w [<-|[]]. now apply I.
    - rewrite length_app. simpl. lia.
    - rewrite length_app. simpl. lia.
    - exists e, q'. split; [exact E|]. now apply B. }
  destruct (Q p b c a) as [e0 [p1 [E0 [A0 [B0 C1]]]]]; simpl; auto.
  destruct (Q p1 a c b) as [e1 [p2 [E1 [A1 [B1 C2]]]]]; simpl; auto.
  destruct (Q p2 a b c) as [e2 [p3 [E2 [A2 [B2 C3]]]]]; simpl; auto.
  exists e0, e1, e2, p1, p2, p3.
  unfold get_best_discard. fold (discard_iters board).
  cbn [seq discard_loop]. rewrite !keep_of_three. cbn [bind getitem nth_error].
  rewrite E0. cbn [bind].
  assert (F0 : Qle_bool e0 (- (1)) = false).
  { destruct (Qle_bool e0 (- (1))) eqn:F; [|reflexivity].
    apply Qle_bool_iff in F. lra. }
  rewrite F0. cbn [negb]. rewrite E1. cbn [bind].
  destruct (Qle_bool e1 e0) eqn:F1; cbn [negb]; rewrite E2; cbn [bind].
  - apply Qle_bool_iff in F1.
    destruct (Qle_bool e2 e0) eqn:F2; cbn [negb bind].
    + apply Qle_bool_iff in F2. exists 0%nat. repeat split; auto.
    + assert (e0 < e2)%Q.
      { apply Qnot_le_lt. intros H. apply Qle_bool_iff in H. congruence. }
      exists 2%nat. repeat split; auto. right; right. repeat split; auto. lra.
  - assert (e0 < e1)%Q.
    { apply Qnot_le_lt. intros H. apply Qle_bool_iff in H. congruence. }
    destruct (Qle_bool e2 e1) eqn:F2; cbn [negb bind].
    + apply Qle_bool_iff in F2. exists 1%nat. repeat split; auto.
    + assert (e1 < e2)%Q.
      { apply Qnot_le_lt. intros H'. apply Qle_bool_iff in H'. congruence. }
      exists 2%nat. repeat split; auto. right; right. repeat split; auto. lra.
Qed.

(** C9, as far as it holds.  Cards that occur twice among own cards and
    board are not detected: on tokens of the deck, two or three own cards and a
    board of at most seven cards but not two, the query returns an estimate,
    and the simulator run with a positive iteration count returns one between
    0 and 1. *)
Theorem duplicates_not_rejected (p : player rng_state) (my_cards board : list card)
    (street iterations : Z) :
  ~ NoDup (my_cards ++ board) ->
  List.length my_cards = 2%nat \/ List.length my_cards = 3%nat ->
  incl my_cards full_deck -> incl board full_deck ->
  List.length board <> 2%nat -> (List.length board <= 7)%nat ->
  (exists e p',
     calculate_equity shuffle p my_cards board street iterations = Ok (e, p'))
  /\ (1 <= iterations ->
      exists e g',
        calculate_equity_python shuffle (rng p) my_cards board iterations = Ok (e, g')
        /\ (0 <= e)%Q /\ (e <= 1)%Q).
Proof.
  intros _ LM IM IB NB LB. split.
  - destruct (calculate_equity_total p my_cards board street iterations LM IM IB NB LB)
      as [e [p' [E _]]]. eauto.
  - intros LI. now apply (calculate_equity_python_total rng_state shuffle shuffle_permutes).
Qed.

(** C3 fails on a 2-card board.  With own cards Ah Kd 2c and board Ac Ks the
    own-hand reduction scores the 4-card pool Ah Kd Ac Ks, and the
    classifier's two-pair case takes the maximum of no kicker: for every
    positive iteration count, whatever the generator does, the simulator
    raises ValueError and returns no estimate. *)
Theorem two_pair_pool_raises (g : rng_state) (iterations : Z) :
  1 <= iterations ->
  calculate_equity_python shuffle g ["Ah"; "Kd"; "2c"] ["Ac"; "Ks"] iterations
  = Raise ValueError.
Proof.
  intros LI. unfold calculate_equity_python. cbv zeta.
  destruct (Z.to_nat iterations) as [|n] eqn:EN; [lia|].
  cbn [sim_loop]. unfold sim_iteration.
  match goal with
  | |- context [shuffle g ?d] => remember d as deck eqn:ED
  end.
  assert (LD : (9 <= List.length deck)%nat) by (rewrite ED; vm_compute; lia).
  clear ED.
  pose proof (shuffle_permutes g deck) as P.
  destruct (shuffle g deck) as [deck' g']. simpl in P.
  assert (LD' : (9 <= List.length deck')%nat)
    by (rewrite <- (Permutation_length P); exact LD).
  destruct (getitem_lt deck' 0) as [o0 [E0 _]]; [lia|].
  destruct (getitem_lt deck' 1) as [o1 [E1 _]]; [lia|].
  destruct (getitem_lt deck' 2) as [o2 [E2 _]]; [lia|].
  cbn [Nat.add]. rewrite E0. cbn [bind]. rewrite E1. cbn [bind]. rewrite E2. cbn [bind].
  reflexivity.
Qed.

End QueryProperties.

Lemma shuffle_id_permutes (g : unit) (deck : list card) :
  Permutation deck (fst (shuffle_id g deck)).
Proof. apply Permutation_refl. Qed.

Lemma shuffle_rev_permutes (g : unit) (deck : list card) :
  Permutation deck (fst (shuffle_rev g deck)).
Proof. apply Permutation_rev. Qed.

Lemma two_pair_pool_raises_witness :
  1 <= 40
  /\ calculate_equity_python shuffle_rev tt ["Ah"; "Kd"; "2c"] ["Ac"; "Ks"] 40
     = Raise ValueError.
Proof.
  split; [lia|].
  apply (two_pair_pool_raises unit shuffle_rev shuffle_rev_permutes tt 40). lia.
Defined.

(** C7 fails on a 2-card board.  For the hand Ah Kd 2c and the board Ac Ks
    the third retention, Ah Kd, makes a 4-card pool of two pair; the search
    hands it to the classifier, which raises ValueError, and the reduction
    returns no retention. *)
Theorem reduction_raises_on_two_pair_pool :
  eval7 (["Kd"; "2c"] ++ ["Ac"; "Ks"]) = Ok [PInt 1; PInt 13; PTup [14; 2]]
  /\ eval7 (["Ah"; "2c"] ++ ["Ac"; "Ks"]) = Ok [PInt 1; PInt 14; PTup [13; 2]]
  /\ eval7 (["Ah"; "Kd"] ++ ["Ac"; "Ks"]) = Raise ValueError
  /\ best_two_from_three ["Ah"; "Kd"; "2c"] ["Ac"; "Ks"] = Raise ValueError.
Proof. repeat split; reflexivity. Qed.

(** C5 fails on a 1-card board.  With private cards Ah 2c 3d and board As,
    the first candidate puts Ah on the board; when the generator's shuffle
    leaves Ad, Ac, Ks on top of the deck, the opponent's retention Ad Ac
    makes a 4-card pool of four aces, the classifier raises ValueError in its
    four-of-a-kind case, and the selector returns no index. *)
Theorem discard_raises_on_one_card_board :
  get_best_discard shuffle_rev (mk_player tt []) ["Ah"; "2c"; "3d"] ["As"]
  = Raise ValueError
  /\ eval7 (["Ad"; "Ac"] ++ ["As"; "Ah"]) = Raise ValueError.
Proof. split; vm_compute; reflexivity. Qed.

(** C9 as stated fails: Ah is both an own card and a board card, and the
    query and the simulator both return an estimate. *)
Lemma duplicate_card_accepted :
  ~ NoDup (["Ah"; "Kd"] ++ ["Ah"; "2c"; "3d"])
  /\ (exists e p',
        calculate_equity shuffle_id (mk_player tt []) ["Ah"; "Kd"] ["Ah"; "2c"; "3d"] 3 60
        = Ok (e, p'))
  /\ (exists e g',
        calculate_equity_python shuffle_id tt ["Ah"; "Kd"] ["Ah"; "2c"; "3d"] 60
        = Ok (e, g')).
Proof.
  split.
  - intros H. apply NoDup_cons_iff in H. destruct H as [H _].
    apply H. simpl. auto.
  - split; eexists; eexists; vm_compute; reflexivity.
Qed.

Lemma duplicates_not_rejected_witness :
  ~ NoDup (["Ah"; "Kd"] ++ ["Ah"; "2c"; "3d"])
  /\ (exists e p',
        calculate_equity shuffle_id (mk_player tt []) ["Ah"; "Kd"] ["Ah"; "2c"; "3d"] 3 60
        = Ok (e, p'))
  /\ (1 <= 60 ->
      exists e g',
        calculate_equity_python shuffle_id tt ["Ah"; "Kd"] ["Ah"; "2c"; "3d"] 60
        = Ok (e, g') /\ (0 <= e)%Q /\ (e <= 1)%Q).
Proof.
  assert (D : ~ NoDup (["Ah"; "Kd"] ++ ["Ah"; "2c"; "3d"])).
  { intros H. apply NoDup_cons_iff in H. destruct H as [H _].
    apply H. simpl. auto. }
  split; [exact D|].
  apply (duplicates_not_rejected unit shuffle_id shuffle_id_permutes
           (mk_player tt []) ["Ah"; "Kd"] ["Ah"; "2c"; "3d"] 3 60).
  - exact D.
  - left. reflexivity.
  - intros c Hc. simpl in Hc. vm_compute. intuition.
  - intros c Hc. simpl in Hc. vm_compute. intuition.
  - simpl. lia.
  - simpl. lia.
Defined.

(** * Further properties of the evaluator and the simulator *)

(** ** The order of the cards does not matter to the evaluator *)

Lemma insert_desc_comm (x y : Z) (l : list Z) :
  insert_desc x (insert_desc y l) = insert_desc y (insert_desc x l).
Proof.
  induction l as [|z l IH]; cbn [insert_desc].
  - destruct (Z.gtb_spec y x), (Z.gtb_spec x y); try reflexivity; try lia.
    assert (x = y) by lia. now subst.
  - destruct (Z.gtb_spec z y), (Z.gtb_spec z x); cbn [insert_desc];
      repeat match goal with
             | |- context [?a >? ?b] => destruct (Z.gtb_spec a b); try lia
             end; try reflexivity.
    + now rewrite IH.
    + assert (x = y) by lia. now subst.
Qed.

Lemma sorted_desc_permutation (l l' : list Z) :
  Permutation l l' -> sorted_desc l = sorted_desc l'.
Proof.
  induction 1 as [|x l l' P IH|x y l|l l' l'' P1 IH1 P2 IH2]; simpl.
  - reflexivity.
  - fold (sorted_desc l) (sorted_desc l'). now rewrite IH.
  - apply insert_desc_comm.
  - congruence.
Qed.

Lemma set_of_chars_length_permutation (l l' : list ascii) :
  Permutation l l' ->
  List.length (set_of_chars l) = List.length (set_of_chars l').
Proof.
  intros P. unfold set_of_chars. apply Nat.le_antisymm; apply NoDup_incl_length;
    try apply NoDup_nodup; intros x Hx; apply nodup_In; apply nodup_In in Hx.
  - now apply (Permutation_in x P).
  - now apply (Permutation_in x (Permutation_sym P)).
Qed.

Lemma eval5_permutation (cs cs' : list card) :
  incl cs full_deck -> Permutation cs cs' -> eval5 cs = eval5 cs'.
Proof.
  intros I P.
  assert (I' : incl cs' full_deck).
  { intros c Hc. apply I. now apply (Permutation_in c (Permutation_sym P)). }
  rewrite (eval5_deck cs I), (eval5_deck cs' I').
  rewrite (sorted_desc_permutation _ _ (Permutation_map card_rank P)).
  now rewrite (set_of_chars_length_permutation _ _ (Permutation_map card_suit P)).
Qed.

(** X1.  On cards of the deck the 5-card classifier gives the same result,
    score or exception, for every order of its input. *)
Theorem eval5_order_independent (cs cs' : list card) :
  incl cs full_deck -> Permutation cs cs' -> eval5 cs = eval5 cs'.
Proof. apply eval5_permutation. Qed.

Lemma eval5_order_independent_witness :
  eval5 ["8s"; "8d"; "8c"; "2h"; "2s"] = eval5 ["2s"; "2h"; "8c"; "8d"; "8s"].
Proof.
  apply eval5_order_independent.
  - intros c Hc. simpl in Hc. vm_compute. intuition.
  - apply (Permutation_rev ["8s"; "8d"; "8c"; "2h"; "2s"]).
Defined.

Lemma subseq_trans {A : Type} (h m l : list A) :
  subseq h m -> subseq m l -> subseq h l.
Proof.
  intros H1 H2. revert h H1.
  induction H2 as [|x m l S IH|x m l S IH]; intros h H1.
  - exact H1.
  - inversion H1; subst.
    + constructor. now apply IH.
    + apply subseq_skip. now apply IH.
  - apply subseq_skip. now apply IH.
Qed.

Lemma subseq_refl {A : Type} (l : list A) : subseq l l.
Proof. induction l; constructor; assumption. Qed.

Lemma subseq_length {A : Type} (h l : list A) :
  subseq h l -> (List.length h <= List.length l)%nat.
Proof. induction 1; simpl; lia. Qed.

(** A selection from a list corresponds to a selection, of the same cards,
    from any reordering of the list. *)
Lemma subseq_permutation {A : Type} (l l' : list A) :
  Permutation l l' ->
  forall h, subseq h l -> exists h', subseq h' l' /\ Permutation h h'.
Proof.
  induction 1 as [|x l l' P IH|x y l|l l' l'' P1 IH1 P2 IH2]; intros h S.
  - inversion S; subst. exists []. split; constructor.
  - inversion S; subst.
    + destruct (IH _ H1) as [h' [S' P']]. exists (x :: h'). split; now constructor.
    + destruct (IH _ H1) as [h' [S' P']]. exists h'. split; [now constructor|exact P'].
  - inversion S as [|? h1 ? S1|? ? ? S1]; subst.
    + inversion S1 as [|? h2 ? S2|? ? ? S2]; subst.
      * exists (x :: y :: h2). split; [now repeat constructor|apply perm_swap].
      * exists (y :: h1). split; [|apply Permutation_refl].
        apply subseq_skip. now constructor.
    + inversion S1 as [|? h2 ? S2|? ? ? S2]; subst.
      * exists (x :: h2). split; [|apply Permutation_refl].
        constructor. now apply subseq_skip.
      * exists h. split; [|apply Permutation_refl]. now repeat apply subseq_skip.
  - destruct (IH1 _ S) as [h1 [S1 Q1]]. destruct (IH2 _ S1) as [h2 [S2 Q2]].
    exists h2. split; [exact S2|]. now apply (perm_trans Q1).
Qed.

Lemma score_le_antisym (a b : score) :
  shaped a = true -> shaped b = true -> score_le a b -> score_le b a -> a = b.
Proof.
  unfold score_le. intros Sa Sb Hab Hba.
  destruct (shaped_gt_total a b Sa Sb) as [E|[G|G]]; [exact E|congruence|congruence].
Qed.

(** The best score of a pool is not above the best score of any pool that
    holds the same five-card hands up to order. *)
Lemma eval7_max_le (cards cards' : list card) (best best' : score) :
  incl cards full_deck -> incl cards' full_deck ->
  (5 < List.length cards)%nat -> (5 < List.length cards')%nat ->
  (forall h, subseq h cards -> exists h', subseq h' cards' /\ Permutation h h') ->
  eval7 cards = Ok best -> eval7 cards' = Ok best' -> score_le best best'.
Proof.
  intros I I' L L' Sel E E'.
  destruct (eval7_max cards I L) as [b [Eb [_ [[h [Hin Eh]] _]]]].
  destruct (eval7_max cards' I' L') as [b' [Eb' [_ [_ Hall]]]].
  rewrite E in Eb. injection Eb as <-. rewrite E' in Eb'. injection Eb' as <-.
  apply combinations_subseq in Hin. destruct Hin as [Sh Lh].
  destruct (Sel h Sh) as [h' [Sh' Ph]].
  apply (Hall h').
  - apply combinations_subseq. split; [exact Sh'|].
    rewrite <- (Permutation_length Ph). exact Lh.
  - rewrite <- Eh. symmetry. apply eval5_permutation; [|exact Ph].
    intros c Hc. apply I. now apply (subseq_incl h cards).
Qed.

Lemma eval7_permutation (cards cards' : list card) :
  incl cards full_deck -> Permutation cards cards' -> eval7 cards = eval7 cards'.
Proof.
  intros I P.
  assert (I' : incl cards' full_deck).
  { intros c Hc. apply I. now apply (Permutation_in c (Permutation_sym P)). }
  pose proof (Permutation_length P) as LP.
  destruct (Nat.le_gt_cases (List.length cards) 5) as [L|L].
  - unfold eval7. rewrite <- LP.
    destruct (Nat.leb_spec (List.length cards) 5) as [_|L']; [|lia].
    now apply eval5_permutation.
  - assert (L' : (5 < List.length cards')%nat) by lia.
    destruct (eval7_max cards I L) as [b [Eb [Sb _]]].
    destruct (eval7_max cards' I' L') as [b' [Eb' [Sb' _]]].
    rewrite Eb, Eb'. f_equal. apply score_le_antisym; auto.
    + apply (eval7_max_le cards cards'); auto.
      now apply subseq_permutation.
    + apply (eval7_max_le cards' cards); auto.
      apply subseq_permutation. now apply Permutation_sym.
Qed.

(** X2.  On cards of the deck the best-hand search gives the same result,
    score or exception, for every order of its input. *)
Theorem eval7_order_independent (cards cards' : list card) :
  incl cards full_deck -> Permutation cards cards' -> eval7 cards = eval7 cards'.
Proof. apply eval7_permutation. Qed.

Lemma eval7_order_independent_witness :
  eval7 ["Ah"; "Kd"; "2c"; "3d"; "9h"; "9s"; "Kc"; "4d"]
  = eval7 ["4d"; "Kc"; "9s"; "9h"; "3d"; "2c"; "Kd"; "Ah"].
Proof.
  apply eval7_order_independent.
  - intros c Hc. simpl in Hc. vm_compute. intuition.
  - apply (Permutation_rev ["Ah"; "Kd"; "2c"; "3d"; "9h"; "9s"; "Kc"; "4d"]).
Defined.

(** X3.  A pool of five or more cards of the deck that is extended by
    further cards of the deck, at any positions, never gets a lower best
    score. *)
Theorem eval7_more_cards_not_worse (cards cards' : list card) :
  incl cards' full_deck -> subseq cards cards' -> (5 <= List.length cards)%nat ->
  exists v v', eval7 cards = Ok v /\ eval7 cards' = Ok v'
               /\ score_gt v v' = Ok false
               /\ (v = v' \/ score_gt v' v = Ok true).
Proof.
  intros I' S L.
  assert (I : incl cards full_deck).
  { intros c Hc. apply I'. now apply (subseq_incl cards cards'). }
  pose proof (subseq_length _ _ S) as LS.
  destruct (eval7_total cards I) as [v [E Sv]]; [lia|lia|].
  destruct (eval7_total cards' I') as [v' [E' Sv']]; [lia|lia|].
  exists v, v'. split; [exact E|]. split; [exact E'|].
  assert (Le : score_le v v').
  { (* some 5-card selection of [cards] attains [v] *)
    assert (A : exists h, subseq h cards /\ List.length h = 5%nat /\ eval5 h = Ok v).
    { destruct (Nat.eq_dec (List.length cards) 5) as [E5|N5].
      - exists cards. split; [apply subseq_refl|]. split; [exact E5|].
        unfold eval7 in E. now rewrite E5 in E.
      - destruct (eval7_max cards I) as [b [Eb [_ [[h [Hin Eh]] _]]]]; [lia|].
        rewrite E in Eb. injection Eb as <-.
        apply combinations_subseq in Hin. exists h. tauto. }
    destruct A as [h [Sh [Lh Eh]]].
    pose proof (subseq_trans _ _ _ Sh S) as Sh'.
    destruct (Nat.eq_dec (List.length cards') 5) as [E5|N5].
    - assert (Hin : In h (combinations cards' 5)) by (now apply combinations_subseq).
      rewrite <- E5, combinations_all in Hin. destruct Hin as [<-|[]].
      unfold eval7 in E'. rewrite E5 in E'. simpl in E'.
      rewrite Eh in E'. injection E' as <-. apply score_le_refl.
    - destruct (eval7_max cards' I') as [b' [Eb' [_ [_ Hall]]]]; [lia|].
      rewrite E' in Eb'. injection Eb' as <-.
      apply (Hall h); [|exact Eh]. now apply combinations_subseq. }
  split; [exact Le|]. now apply score_le_cases.
Qed.

Lemma eval7_more_cards_not_worse_witness :
  exists v v',
    eval7 ["Ah"; "2c"; "3d"; "9s"; "4d"] = Ok v
    /\ eval7 ["Ah"; "Kd"; "2c"; "3d"; "9h"; "9s"; "Kc"; "4d"] = Ok v'
    /\ score_gt v v' = Ok false
    /\ (v = v' \/ score_gt v' v = Ok true).
Proof.
  apply eval7_more_cards_not_worse.
  - intros c Hc. simpl in Hc. vm_compute. intuition.
  - apply subseq_take, subseq_skip, subseq_take, subseq_take, subseq_skip,
      subseq_take, subseq_skip, subseq_take, subseq_nil.
  - simpl. lia.
Defined.

(** ** What the simulator returns *)

Ltac bind_inv H :=
  repeat match type of H with
         | bind ?m _ = Ok _ =>
             let E := fresh "E" in
             destruct m eqn:E; cbn [bind] in H; [|discriminate H]
         | (let '(_, _) := ?x in _) = Ok _ => destruct x
         end.

Section SimulatorResults.

Variable rng_state : Type.
Variable shuffle : rng_state -> list card -> list card * rng_state.

Lemma sim_iteration_wins (my_cards board deck deck' : list card)
    (g g' : rng_state) (wins wins' : Q) :
  sim_iteration shuffle my_cards board deck g wins = Ok (deck', g', wins') ->
  deck' = fst (shuffle g deck)
  /\ (wins' = (wins + 1)%Q \/ wins' = (wins + (1 # 2))%Q \/ wins' = wins).
Proof.
  unfold sim_iteration. intros H.
  destruct (shuffle g deck) as [dk g0]. simpl.
  bind_inv H.
  repeat match type of H with
         | (if ?c then _ else _) = _ => destruct c
         end; injection H as <- <- <-; auto.
Qed.

Lemma sim_loop_wins (n : nat) (my_cards board deck : list card)
    (g g' : rng_state) (wins wins' : Q) :
  sim_loop shuffle n my_cards board deck g wins = Ok (g', wins') ->
  (wins <= wins')%Q /\ (wins' <= wins + inject_Z (Z.of_nat n))%Q.
Proof.
  revert deck g wins. induction n as [|n IH]; intros deck g wins H.
  - simpl in H. injection H as <- <-. simpl. unfold inject_Z. split; lra.
  - cbn [sim_loop] in H.
    destruct (sim_iteration shuffle my_cards board deck g wins)
      as [[[d1 g1] w1]|x] eqn:E; cbn [bind] in H; [|discriminate H].
    apply sim_iteration_wins in E. destruct E as [_ W].
    apply IH in H. destruct H as [Lo Hi].
    rewrite Nat2Z.inj_succ. unfold Z.succ. rewrite inject_Z_plus.
    change (inject_Z 1) with 1%Q.
    destruct W as [-> | [-> | ->]]; split; lra.
Qed.

(** Whatever the cards, the board and the generator: an estimate the
    simulator returns is between 0 and 1. *)
Lemma calculate_equity_python_range (g g' : rng_state) (my_cards board : list card)
    (iterations : Z) (e : Q) :
  calculate_equity_python shuffle g my_cards board iterations = Ok (e, g') ->
  (0 <= e)%Q /\ (e <= 1)%Q.
Proof.
  unfold calculate_equity_python. intros H.
  match type of H with
  | bind ?m _ = _ => destruct m as [[g1 w]|x] eqn:E; cbn [bind] in H; [|discriminate H]
  end.
  destruct (Z.eqb_spec iterations 0) as [Z0|NZ]; [discriminate H|].
  injection H as <- <-.
  apply sim_loop_wins in E. destruct E as [Lo Hi].
  destruct (Z_lt_le_dec iterations 0) as [Neg|Pos].
  - assert (N0 : Z.to_nat iterations = 0%nat) by lia.
    rewrite N0 in Hi. simpl in Hi. unfold inject_Z in Hi.
    assert (W : (w == 0)%Q) by (apply Qle_antisym; lra).
    assert (D : (w / inject_Z iterations == 0)%Q).
    { rewrite W. unfold Qdiv. apply Qmult_0_l. }
    rewrite D. split; lra.
  - rewrite Z2Nat.id in Hi by lia.
    assert (P : (0 < inject_Z iterations)%Q).
    { change 0%Q with (inject_Z 0). rewrite <- Zlt_Qlt. lia. }
    split.
    + apply Qle_shift_div_l; [exact P|]. lra.
    + apply Qle_shift_div_r; [exact P|]. lra.
Qed.

(** The cache keeps holding probabilities only, whatever is queried. *)
Lemma calculate_equity_keeps_ok (p p' : player rng_state) (my_cards board : list card)
    (street iterations : Z) (e : Q) :
  cache_ok (eq_cache p) ->
  calculate_equity shuffle p my_cards board street iterations = Ok (e, p') ->
  (0 <= e)%Q /\ (e <= 1)%Q /\ cache_ok (eq_cache p').
Proof.
  intros C H.
  destruct (cache_get (eq_cache p) (make_key my_cards board street iterations))
    as [c|] eqn:G.
  - rewrite (calculate_equity_hit _ shuffle _ _ _ _ _ _ G) in H.
    injection H as <- <-. destruct (C _ _ G). auto.
  - rewrite (calculate_equity_miss _ shuffle _ _ _ _ _ G) in H.
    destruct (calculate_equity_python shuffle (rng p) my_cards board
                (it_bucket iterations)) as [[eq g']|x] eqn:E; simpl in H;
      [|discriminate H].
    injection H as <- <-. apply calculate_equity_python_range in E.
    destruct E as [E0 E1]. split; [exact E0|]. split; [exact E1|].
    simpl. now apply cache_ok_set.
Qed.

Lemma discard_loop_keeps_ok (idxs : list nat) (my_cards board : list card) (iters : Z)
    (p p' : player rng_state) (best_idx idx : nat) (best_eq : Q) :
  cache_ok (eq_cache p) ->
  discard_loop shuffle idxs my_cards board iters p best_idx best_eq = Ok (idx, p') ->
  cache_ok (eq_cache p') /\ (idx = best_idx \/ In idx idxs).
Proof.
  revert p best_idx best_eq. induction idxs as [|i rest IH]; intros p bi be C H.
  - simpl in H. injection H as <- <-. auto.
  - cbn [discard_loop] in H. bind_inv H.
    match goal with
    | E : calculate_equity _ _ _ _ _ _ = Ok (_, ?p1) |- _ =>
        apply (calculate_equity_keeps_ok p p1) in E; [|exact C];
        destruct E as [_ [_ C1]]
    end.
    match type of H with
    | (if ?c then _ else _) = _ => destruct c
    end; apply IH in H; try exact C1;
      destruct H as [C' [->|I]]; simpl; auto.
Qed.

End SimulatorResults.

(** X4.  With a generator whose shuffle permutes the deck, on cards of the
    deck, two or three own cards, a board of at most seven cards but not two,
    and a positive iteration count, the simulator returns an estimate, and the
    estimate is between 0 and 1. *)
Theorem simulator_returns_probability (rng_state : Type)
    (shuffle : rng_state -> list card -> list card * rng_state)
    (g : rng_state) (my_cards board : list card) (iterations : Z) :
  (forall g deck, Permutation deck (fst (shuffle g deck))) ->
  List.length my_cards = 2%nat \/ List.length my_cards = 3%nat ->
  incl my_cards full_deck -> incl board full_deck ->
  List.length board <> 2%nat -> (List.length board <= 7)%nat ->
  1 <= iterations ->
  exists e g',
    calculate_equity_python shuffle g my_cards board iterations = Ok (e, g')
    /\ (0 <= e)%Q /\ (e <= 1)%Q.
Proof. intros P. now apply calculate_equity_python_total. Qed.

Lemma simulator_returns_probability_witness :
  exists e g',
    calculate_equity_python shuffle_rev tt ["Ah"; "Kd"; "7c"] ["2c"; "3d"; "9h"; "Ks"] 25
    = Ok (e, g')
    /\ (0 <= e)%Q /\ (e <= 1)%Q.
Proof.
  apply simulator_returns_probability.
  - apply shuffle_rev_permutes.
  - right. reflexivity.
  - intros c Hc. simpl in Hc. vm_compute. intuition.
  - intros c Hc. simpl in Hc. vm_compute. intuition.
  - simpl. lia.
  - simpl. lia.
  - lia.
Defined.

(** X5.  For every input and every generator: an estimate that the cached
    query returns is between 0 and 1, and a cache that holds only such
    estimates still does so afterwards. *)
Theorem cache_holds_probabilities (rng_state : Type)
    (shuffle : rng_state -> list card -> list card * rng_state)
    (p p' : player rng_state) (my_cards board : list card)
    (street iterations : Z) (e : Q) :
  cache_ok (eq_cache p) ->
  calculate_equity shuffle p my_cards board street iterations = Ok (e, p') ->
  (0 <= e)%Q /\ (e <= 1)%Q /\ cache_ok (eq_cache p').
Proof. apply calculate_equity_keeps_ok. Qed.

Lemma cache_holds_probabilities_witness :
  exists e p',
    calculate_equity shuffle_rev (mk_player tt []) ["Ah"; "Kd"] ["2c"; "3d"; "9h"] 3 50
    = Ok (e, p')
    /\ (0 <= e)%Q /\ (e <= 1)%Q /\ cache_ok (eq_cache p').
Proof.
  destruct (calculate_equity shuffle_rev (mk_player tt [])
              ["Ah"; "Kd"] ["2c"; "3d"; "9h"] 3 50) as [[e p']|x] eqn:E;
    [|vm_compute in E; discriminate E].
  exists e, p'. split; [reflexivity|].
  apply (cache_holds_probabilities unit shuffle_rev (mk_player tt []) p'
           ["Ah"; "Kd"] ["2c"; "3d"; "9h"] 3 50 e).
  - apply cache_ok_empty.
  - exact E.
Defined.

(** X6.  For every input and every generator: whenever the discard selector
    returns, the index it returns is 0, 1 or 2, and a cache that holds only
    probabilities still does so afterwards. *)
Theorem discard_index_in_range (rng_state : Type)
    (shuffle : rng_state -> list card -> list card * rng_state)
    (p p' : player rng_state) (my_cards board : list card) (idx : nat) :
  cache_ok (eq_cache p) ->
  get_best_discard shuffle p my_cards board = Ok (DiscardAction idx, p') ->
  (idx < 3)%nat /\ cache_ok (eq_cache p').
Proof.
  intros C H. unfold get_best_discard in H.
  match type of H with
  | bind ?m _ = _ => destruct m as [[i q]|x] eqn:E; cbn [bind] in H; [|discriminate H]
  end.
  injection H as <- <-.
  apply discard_loop_keeps_ok in E; [|exact C].
  destruct E as [C' I]. split; [|exact C'].
  simpl in I. lia.
Qed.

Lemma discard_index_in_range_witness :
  exists idx p',
    get_best_discard shuffle_rev (mk_player tt []) ["Ah"; "2c"; "3d"] ["As"; "7d"]
    = Ok (DiscardAction idx, p')
    /\ (idx < 3)%nat /\ cache_ok (eq_cache p').
Proof.
  destruct (get_best_discard shuffle_rev (mk_player tt [])
              ["Ah"; "2c"; "3d"] ["As"; "7d"]) as [[[idx] p']|x] eqn:E;
    [|vm_compute in E; discriminate E].
  exists idx, p'. split; [reflexivity|].
  apply (discard_index_in_range unit shuffle_rev (mk_player tt []) p'
           ["Ah"; "2c"; "3d"] ["As"; "7d"] idx).
  - apply cache_ok_empty.
  - exact E.
Defined.

(** ** The order of the board does not matter to the simulator *)

Lemma mapM_getitem_incl {A : Type} (l : list A) (idxs : list nat) (r : list A) :
  mapM (getitem l) idxs = Ok r -> incl r l.
Proof.
  revert r. induction idxs as [|i idxs IH]; intros r H.
  - simpl in H. injection H as <-. intros x [].
  - cbn [mapM] in H. bind_inv H. injection H as <-.
    intros x [<-|Hx].
    + unfold getitem in E. destruct (nth_error l i) eqn:N; [|discriminate E].
      injection E as <-. now apply nth_error_In in N.
    + now apply (IH _ eq_refl).
Qed.

Lemma keep_of_incl (cards3 : list card) (i : nat) (keep : list card) :
  keep_of cards3 i = Ok keep -> incl keep cards3.
Proof. apply mapM_getitem_incl. Qed.

Lemma best_two_loop_board (cards3 board board' : list card) (drops : list nat)
    (best : option (score * list card)) :
  (forall keep, incl keep cards3 -> eval7 (keep ++ board) = eval7 (keep ++ board')) ->
  best_two_loop cards3 board drops best = best_two_loop cards3 board' drops best.
Proof.
  intros H. revert best. induction drops as [|d drops IH]; intros best; [reflexivity|].
  cbn [best_two_loop]. destruct (keep_of cards3 d) as [keep|x] eqn:K; cbn [bind];
    [|reflexivity].
  rewrite (H keep (keep_of_incl _ _ _ K)).
  destruct (eval7 (keep ++ board')) as [sc|x]; cbn [bind]; [|reflexivity].
  destruct (match best with
            | Some (best_score, _) => score_gt sc best_score
            | None => Ok true
            end) as [b|x]; cbn [bind]; [apply IH|reflexivity].
Qed.

Lemma best_two_from_three_board (cards3 board board' : list card) :
  incl cards3 full_deck -> incl board full_deck -> Permutation board board' ->
  best_two_from_three cards3 board = best_two_from_three cards3 board'.
Proof.
  intros I IB P. unfold best_two_from_three.
  rewrite (best_two_loop_board cards3 board board'); [reflexivity|].
  intros keep K. apply eval7_permutation.
  - apply incl_app; [|exact IB]. intros c Hc. now apply I, K.
  - now apply Permutation_app_head.
Qed.

Lemma best_two_loop_keep (cards3 board : list card) (drops : list nat)
    (best : option (score * list card)) (s : score) (k : list card) :
  (forall s' k', best = Some (s', k') -> incl k' cards3) ->
  best_two_loop cards3 board drops best = Ok (Some (s, k)) -> incl k cards3.
Proof.
  revert best. induction drops as [|d drops IH]; intros best B H.
  - simpl in H. injection H as ->. now apply (B s k).
  - cbn [best_two_loop] in H. bind_inv H.
    match goal with E : keep_of _ _ = Ok ?kp |- _ =>
      pose proof (keep_of_incl _ _ _ E) as K
    end.
    apply IH in H; [exact H|].
    intros s' k' Eq.
    match type of Eq with
    | (if ?c then _ else _) = _ => destruct c
    end; [injection Eq as <- <-; exact K|now apply (B s' k')].
Qed.

Lemma best_two_from_three_incl (cards3 board keep : list card) :
  best_two_from_three cards3 board = Ok keep -> incl keep cards3.
Proof.
  unfold best_two_from_three. intros H. bind_inv H.
  destruct a as [[s k]|]; [|discriminate H]. injection H as <-.
  match goal with E : best_two_loop _ _ _ _ = _ |- _ =>
    apply best_two_loop_keep in E; [exact E|discriminate]
  end.
Qed.

Lemma runout_board (fuel : nat) (deck : list card) (d : nat) (sb sb' : list card) :
  Permutation sb sb' ->
  match runout fuel deck d sb, runout fuel deck d sb' with
  | Ok (s1, d1), Ok (s2, d2) =>
      d1 = d2 /\ Permutation s1 s2 /\ incl s1 (sb ++ deck)
  | Raise e1, Raise e2 => e1 = e2
  | _, _ => False
  end.
Proof.
  revert d sb sb'. induction fuel as [|fuel IH]; intros d sb sb' P.
  - simpl. split; [reflexivity|]. split; [exact P|]. apply incl_appl, incl_refl.
  - cbn [runout]. destruct (getitem deck d) as [c|x] eqn:G; cbn [bind]; [|reflexivity].
    specialize (IH (S d) (sb ++ [c]) (sb' ++ [c]) (Permutation_app_tail [c] P)).
    destruct (runout fuel deck (S d) (sb ++ [c])) as [[s1 d1]|e1];
      destruct (runout fuel deck (S d) (sb' ++ [c])) as [[s2 d2]|e2]; try exact IH.
    destruct IH as [Ed [Ps Inc]]. split; [exact Ed|]. split; [exact Ps|].
    intros y Hy. apply Inc in Hy. rewrite !in_app_iff in Hy. rewrite in_app_iff.
    destruct Hy as [[Hy|[<-|[]]]|Hy]; auto.
    right. unfold getitem in G. destruct (nth_error deck d) eqn:N; [|discriminate G].
    injection G as <-. now apply nth_error_In in N.
Qed.

Lemma existsb_permutation {A : Type} (f : A -> bool) (l l' : list A) :
  Permutation l l' -> existsb f l = existsb f l'.
Proof.
  intros P. apply eq_true_iff_eq. rewrite !existsb_exists.
  split; intros [x [Hx Fx]]; exists x; split; auto.
  - now apply (Permutation_in x P).
  - now apply (Permutation_in x (Permutation_sym P)).
Qed.

Section BoardOrder.

Variable rng_state : Type.
Variable shuffle : rng_state -> list card -> list card * rng_state.
Hypothesis shuffle_permutes :
  forall g deck, Permutation deck (fst (shuffle g deck)).

Lemma sim_iteration_board (my_cards board board' deck : list card) (g : rng_state)
    (wins : Q) :
  incl my_cards full_deck -> incl board full_deck -> incl deck full_deck ->
  Permutation board board' ->
  sim_iteration shuffle my_cards board deck g wins
  = sim_iteration shuffle my_cards board' deck g wins.
Proof.
  intros IM IB ID P. unfold sim_iteration.
  pose proof (shuffle_permutes g deck) as PD.
  destruct (shuffle g deck) as [dk g0]. simpl in PD.
  assert (IK : incl dk full_deck).
  { intros c Hc. apply ID. now apply (Permutation_in c (Permutation_sym PD)). }
  cbn [Nat.add].
  destruct (getitem dk 0) as [o0|x] eqn:G0; cbn [bind]; [|reflexivity].
  destruct (getitem dk 1) as [o1|x] eqn:G1; cbn [bind]; [|reflexivity].
  destruct (getitem dk 2) as [o2|x] eqn:G2; cbn [bind]; [|reflexivity].
  assert (IO : incl [o0; o1; o2] full_deck).
  { assert (In' : forall i o, getitem dk i = Ok o -> In o full_deck).
    { intros i o G. apply IK. unfold getitem in G.
      destruct (nth_error dk i) eqn:N; [|discriminate G].
      injection G as <-. now apply nth_error_In in N. }
    intros c [<-|[<-|[<-|[]]]]; eauto. }
  rewrite <- (best_two_from_three_board my_cards board board' IM IB P).
  rewrite <- (best_two_from_three_board [o0; o1; o2] board board' IO IB P).
  rewrite <- (Permutation_length P).
  destruct (if (List.length my_cards =? 3)%nat
            then best_two_from_three my_cards board else Ok my_cards)
    as [my2|x] eqn:EM; cbn [bind]; [|reflexivity].
  assert (IM2 : incl my2 full_deck).
  { destruct (List.length my_cards =? 3)%nat.
    - apply best_two_from_three_incl in EM. intros c Hc. now apply IM, EM.
    - injection EM as <-. exact IM. }
  destruct (best_two_from_three [o0; o1; o2] board) as [opp2|x] eqn:EO; cbn [bind];
    [|reflexivity].
  assert (IO2 : incl opp2 full_deck).
  { apply best_two_from_three_incl in EO. intros c Hc. now apply IO, EO. }
  pose proof (runout_board (6 - List.length board) dk 3 board board' P) as R.
  destruct (runout (6 - List.length board) dk 3 board) as [[s1 d1]|e1];
    destruct (runout (6 - List.length board) dk 3 board') as [[s2 d2]|e2];
    try contradiction; cbn [bind]; [|now subst].
  destruct R as [_ [Ps Inc]].
  assert (IS1 : incl s1 full_deck).
  { intros c Hc. apply Inc in Hc. apply in_app_iff in Hc.
    destruct Hc; [now apply IB|now apply IK]. }
  rewrite <- (eval7_permutation (my2 ++ s1) (my2 ++ s2));
    [|now apply incl_app|now apply Permutation_app_head].
  rewrite <- (eval7_permutation (opp2 ++ s1) (opp2 ++ s2));
    [|now apply incl_app|now apply Permutation_app_head].
  reflexivity.
Qed.

Lemma sim_loop_board (n : nat) (my_cards board board' deck : list card)
    (g : rng_state) (wins : Q) :
  incl my_cards full_deck -> incl board full_deck -> incl deck full_deck ->
  Permutation board board' ->
  sim_loop shuffle n my_cards board deck g wins
  = sim_loop shuffle n my_cards board' deck g wins.
Proof.
  intros IM IB ID P. revert deck g wins ID.
  induction n as [|n IH]; intros deck g wins ID; [reflexivity|].
  cbn [sim_loop].
  rewrite <- (sim_iteration_board my_cards board board' deck g wins IM IB ID P).
  destruct (sim_iteration shuffle my_cards board deck g wins)
    as [[[d1 g1] w1]|x] eqn:E; cbn [bind]; [|reflexivity].
  apply IH. apply sim_iteration_wins in E. destruct E as [-> _].
  intros c Hc. apply ID.
  apply (Permutation_in c (Permutation_sym (shuffle_permutes g deck)) Hc).
Qed.

(** X7.  With a generator whose shuffle permutes the deck and cards of the
    deck, listing the board in another order changes nothing in what the
    simulator returns from a given generator state: same estimate and next
    state, or same exception. *)
Theorem simulator_ignores_board_order (g : rng_state)
    (my_cards board board' : list card) (iterations : Z) :
  incl my_cards full_deck -> incl board full_deck -> Permutation board board' ->
  calculate_equity_python shuffle g my_cards board iterations
  = calculate_equity_python shuffle g my_cards board' iterations.
Proof.
  intros IM IB P. unfold calculate_equity_python. cbv zeta.
  rewrite (filter_pointwise_in
             (fun c => negb (existsb (String.eqb c) (my_cards ++ board)))
             (fun c => negb (existsb (String.eqb c) (my_cards ++ board')))).
  2:{ intros c _. f_equal. apply existsb_permutation.
      now apply Permutation_app_head. }
  rewrite (sim_loop_board _ my_cards board board'); auto.
  apply unseen_incl.
Qed.

End BoardOrder.

Lemma simulator_ignores_board_order_witness :
  calculate_equity_python shuffle_rev tt ["Ah"; "Kd"] ["2c"; "3d"; "9h"] 40
  = calculate_equity_python shuffle_rev tt ["Ah"; "Kd"] ["9h"; "3d"; "2c"] 40.
Proof.
  apply (simulator_ignores_board_order unit shuffle_rev shuffle_rev_permutes).
  - intros c Hc. simpl in Hc. vm_compute. intuition.
  - intros c Hc. simpl in Hc. vm_compute. intuition.
  - apply (Permutation_rev ["2c"; "3d"; "9h"]).
Defined.

(** ** First maximum in the reduction and in the discard selector *)

(** X8.  For three cards of the deck and a board of deck cards of any size
    but two, every retention gets a score and the reduction returns the first
    retention, in the order drop 0, drop 1, drop 2, whose score with the board
    is maximal: a later retention is kept only if it is strictly better than
    all before it. *)
Theorem reduction_keeps_first_best (a b c : card) (current_board : list card) :
  incl [a; b; c] full_deck -> incl current_board full_deck ->
  List.length current_board <> 2%nat ->
  exists s0 s1 s2 keep sk,
    eval7 ([b; c] ++ current_board) = Ok s0
    /\ eval7 ([a; c] ++ current_board) = Ok s1
    /\ eval7 ([a; b] ++ current_board) = Ok s2
    /\ best_two_from_three [a; b; c] current_board = Ok keep
    /\ eval7 (keep ++ current_board) = Ok sk
    /\ score_le s0 sk /\ score_le s1 sk /\ score_le s2 sk
    /\ ((keep = [b; c] /\ sk = s0)
        \/ (keep = [a; c] /\ sk = s1 /\ score_gt s1 s0 = Ok true)
        \/ (keep = [a; b] /\ sk = s2 /\ score_gt s2 s0 = Ok true
            /\ score_gt s2 s1 = Ok true)).
Proof.
  intros I IB NB.
  assert (T : forall x y, In x [a; b; c] -> In y [a; b; c] ->
                exists s, eval7 ([x; y] ++ current_board) = Ok s /\ shaped s = true).
  { intros x y Hx Hy. apply eval7_total.
    - apply incl_app; [|exact IB]. apply incl_cons2; apply I; assumption.
    - simpl. lia.
    - simpl. lia. }
  destruct (T b c) as [s0 [E0 S0]]; [simpl; auto|simpl; auto|].
  destruct (T a c) as [s1 [E1 S1]]; [simpl; auto|simpl; auto|].
  destruct (T a b) as [s2 [E2 S2]]; [simpl; auto|simpl; auto|].
  destruct (best_two_from_three_first_max a b c current_board s0 s1 s2 E0 S0 E1 S1 E2 S2)
    as [keep [sk [R [Ek [L0 [L1 [L2 K]]]]]]].
  exists s0, s1, s2, keep, sk. repeat split; assumption.
Qed.

Lemma reduction_keeps_first_best_witness :
  exists s0 s1 s2 keep sk,
    eval7 (["Kd"; "2c"] ++ ["Ac"; "Ks"; "7h"]) = Ok s0
    /\ eval7 (["Ah"; "2c"] ++ ["Ac"; "Ks"; "7h"]) = Ok s1
    /\ eval7 (["Ah"; "Kd"] ++ ["Ac"; "Ks"; "7h"]) = Ok s2
    /\ best_two_from_three ["Ah"; "Kd"; "2c"] ["Ac"; "Ks"; "7h"] = Ok keep
    /\ eval7 (keep ++ ["Ac"; "Ks"; "7h"]) = Ok sk
    /\ score_le s0 sk /\ score_le s1 sk /\ score_le s2 sk
    /\ ((keep = ["Kd"; "2c"] /\ sk = s0)
        \/ (keep = ["Ah"; "2c"] /\ sk = s1 /\ score_gt s1 s0 = Ok true)
        \/ (keep = ["Ah"; "Kd"] /\ sk = s2 /\ score_gt s2 s0 = Ok true
            /\ score_gt s2 s1 = Ok true)).
Proof.
  apply reduction_keeps_first_best.
  - intros x Hx. simpl in Hx. vm_compute. intuition.
  - intros x Hx. simpl in Hx. vm_compute. intuition.
  - simpl. lia.
Defined.

(** X9.  With a generator whose shuffle permutes the deck, three private
    cards of the deck, a board of at most six deck cards but not one, and a
    cache holding probabilities only: the three equity queries return, in the
    order of the candidates, and the selector returns the first index whose
    estimate is maximal; on a tie the lower index wins. *)
Theorem discard_picks_first_best (rng_state : Type)
    (shuffle : rng_state -> list card -> list card * rng_state)
    (p : player rng_state) (a b c : card) (board : list card) :
  (forall g deck, Permutation deck (fst (shuffle g deck))) ->
  incl [a; b; c] full_deck -> incl board full_deck ->
  List.length board <> 1%nat -> (List.length board <= 6)%nat ->
  cache_ok (eq_cache p) ->
  exists e0 e1 e2 p1 p2 p3 idx,
    calculate_equity shuffle p [b; c] (board ++ [a]) 1 (discard_iters board)
    = Ok (e0, p1)
    /\ calculate_equity shuffle p1 [a; c] (board ++ [b]) 1 (discard_iters board)
       = Ok (e1, p2)
    /\ calculate_equity shuffle p2 [a; b] (board ++ [c]) 1 (discard_iters board)
       = Ok (e2, p3)
    /\ get_best_discard shuffle p [a; b; c] board = Ok (DiscardAction idx, p3)
    /\ ((idx = 0%nat /\ (e1 <= e0)%Q /\ (e2 <= e0)%Q)
        \/ (idx = 1%nat /\ (e0 < e1)%Q /\ (e2 <= e1)%Q)
        \/ (idx = 2%nat /\ (e0 < e2)%Q /\ (e1 < e2)%Q)).
Proof. intros P. now apply get_best_discard_first_max. Qed.

Lemma discard_picks_first_best_witness :
  exists e0 e1 e2 p1 p2 p3 idx,
    calculate_equity shuffle_rev (mk_player tt []) ["2c"; "3d"] (["As"; "7d"] ++ ["Ah"]) 1
      (discard_iters ["As"; "7d"]) = Ok (e0, p1)
    /\ calculate_equity shuffle_rev p1 ["Ah"; "3d"] (["As"; "7d"] ++ ["2c"]) 1
         (discard_iters ["As"; "7d"]) = Ok (e1, p2)
    /\ calculate_equity shuffle_rev p2 ["Ah"; "2c"] (["As"; "7d"] ++ ["3d"]) 1
         (discard_iters ["As"; "7d"]) = Ok (e2, p3)
    /\ get_best_discard shuffle_rev (mk_player tt []) ["Ah"; "2c"; "3d"] ["As"; "7d"]
       = Ok (DiscardAction idx, p3)
    /\ ((idx = 0%nat /\ (e1 <= e0)%Q /\ (e2 <= e0)%Q)
        \/ (idx = 1%nat /\ (e0 < e1)%Q /\ (e2 <= e1)%Q)
        \/ (idx = 2%nat /\ (e0 < e2)%Q /\ (e1 < e2)%Q)).
Proof.
  apply discard_picks_first_best.
  - apply shuffle_rev_permutes.
  - intros x Hx. simpl in Hx. vm_compute. intuition.
  - intros x Hx. simpl in Hx. vm_compute. intuition.
  - simpl. lia.
  - simpl. lia.
  - apply cache_ok_empty.
Defined.

(** ** Board texture *)

Example is_board_wet_samples :
  is_board_wet ["2c"; "9d"] = Ok false
  /\ is_board_wet ["2c"; "9c"; "Kc"] = Ok true
  /\ is_board_wet ["7c"; "9d"; "Th"; "2s"] = Ok true
  /\ is_board_wet ["Ac"; "2d"; "3h"] = Ok false
  /\ is_board_wet ["2c"; "7d"; "Qh"; "Qs"] = Ok false.
Proof. repeat split; reflexivity. Qed.

Lemma suit_lookup_add (s k : ascii) (d : list (ascii * Z)) :
  suit_lookup (suit_add s d) k
  = suit_lookup d k + (if Ascii.eqb s k then 1 else 0).
Proof.
  induction d as [|[k0 n] d IH]; simpl.
  - destruct (Ascii.eqb s k); reflexivity.
  - destruct (Ascii.eqb_spec k0 s) as [->|N]; simpl.
    + destruct (Ascii.eqb s k); lia.
    + destruct (Ascii.eqb_spec k0 k) as [->|N'].
      * destruct (Ascii.eqb_spec s k); [congruence|lia].
      * exact IH.
Qed.

Lemma suit_lookup_fold (l : list ascii) (d : list (ascii * Z)) (k : ascii) :
  suit_lookup (fold_left (fun d s => suit_add s d) l d) k
  = suit_lookup d k
    + Z.of_nat (List.length (filter (fun s => Ascii.eqb s k) l)).
Proof.
  revert d. induction l as [|s l IH]; intros d; simpl; [lia|].
  rewrite IH, suit_lookup_add. destruct (Ascii.eqb s k); simpl; lia.
Qed.

Lemma suit_add_keys (s k : ascii) (d : list (ascii * Z)) :
  In k (map fst (suit_add s d)) <-> k = s \/ In k (map fst d).
Proof.
  induction d as [|[k0 n] d IH]; simpl.
  - intuition congruence.
  - destruct (Ascii.eqb_spec k0 s) as [->|N]; simpl; [intuition congruence|].
    rewrite IH. intuition congruence.
Qed.

Lemma suit_add_nodup (s : ascii) (d : list (ascii * Z)) :
  NoDup (map fst d) -> NoDup (map fst (suit_add s d)).
Proof.
  induction d as [|[k0 n] d IH]; simpl; intros H.
  - repeat constructor. intros [].
  - apply NoDup_cons_iff in H. destruct H as [H1 H2].
    destruct (Ascii.eqb_spec k0 s) as [->|N]; simpl.
    + now constructor.
    + constructor; [|now apply IH].
      intros I. apply suit_add_keys in I. destruct I; [congruence|contradiction].
Qed.

Lemma suit_counts_nodup (l : list ascii) (d : list (ascii * Z)) :
  NoDup (map fst d) -> NoDup (map fst (fold_left (fun d s => suit_add s d) l d)).
Proof.
  revert d. induction l as [|s l IH]; intros d H; simpl; [exact H|].
  apply IH. now apply suit_add_nodup.
Qed.

Lemma suit_lookup_entry (d : list (ascii * Z)) (k : ascii) (n : Z) :
  NoDup (map fst d) -> In (k, n) d -> suit_lookup d k = n.
Proof.
  induction d as [|[k0 n0] d IH]; simpl; intros H I; [destruct I|].
  apply NoDup_cons_iff in H. destruct H as [H1 H2].
  destruct I as [E|I].
  - injection E as -> ->. now rewrite (proj2 (Ascii.eqb_eq k k) eq_refl).
  - destruct (Ascii.eqb_spec k0 k) as [->|N]; [|now apply IH].
    exfalso. apply H1. apply in_map_iff. now exists (k, n).
Qed.

Lemma suit_lookup_present (d : list (ascii * Z)) (k : ascii) :
  suit_lookup d k <> 0 -> In (k, suit_lookup d k) d.
Proof.
  induction d as [|[k0 n0] d IH]; simpl; intros H; [congruence|].
  destruct (Ascii.eqb_spec k0 k) as [->|N]; [now left|right; now apply IH].
Qed.

(** Some suit is counted three times or more exactly when some suit occurs
    three times or more. *)
Lemma suit_counts_three (suits : list ascii) :
  existsb (fun kv => 3 <=? snd kv) (suit_counts suits)
  = existsb (fun s => (3 <=? List.length (filter (fun s' => Ascii.eqb s' s) suits))%nat)
            suits.
Proof.
  apply eq_true_iff_eq. rewrite !existsb_exists. unfold suit_counts. split.
  - intros [[k n] [I L]]. simpl in L. apply Z.leb_le in L.
    apply suit_lookup_entry in I; [|apply suit_counts_nodup; constructor].
    rewrite suit_lookup_fold in I. simpl in I.
    exists k. split; [|apply Nat.leb_le; lia].
    destruct (filter (fun s' => Ascii.eqb s' k) suits) as [|s0 t] eqn:F;
      [simpl in I; lia|].
    assert (M : In s0 (filter (fun s' => Ascii.eqb s' k) suits))
      by (rewrite F; now left).
    apply filter_In in M. destruct M as [M E]. apply Ascii.eqb_eq in E. now subst.
  - intros [s [I L]]. apply Nat.leb_le in L.
    pose proof (suit_lookup_fold suits [] s) as F. simpl in F.
    exists (s, suit_lookup (fold_left (fun d s0 => suit_add s0 d) suits []) s).
    split; [apply suit_lookup_present; lia|].
    simpl. apply Z.leb_le. lia.
Qed.

Lemma filter_map_length {A B : Type} (f : B -> bool) (g : A -> B) (l : list A) :
  List.length (filter f (map g l)) = List.length (filter (fun x => f (g x)) l).
Proof.
  induction l as [|x l IH]; simpl; [reflexivity|].
  destruct (f (g x)); simpl; now rewrite IH.
Qed.

Lemma existsb_map_list {A B : Type} (f : B -> bool) (g : A -> B) (l : list A) :
  existsb f (map g l) = existsb (fun x => f (g x)) l.
Proof. induction l as [|x l IH]; simpl; [reflexivity|]. now rewrite IH. Qed.

Lemma existsb_pointwise {A : Type} (f g : A -> bool) (l : list A) :
  (forall x, f x = g x) -> existsb f l = existsb g l.
Proof. intros H. induction l as [|x l IH]; simpl; [reflexivity|]. now rewrite H, IH. Qed.

Lemma three_suited_counts (cs : list card) :
  existsb (fun kv => 3 <=? snd kv) (suit_counts (map card_suit cs)) = three_suited cs.
Proof.
  rewrite suit_counts_three, existsb_map_list. unfold three_suited, suit_count.
  apply existsb_pointwise. intros c. now rewrite filter_map_length.
Qed.

Lemma ascending_cons (x : Z) (l : list Z) :
  ascending (x :: l) = true <->
  (match l with [] => True | y :: _ => x <= y end) /\ ascending l = true.
Proof.
  destruct l as [|y l]; simpl.
  - tauto.
  - rewrite andb_true_iff, Z.leb_le. tauto.
Qed.

Lemma ascending_insert_asc (x : Z) (l : list Z) :
  ascending l = true -> ascending (insert_asc x l) = true.
Proof.
  induction l as [|y l IH]; intros H; [reflexivity|].
  apply ascending_cons in H. destruct H as [Hh Ht].
  cbn [insert_asc]. destruct (Z.ltb_spec y x) as [G|G].
  - apply ascending_cons. split; [|now apply IH].
    destruct l as [|z l]; cbn [insert_asc]; [lia|].
    destruct (z <? x); lia.
  - apply ascending_cons. split; [lia|].
    apply ascending_cons. now split.
Qed.

Lemma ascending_sorted_asc (l : list Z) : ascending (sorted_asc l) = true.
Proof.
  induction l as [|x l IH]; [reflexivity|].
  cbn [sorted_asc fold_right]. fold (sorted_asc l).
  now apply ascending_insert_asc.
Qed.

Lemma insert_asc_permutation (x : Z) (l : list Z) :
  Permutation (x :: l) (insert_asc x l).
Proof.
  induction l as [|y l IH]; simpl; [apply Permutation_refl|].
  destruct (y <? x); [|apply Permutation_refl].
  apply (perm_trans (perm_swap y x l)). now apply perm_skip.
Qed.

Lemma sorted_asc_permutation (l : list Z) : Permutation l (sorted_asc l).
Proof.
  induction l as [|x l IH]; simpl; [constructor|].
  fold (sorted_asc l).
  apply (perm_trans (perm_skip x IH)). apply insert_asc_permutation.
Qed.

Lemma ascending_head_min (x : Z) (l : list Z) :
  ascending (x :: l) = true -> forall y, In y l -> x <= y.
Proof.
  revert x. induction l as [|z l IH]; intros x H y Hy; [destruct Hy|].
  apply ascending_cons in H. destruct H as [Hxz Hd].
  destruct Hy as [<-|Hy]; [exact Hxz|].
  specialize (IH z Hd y Hy). lia.
Qed.

(** The index loop of [is_board_wet] is the recursion [windows]. *)
Lemma wet_scan_windows (pre ranks : list Z) :
  wet_scan (pre ++ ranks) (seq (List.length pre) (List.length ranks - 2))
  = Ok (windows ranks).
Proof.
  revert pre. induction ranks as [|lo rest IH]; intros pre; [reflexivity|].
  destruct rest as [|mid [|hi rest']]; try reflexivity.
  replace (List.length (lo :: mid :: hi :: rest') - 2)%nat
    with (S (List.length (mid :: hi :: rest') - 2)%nat) by (simpl; lia).
  cbn [seq wet_scan].
  assert (Ghi : getitem (pre ++ lo :: mid :: hi :: rest') (List.length pre + 2) = Ok hi).
  { unfold getitem. rewrite nth_error_app2 by lia.
    replace (List.length pre + 2 - List.length pre)%nat with 2%nat by lia.
    reflexivity. }
  rewrite Ghi, getitem_app_length. cbn [bind windows].
  destruct (hi - lo <=? 4); [reflexivity|]. cbn [orb].
  specialize (IH (pre ++ [lo])).
  rewrite <- app_assoc, length_app in IH. simpl in IH.
  rewrite Nat.add_1_r in IH. simpl. exact IH.
Qed.

Lemma within_cons (lo x : Z) (rs : list Z) :
  within lo (x :: rs)
  = if (lo <=? x) && (x <=? lo + 4) then S (within lo rs) else within lo rs.
Proof. unfold within. simpl. now destruct ((lo <=? x) && (x <=? lo + 4)). Qed.

Lemma within_none (lo : Z) (rs : list Z) :
  (forall y, In y rs -> lo + 4 < y) -> within lo rs = 0%nat.
Proof.
  induction rs as [|x rs IH]; intros H; [reflexivity|].
  rewrite within_cons.
  assert (lo + 4 < x) by (apply H; now left).
  destruct (Z.leb_spec x (lo + 4)); [lia|]. rewrite andb_false_r.
  apply IH. intros y Hy. apply H. now right.
Qed.

Lemma within_le_length (lo : Z) (rs : list Z) : (within lo rs <= List.length rs)%nat.
Proof. apply filter_length_le. Qed.

(** In an ascending list the ranks within four of the first are a prefix:
    there are three of them exactly when the third rank is within four. *)
Lemma within_head (a : Z) (t : list Z) :
  ascending (a :: t) = true ->
  (3 <=? within a (a :: t))%nat
  = match t with
    | _ :: c :: _ => c - a <=? 4
    | _ => false
    end.
Proof.
  intros H. rewrite within_cons.
  replace ((a <=? a) && (a <=? a + 4)) with true
    by (symmetry; apply andb_true_iff; split; apply Z.leb_le; lia).
  destruct t as [|b [|c t']].
  - reflexivity.
  - pose proof (within_le_length a [b]) as L. simpl in L.
    apply Nat.leb_gt. lia.
  - pose proof (ascending_head_min a _ H) as Min.
    apply ascending_cons in H. destruct H as [_ H].
    pose proof (ascending_head_min b _ H) as Minb.
    apply ascending_cons in H. destruct H as [Hbc H].
    assert (a <= b) by (apply Min; now left).
    destruct (Z.leb_spec (c - a) 4) as [C|C].
    + rewrite !within_cons.
      replace ((a <=? b) && (b <=? a + 4)) with true
        by (symmetry; apply andb_true_iff; split; apply Z.leb_le; lia).
      replace ((a <=? c) && (c <=? a + 4)) with true
        by (symmetry; apply andb_true_iff; split; apply Z.leb_le; lia).
      apply Nat.leb_le. lia.
    + rewrite (within_cons a b).
      rewrite (within_none a (c :: t')).
      * destruct ((a <=? b) && (b <=? a + 4)); apply Nat.leb_gt; lia.
      * intros y [<-|Hy]; [lia|].
        pose proof (ascending_head_min c t' H y Hy). lia.
Qed.

Lemma windows_three_close (rs : list Z) :
  ascending rs = true -> windows rs = three_close rs.
Proof.
  induction rs as [|a t IH]; intros H; [reflexivity|].
  pose proof (within_head a t H) as W.
  pose proof (ascending_head_min a t H) as Min.
  assert (Ht : ascending t = true) by (apply ascending_cons in H; tauto).
  specialize (IH Ht).
  assert (Wd : windows (a :: t)
               = (3 <=? within a (a :: t))%nat || windows t).
  { rewrite W. destruct t as [|b [|c t']]; reflexivity. }
  rewrite Wd, IH. unfold three_close. cbn [existsb].
  destruct ((3 <=? within a (a :: t))%nat) eqn:X.
  - reflexivity.
  - cbn [orb]. apply eq_true_iff_eq. rewrite !existsb_exists.
    split; intros [lo [I L]]; exists lo; (split; [exact I|]).
    + rewrite within_cons. destruct ((lo <=? a) && (a <=? lo + 4));
        [|exact L]. apply Nat.leb_le. apply Nat.leb_le in L. lia.
    + destruct (Z.leb_spec lo a) as [La|La].
      * assert (lo = a) by (specialize (Min lo I); lia). subst lo. congruence.
      * rewrite within_cons in L.
        destruct (Z.leb_spec lo a) as [La'|_]; [lia|exact L].
Qed.

Lemma filter_length_permutation {A : Type} (f : A -> bool) (l l' : list A) :
  Permutation l l' -> List.length (filter f l) = List.length (filter f l').
Proof.
  induction 1 as [|x l l' P IH|x y l|l l' l'' P1 IH1 P2 IH2]; simpl.
  - reflexivity.
  - destruct (f x); simpl; now rewrite IH.
  - destruct (f x), (f y); reflexivity.
  - congruence.
Qed.

Lemma three_close_permutation (l l' : list Z) :
  Permutation l l' -> three_close l = three_close l'.
Proof.
  intros P. unfold three_close.
  rewrite (existsb_permutation _ l l' P).
  apply existsb_pointwise. intros lo. unfold within.
  now rewrite (filter_length_permutation _ l l' P).
Qed.

(** On cards of the deck [is_board_wet] returns, and returns what the
    docstring says. *)
Lemma is_board_wet_deck (board : list card) :
  incl board full_deck -> is_board_wet board = Ok (wet board).
Proof.
  intros I. unfold is_board_wet, wet.
  destruct (Nat.ltb_spec (List.length board) 3) as [L|L].
  - destruct (Nat.leb_spec 3 (List.length board)); [lia|reflexivity].
  - destruct (Nat.leb_spec 3 (List.length board)) as [_|L']; [|lia]. cbn [andb].
    rewrite (mapM_total suit_of card_suit).
    2:{ intros c Hc. now apply suit_of_deck, I. }
    cbn [bind]. rewrite three_suited_counts.
    destruct (three_suited board); [reflexivity|]. cbn [orb].
    rewrite (mapM_total rank_of card_rank).
    2:{ intros c Hc. now apply rank_of_deck, I. }
    cbn [bind].
    pose proof (wet_scan_windows [] (sorted_asc (map card_rank board))) as W.
    simpl in W. rewrite W. f_equal. rewrite windows_three_close by apply ascending_sorted_asc.
    symmetry. apply three_close_permutation, sorted_asc_permutation.
Qed.

(** X10.  On cards of the deck [is_board_wet] returns what its docstring
    says: the board is wet exactly when it has three cards or more and holds
    three cards of one suit or three ranks within a span of four (the ace
    counting as 14 only). *)
Theorem is_board_wet_criteria (board : list card) :
  incl board full_deck ->
  is_board_wet board
  = Ok ((3 <=? List.length board)%nat
        && (existsb (fun c => (3 <=? suit_count (card_suit c) board)%nat) board
            || existsb (fun lo => (3 <=? within lo (map card_rank board))%nat)
                       (map card_rank board))).
Proof. apply is_board_wet_deck. Qed.

Lemma is_board_wet_criteria_witness :
  is_board_wet ["7c"; "Kd"; "Th"; "2s"; "9s"]
  = Ok ((3 <=? List.length ["7c"; "Kd"; "Th"; "2s"; "9s"])%nat
        && (existsb (fun c => (3 <=? suit_count (card_suit c)
                                       ["7c"; "Kd"; "Th"; "2s"; "9s"])%nat)
                    ["7c"; "Kd"; "Th"; "2s"; "9s"]
            || existsb (fun lo => (3 <=? within lo (map card_rank
                                       ["7c"; "Kd"; "Th"; "2s"; "9s"]))%nat)
                       (map card_rank ["7c"; "Kd"; "Th"; "2s"; "9s"]))).
Proof.
  apply is_board_wet_criteria.
  intros c Hc. simpl in Hc. vm_compute. intuition.
Defined.

Lemma filter_length_subseq {A : Type} (f : A -> bool) (h l : list A) :
  subseq h l -> (List.length (filter f h) <= List.length (filter f l))%nat.
Proof.
  induction 1 as [|x h l S IH|x h l S IH]; simpl; [lia| |].
  - destruct (f x); simpl; lia.
  - destruct (f x); simpl; lia.
Qed.

Lemma subseq_map {A B : Type} (g : A -> B) (h l : list A) :
  subseq h l -> subseq (map g h) (map g l).
Proof. induction 1; simpl; constructor; assumption. Qed.

Lemma wet_subseq (board board' : list card) :
  subseq board board' -> wet board = true -> wet board' = true.
Proof.
  intros S. unfold wet. rewrite !andb_true_iff, !orb_true_iff.
  intros [L W]. split.
  - apply Nat.leb_le. apply Nat.leb_le in L.
    pose proof (subseq_length _ _ S). lia.
  - destruct W as [W|W]; [left|right].
    + unfold three_suited in *. apply existsb_exists in W.
      destruct W as [c [I C]]. apply existsb_exists. exists c.
      split; [now apply (subseq_incl board board')|].
      apply Nat.leb_le. apply Nat.leb_le in C. unfold suit_count in *.
      pose proof (filter_length_subseq
                    (fun c0 => Ascii.eqb (card_suit c0) (card_suit c)) _ _ S). lia.
    + unfold three_close in *. apply existsb_exists in W.
      destruct W as [lo [I C]]. apply existsb_exists. exists lo.
      pose proof (subseq_map card_rank _ _ S) as Sm.
      split; [now apply (subseq_incl _ _ Sm)|].
      apply Nat.leb_le. apply Nat.leb_le in C. unfold within in *.
      pose proof (filter_length_subseq
                    (fun x => (lo <=? x) && (x <=? lo + 4)) _ _ Sm). lia.
Qed.

Lemma wet_permutation (board board' : list card) :
  Permutation board board' -> wet board = wet board'.
Proof.
  intros P. unfold wet. rewrite (Permutation_length P). f_equal. f_equal.
  - unfold three_suited. rewrite (existsb_permutation _ _ _ P).
    apply existsb_pointwise. intros c. unfold suit_count.
    now rewrite (filter_length_permutation _ _ _ P).
  - apply three_close_permutation. now apply Permutation_map.
Qed.

(** X11.  On cards of the deck the texture of a board does not depend on the
    order in which the board is listed. *)
Theorem is_board_wet_order_independent (board board' : list card) :
  incl board full_deck -> Permutation board board' ->
  is_board_wet board = is_board_wet board'.
Proof.
  intros I P.
  assert (I' : incl board' full_deck).
  { intros c Hc. apply I. now apply (Permutation_in c (Permutation_sym P)). }
  rewrite (is_board_wet_deck board I), (is_board_wet_deck board' I').
  f_equal. now apply wet_permutation.
Qed.

Lemma is_board_wet_order_independent_witness :
  is_board_wet ["7c"; "Kd"; "Th"; "2s"; "9s"]
  = is_board_wet ["9s"; "2s"; "Th"; "Kd"; "7c"].
Proof.
  apply is_board_wet_order_independent.
  - intros c Hc. simpl in Hc. vm_compute. intuition.
  - apply (Permutation_rev ["7c"; "Kd"; "Th"; "2s"; "9s"]).
Defined.

(** X12.  A wet board stays wet: when cards of the deck are added to a
    board, at any positions, [is_board_wet] does not go from true to
    false. *)
Theorem is_board_wet_monotone (board board' : list card) :
  incl board' full_deck -> subseq board board' ->
  is_board_wet board = Ok true -> is_board_wet board' = Ok true.
Proof.
  intros I' S H.
  assert (I : incl board full_deck).
  { intros c Hc. apply I'. now apply (subseq_incl board board'). }
  rewrite (is_board_wet_deck board I) in H. injection H as H.
  rewrite (is_board_wet_deck board' I'). f_equal. now apply (wet_subseq board).
Qed.

Lemma is_board_wet_monotone_witness :
  is_board_wet ["7c"; "Th"; "9s"] = Ok true
  /\ is_board_wet ["7c"; "Kd"; "Th"; "2s"; "9s"] = Ok true.
Proof.
  assert (H : is_board_wet ["7c"; "Th"; "9s"] = Ok true) by reflexivity.
  split; [exact H|].
  apply (is_board_wet_monotone ["7c"; "Th"; "9s"]).
  - intros c Hc. simpl in Hc. vm_compute. intuition.
  - apply subseq_take, subseq_skip, subseq_take, subseq_skip, subseq_take, subseq_nil.
  - exact H.
Defined.

(** ** Pre-flop points *)

Example evaluate_preflop_points_samples :
  evaluate_preflop_points ["Ah"; "Kh"; "Qh"] = Ok 63
  /\ evaluate_preflop_points ["2c"; "2d"; "2h"] = Ok 56
  /\ evaluate_preflop_points ["2c"; "4d"; "6h"] = Ok 12
  /\ evaluate_preflop_points ["9c"; "9d"; "Th"] = Ok 52
  /\ evaluate_preflop_points ["9c"; "9d"] = Raise IndexError
  /\ evaluate_preflop_points ["9c"; "1d"; "Th"] = Raise KeyError.
Proof. repeat split; reflexivity. Qed.

Lemma sorted_desc_three (x y z : Z) :
  exists r0 r1 r2,
    sorted_desc [x; y; z] = [r0; r1; r2] /\ r2 <= r1 <= r0
    /\ ((r0 = x /\ r1 = y /\ r2 = z) \/ (r0 = x /\ r1 = z /\ r2 = y)
        \/ (r0 = y /\ r1 = x /\ r2 = z) \/ (r0 = y /\ r1 = z /\ r2 = x)
        \/ (r0 = z /\ r1 = x /\ r2 = y) \/ (r0 = z /\ r1 = y /\ r2 = x)).
Proof.
  unfold sorted_desc. cbn [fold_right insert_desc].
  destruct (Z.gtb_spec z y); cbn [insert_desc];
    repeat match goal with
           | |- context [?a >? ?b] => destruct (Z.gtb_spec a b); cbn [insert_desc]
           end;
    eexists; eexists; eexists; (split; [reflexivity|]); (split; [lia|]); tauto.
Qed.

(** Three cards of the deck: the points are the rank sum and the three
    bonuses. *)
Lemma evaluate_preflop_points_three (a b c : card) :
  incl [a; b; c] full_deck ->
  exists r0 r1 r2,
    sorted_desc [card_rank a; card_rank b; card_rank c] = [r0; r1; r2]
    /\ evaluate_preflop_points [a; b; c]
       = Ok (r0 + r1 + r2 + pair_bonus r0 r1 r2
             + suit_bonus (card_suit a) (card_suit b) (card_suit c)
             + gap_bonus r0 r1 r2).
Proof.
  intros I. unfold evaluate_preflop_points.
  rewrite (mapM_total rank_of card_rank).
  2:{ intros x Hx. now apply rank_of_deck, I. }
  cbn [bind]. rewrite (mapM_total suit_of card_suit).
  2:{ intros x Hx. now apply suit_of_deck, I. }
  cbn [bind map].
  destruct (sorted_desc_three (card_rank a) (card_rank b) (card_rank c))
    as [r0 [r1 [r2 [E _]]]].
  exists r0, r1, r2. split; [exact E|]. rewrite E.
  cbn [getitem nth_error bind py_sum fold_left].
  unfold pair_bonus, suit_bonus, gap_bonus. f_equal.
  destruct ((r0 =? r1) || (r1 =? r2) || (r0 =? r2)); destruct (r0 =? r2);
    destruct (Ascii.eqb (card_suit a) (card_suit b) && Ascii.eqb (card_suit b) (card_suit c));
    destruct (Ascii.eqb (card_suit a) (card_suit b) || Ascii.eqb (card_suit b) (card_suit c)
              || Ascii.eqb (card_suit a) (card_suit c));
    destruct ((r0 - r1 =? 1) && (r1 - r2 =? 1));
    destruct ((r0 - r1 =? 1) || (r1 - r2 =? 1)); lia.
Qed.

Ltac suit_cases s0 s1 s2 :=
  unfold suit_bonus;
  destruct (Ascii.eqb_spec s0 s1), (Ascii.eqb_spec s1 s2), (Ascii.eqb_spec s0 s2),
    (Ascii.eqb_spec s1 s0), (Ascii.eqb_spec s2 s1), (Ascii.eqb_spec s2 s0);
  subst; simpl; try reflexivity; congruence.

Lemma permutation_three {A : Type} (a b c : A) (l : list A) :
  Permutation [a; b; c] l ->
  l = [a; b; c] \/ l = [a; c; b] \/ l = [b; a; c] \/ l = [b; c; a]
  \/ l = [c; a; b] \/ l = [c; b; a].
Proof.
  intros P. pose proof (Permutation_length P) as L.
  destruct l as [|x [|y [|z [|? ?]]]]; try discriminate.
  assert (Hx : In x [a; b; c])
    by (apply (Permutation_in x (Permutation_sym P)); now left).
  destruct Hx as [<-|[<-|[<-|[]]]].
  - apply Permutation_cons_inv in P.
    apply Permutation_length_2_inv in P. destruct P as [E|E]; injection E as <- <-; auto.
  - assert (Q : Permutation (b :: [a; c]) (b :: [y; z]))
      by (apply (perm_trans (perm_swap a b [c])); exact P).
    apply Permutation_cons_inv in Q.
    apply Permutation_length_2_inv in Q. destruct Q as [E|E]; injection E as <- <-;
      auto 6.
  - assert (Q : Permutation (c :: [a; b]) (c :: [y; z])).
    { apply (perm_trans (l' := [a; b; c])); [|exact P].
      apply (Permutation_cons_append [a; b] c). }
    apply Permutation_cons_inv in Q.
    apply Permutation_length_2_inv in Q. destruct Q as [E|E]; injection E as <- <-;
      auto 7.
Qed.

Lemma evaluate_preflop_points_permutation (a b c : card) (cards' : list card) :
  incl [a; b; c] full_deck -> Permutation [a; b; c] cards' ->
  evaluate_preflop_points [a; b; c] = evaluate_preflop_points cards'.
Proof.
  intros I P.
  assert (I' : incl cards' full_deck).
  { intros x Hx. apply I. now apply (Permutation_in x (Permutation_sym P)). }
  destruct (evaluate_preflop_points_three a b c I) as [r0 [r1 [r2 [E H]]]].
  rewrite H.
  assert (S : forall x y z, Permutation [a; b; c] [x; y; z] ->
              incl [x; y; z] full_deck ->
              suit_bonus (card_suit a) (card_suit b) (card_suit c)
              = suit_bonus (card_suit x) (card_suit y) (card_suit z) ->
              Ok (r0 + r1 + r2 + pair_bonus r0 r1 r2
                  + suit_bonus (card_suit a) (card_suit b) (card_suit c)
                  + gap_bonus r0 r1 r2)
              = evaluate_preflop_points [x; y; z]).
  { intros x y z Q J B.
    destruct (evaluate_preflop_points_three x y z J) as [q0 [q1 [q2 [E' H']]]].
    rewrite H'.
    pose proof (sorted_desc_permutation _ _ (Permutation_map card_rank Q)) as SP.
    cbn [map] in SP. rewrite <- SP, E in E'.
    injection E' as <- <- <-. now rewrite B. }
  destruct (permutation_three a b c cards' P) as [->|[->|[->|[->|[->| ->]]]]];
    apply S; auto;
    suit_cases (card_suit a) (card_suit b) (card_suit c).
Qed.

(** X13.  For three cards of the deck the pre-flop points do not depend on
    the order in which the cards are listed. *)
Theorem evaluate_preflop_points_order_independent (cards cards' : list card) :
  List.length cards = 3%nat -> incl cards full_deck -> Permutation cards cards' ->
  evaluate_preflop_points cards = evaluate_preflop_points cards'.
Proof.
  intros L I P. destruct cards as [|a [|b [|c [|? ?]]]]; try discriminate.
  now apply evaluate_preflop_points_permutation.
Qed.

Lemma evaluate_preflop_points_order_independent_witness :
  evaluate_preflop_points ["9c"; "Th"; "9d"] = evaluate_preflop_points ["9d"; "Th"; "9c"].
Proof.
  apply evaluate_preflop_points_order_independent.
  - reflexivity.
  - intros x Hx. simpl in Hx. vm_compute. intuition.
  - apply (Permutation_rev ["9c"; "Th"; "9d"]).
Defined.

Lemma card_rank_bounds (c : card) : In c full_deck -> 2 <= card_rank c <= 14.
Proof.
  intros H. destruct (rank_of_deck c H) as [_ R].
  unfold all_ranks in R. simpl in R. intuition lia.
Qed.

Lemma evaluate_preflop_points_bounds (a b c : card) :
  incl [a; b; c] full_deck ->
  exists points,
    evaluate_preflop_points [a; b; c] = Ok points
    /\ 12 <= points
    /\ (card_rank a = card_rank b \/ card_rank b = card_rank c
        \/ card_rank a = card_rank c -> 26 <= points)
    /\ (card_rank a = card_rank b /\ card_rank b = card_rank c -> 56 <= points).
Proof.
  intros I. destruct (evaluate_preflop_points_three a b c I) as [r0 [r1 [r2 [E H]]]].
  rewrite H. eexists. split; [reflexivity|].
  destruct (sorted_desc_three (card_rank a) (card_rank b) (card_rank c))
    as [q0 [q1 [q2 [E' [Ord Arr]]]]].
  rewrite E in E'. injection E' as <- <- <-.
  pose proof (card_rank_bounds a (I a (or_introl eq_refl))) as Ba.
  pose proof (card_rank_bounds b (I b (or_intror (or_introl eq_refl)))) as Bb.
  pose proof (card_rank_bounds c (I c (or_intror (or_intror (or_introl eq_refl))))) as Bc.
  assert (S0 : 0 <= suit_bonus (card_suit a) (card_suit b) (card_suit c)).
  { unfold suit_bonus.
    destruct (Ascii.eqb (card_suit a) (card_suit b) && Ascii.eqb (card_suit b) (card_suit c));
      [lia|].
    destruct (Ascii.eqb (card_suit a) (card_suit b) || Ascii.eqb (card_suit b) (card_suit c)
              || Ascii.eqb (card_suit a) (card_suit c)); lia. }
  unfold pair_bonus, gap_bonus.
  destruct (Z.eqb_spec r0 r1), (Z.eqb_spec r1 r2), (Z.eqb_spec r0 r2),
    (Z.eqb_spec (r0 - r1) 1), (Z.eqb_spec (r1 - r2) 1); cbn [orb andb];
    repeat split; try lia.
Qed.

(** X14.  Three cards of the deck always get points, at least 12.  A hand
    holding two cards of one rank gets at least 26, the threshold at which
    [get_action] plays a hand, and three cards of one rank get at least 56,
    above the threshold 45 at which it raises to the maximum. *)
Theorem evaluate_preflop_points_thresholds (a b c : card) :
  incl [a; b; c] full_deck ->
  exists points,
    evaluate_preflop_points [a; b; c] = Ok points
    /\ 12 <= points
    /\ (card_rank a = card_rank b \/ card_rank b = card_rank c
        \/ card_rank a = card_rank c -> 26 <= points)
    /\ (card_rank a = card_rank b /\ card_rank b = card_rank c -> 56 <= points).
Proof. apply evaluate_preflop_points_bounds. Qed.

Lemma evaluate_preflop_points_thresholds_witness :
  exists points,
    evaluate_preflop_points ["2c"; "2d"; "3h"] = Ok points
    /\ 12 <= points
    /\ (card_rank "2c" = card_rank "2d" \/ card_rank "2d" = card_rank "3h"
        \/ card_rank "2c" = card_rank "3h" -> 26 <= points)
    /\ (card_rank "2c" = card_rank "2d" /\ card_rank "2d" = card_rank "3h"
        -> 56 <= points).
Proof.
  apply evaluate_preflop_points_thresholds.
  intros x Hx. simpl in Hx. vm_compute. intuition.
Defined.

(** X15.  With fewer than three cards of the deck the pre-flop points are
    not computed: the call raises IndexError. *)
Theorem evaluate_preflop_points_needs_three (cards : list card) :
  incl cards full_deck -> (List.length cards < 3)%nat ->
  evaluate_preflop_points cards = Raise IndexError.
Proof.
  intros I L. unfold evaluate_preflop_points.
  rewrite (mapM_total rank_of card_rank).
  2:{ intros x Hx. now apply rank_of_deck, I. }
  cbn [bind]. rewrite (mapM_total suit_of card_suit).
  2:{ intros x Hx. now apply suit_of_deck, I. }
  cbn [bind].
  destruct cards as [|a [|b [|c ?]]]; [reflexivity|reflexivity| |simpl in L; lia].
  unfold sorted_desc. cbn [map fold_right insert_desc].
  destruct (card_rank b >? card_rank a); reflexivity.
Qed.

Lemma evaluate_preflop_points_needs_three_witness :
  evaluate_preflop_points ["9c"; "9d"] = Raise IndexError.
Proof.
  apply evaluate_preflop_points_needs_three.
  - intros x Hx. simpl in Hx. vm_compute. intuition.
  - simpl. lia.
Defined.

(** ** The decision policy *)

Ltac policy_step H :=
  match type of H with
  | bind ?m _ = Ok _ =>
      let E := fresh "E" in
      destruct m eqn:E; cbn [bind] in H; [|discriminate H]
  | (let '(_, _) := ?x in _) = Ok _ =>
      let E := fresh "E" in destruct x eqn:E
  | (if ?c then _ else _) = Ok _ =>
      let E := fresh "E" in destruct c eqn:E
  end.

Ltac split_andb :=
  repeat match goal with
         | E : (_ && _)%bool = true |- _ =>
             let E1 := fresh "E" in
             apply andb_prop in E; destruct E as [E E1]
         end.

Lemma discard_loop_index (rng_state : Type)
    (shuffle : rng_state -> list card -> list card * rng_state)
    (idxs : list nat) (my_cards board : list card) (iters : Z)
    (p p' : player rng_state) (best_idx idx : nat) (best_eq : Q) :
  discard_loop shuffle idxs my_cards board iters p best_idx best_eq = Ok (idx, p') ->
  idx = best_idx \/ In idx idxs.
Proof.
  revert p best_idx best_eq. induction idxs as [|i rest IH]; intros p bi be H.
  - simpl in H. injection H as <- <-. auto.
  - cbn [discard_loop] in H. repeat policy_step H.
    + apply IH in H. destruct H as [->|H]; [right; left; reflexivity|right; right; exact H].
    + apply IH in H. destruct H as [->|H]; [left; reflexivity|right; right; exact H].
Qed.

Lemma get_best_discard_index (rng_state : Type)
    (shuffle : rng_state -> list card -> list card * rng_state)
    (p p' : player rng_state) (my_cards board : list card) (a : action) :
  get_best_discard shuffle p my_cards board = Ok (a, p') ->
  exists idx, a = DiscardAction idx /\ (idx < 3)%nat.
Proof.
  intros H. unfold get_best_discard in H. repeat policy_step H.
  injection H as <- <-.
  apply discard_loop_index in E. exists n. split; [reflexivity|].
  simpl in E. lia.
Qed.


Section PolicyProperties.

Variable rng_state : Type.
Variable shuffle : rng_state -> list card -> list card * rng_state.
Variable random : rng_state -> Q * rng_state.
Variable NUM_ROUNDS : Z.
Variable STARTING_STACK : Z.

Lemma get_action_legal (b b' : bot rng_state) (round_state : RoundState)
    (active : Z) (a : reply) :
  get_action shuffle random STARTING_STACK b round_state active = Ok (a, b') ->
  a <> FoldAction ->
  has_action (rs_legal_actions round_state) (reply_cls a) = true.
Proof.
  intros H N. unfold get_action in H.
  repeat policy_step H; injection H as <- <-; split_andb; simpl;
    solve [assumption | congruence].
Qed.

(** X17.  When the engine's raise bounds are ordered, the amount of every
    raise [get_action] returns lies within them, before and after the
    flop. *)
Theorem get_action_raise_within_bounds (b b' : bot rng_state) (round_state : RoundState)
    (active amount : Z) :
  get_action shuffle random STARTING_STACK b round_state active
  = Ok (RaiseAction amount, b') ->
  fst (rs_raise_bounds round_state) <= snd (rs_raise_bounds round_state) ->
  fst (rs_raise_bounds round_state) <= amount <= snd (rs_raise_bounds round_state).
Proof.
  intros H B. unfold get_action in H.
  repeat policy_step H; try discriminate H;
    injection H as <- <-; unfold clamp_raise; simpl in *; lia.
Qed.

Lemma get_action_discard (b b' : bot rng_state) (round_state : RoundState)
    (active : Z) (a : reply) :
  get_action shuffle random STARTING_STACK b round_state active = Ok (a, b') ->
  has_action (rs_legal_actions round_state) Discard_cls = true ->
  exists idx, a = Discard (DiscardAction idx) /\ (idx < 3)%nat.
Proof.
  intros H D. unfold get_action in H.
  policy_step H. rewrite D in H. repeat policy_step H.
  injection H as <- <-.
  match goal with
  | G : get_best_discard _ _ _ _ = Ok _ |- _ =>
      destruct (get_best_discard_index _ _ _ _ _ _ _ G) as [idx [-> I]]
  end.
  exists idx. auto.
Qed.

Lemma get_action_state (b b' : bot rng_state) (round_state : RoundState)
    (active : Z) (a : reply) :
  get_action shuffle random STARTING_STACK b round_state active = Ok (a, b') ->
  lockdown_mode b' = lockdown_mode b
  /\ (cache_ok (eq_cache (core b)) -> cache_ok (eq_cache (core b'))).
Proof.
  intros H. unfold get_action in H.
  policy_step H.
  destruct (has_action (rs_legal_actions round_state) Discard_cls) eqn:D.
  { repeat policy_step H. injection H as <- <-. split; [reflexivity|].
    intros C. simpl.
    match goal with
    | G : get_best_discard _ _ _ _ = Ok _ |- _ =>
        unfold get_best_discard in G; repeat policy_step G; injection G as _ <-
    end.
    match goal with
    | G : discard_loop _ _ _ _ _ _ _ _ = Ok _ |- _ =>
        now apply (discard_loop_keeps_ok _ _ _ _ _ _ _ _ _ _ _ C G)
    end. }
  destruct (lockdown_mode b) eqn:L.
  { repeat policy_step H; injection H as <- <-; auto. }
  destruct (rs_street round_state =? 0) eqn:S.
  { repeat policy_step H; injection H as <- <-; simpl; auto. }
  do 6 policy_step H.
  match goal with
  | G : calculate_equity _ _ _ _ _ _ = Ok (_, ?p1) |- _ =>
      assert (K : cache_ok (eq_cache (core b)) -> cache_ok (eq_cache p1))
        by (intros C; now apply (calculate_equity_keeps_ok _ _ _ _ _ _ _ _ _ C G))
  end.
  repeat policy_step H; injection H as <- <-; simpl; auto.
Qed.



(** X21.  Before the flop a hand of three deck cards holding a pair is never
    folded when a call or a check is legal (no discard due, no lockdown): its
    points reach the threshold 26 of a playable hand. *)
Theorem pair_never_folds_preflop (b b' : bot rng_state) (round_state : RoundState)
    (active : Z) (c1 c2 c3 : card) (a : reply) :
  getitem_z (rs_hands round_state) active = Ok [c1; c2; c3] ->
  incl [c1; c2; c3] full_deck ->
  card_rank c1 = card_rank c2 \/ card_rank c2 = card_rank c3
  \/ card_rank c1 = card_rank c3 ->
  rs_street round_state = 0 ->
  has_action (rs_legal_actions round_state) Discard_cls = false ->
  lockdown_mode b = false ->
  has_action (rs_legal_actions round_state) Call_cls = true
  \/ has_action (rs_legal_actions round_state) Check_cls = true ->
  get_action shuffle random STARTING_STACK b round_state active = Ok (a, b') ->
  a <> FoldAction.
Proof.
  intros G I P S D L A H.
  destruct (evaluate_preflop_points_bounds c1 c2 c3 I) as [points [E [_ [B _]]]].
  specialize (B P).
  unfold get_action in H. rewrite G in H. cbn [bind] in H.
  rewrite D, L, S in H. cbn [Z.eqb] in H. rewrite E in H. cbn [bind] in H.
  assert (T : (26 <=? points) = true) by (apply Z.leb_le; exact B).
  rewrite T in H.
  repeat policy_step H; injection H as <- <-; try discriminate;
    destruct A; congruence.
Qed.

Lemma cache_set_in (d : cache) (k k1 : cache_key) (v v1 : Q) :
  In (k1, v1) (cache_set d k v) -> k1 = k \/ exists v0, In (k1, v0) d.
Proof.
  induction d as [|[k' v'] d IH]; simpl.
  - intros [H|[]]. injection H as <- <-. now left.
  - destruct (key_eqb k' k).
    + intros [H|H].
      * injection H as <- <-. right. exists v'. now left.
      * right. exists v1. now right.
    + intros [H|H].
      * injection H as <- <-. right. exists v'. now left.
      * destruct (IH H) as [->|[v0 H0]]; [now left|].
        right. exists v0. now right.
Qed.

Lemma calculate_equity_buckets (p p' : player rng_state) (my_cards board : list card)
    (street iterations : Z) (e : Q) :
  In (it_bucket iterations) [60; 90; 120] ->
  buckets_ok (eq_cache p) ->
  calculate_equity shuffle p my_cards board street iterations = Ok (e, p') ->
  buckets_ok (eq_cache p').
Proof.
  intros B C H. unfold calculate_equity in H.
  destruct (cache_get (eq_cache p) _) as [c|].
  - injection H as _ <-. exact C.
  - repeat policy_step H. injection H as _ <-. cbn [eq_cache].
    intros k v K. apply cache_set_in in K. destruct K as [->|[v0 K]].
    + exact B.
    + now apply (C k v0).
Qed.

Lemma discard_loop_buckets (idxs : list nat) (my_cards board : list card) (iters : Z)
    (p p' : player rng_state) (best_idx idx : nat) (best_eq : Q) :
  In (it_bucket iters) [60; 90; 120] ->
  buckets_ok (eq_cache p) ->
  discard_loop shuffle idxs my_cards board iters p best_idx best_eq = Ok (idx, p') ->
  buckets_ok (eq_cache p').
Proof.
  intros B. revert p best_idx best_eq.
  induction idxs as [|i rest IH]; intros p bi be C H.
  - simpl in H. injection H as _ <-. exact C.
  - cbn [discard_loop] in H. do 4 policy_step H.
    match goal with
    | G : calculate_equity _ _ _ _ _ _ = Ok (_, ?p1) |- _ =>
        assert (C1 : buckets_ok (eq_cache p1))
          by (now apply (calculate_equity_buckets _ _ _ _ _ _ _ B C G))
    end.
    policy_step H; now apply IH in H.
Qed.

Lemma base_iters_bucket (pot : Z) (board : list card) :
  In (it_bucket (base_iters pot board)) [60; 90; 120].
Proof.
  unfold base_iters.
  destruct (80 <=? pot), (200 <=? pot), (4 <=? List.length board)%nat,
    (5 <=? List.length board)%nat; vm_compute; tauto.
Qed.

Lemma get_action_buckets (b b' : bot rng_state) (round_state : RoundState)
    (active : Z) (a : reply) :
  buckets_ok (eq_cache (core b)) ->
  get_action shuffle random STARTING_STACK b round_state active = Ok (a, b') ->
  buckets_ok (eq_cache (core b')).
Proof.
  intros C H. unfold get_action in H.
  policy_step H.
  destruct (has_action (rs_legal_actions round_state) Discard_cls) eqn:D.
  { repeat policy_step H. injection H as _ <-. cbn [core].
    match goal with
    | G : get_best_discard _ _ _ _ = Ok _ |- _ =>
        unfold get_best_discard in G; repeat policy_step G; injection G as _ <-
    end.
    match goal with
    | G : discard_loop _ _ _ _ _ _ _ _ = Ok _ |- _ =>
        apply (discard_loop_buckets _ _ _ _ _ _ _ _ _) in G; [exact G| |exact C]
    end.
    destruct (2 <=? List.length (rs_board round_state))%nat; vm_compute; tauto. }
  destruct (lockdown_mode b) eqn:L.
  { repeat policy_step H; injection H as _ <-; exact C. }
  destruct (rs_street round_state =? 0) eqn:S.
  { repeat policy_step H; injection H as _ <-; exact C. }
  do 6 policy_step H.
  match goal with
  | G : calculate_equity _ _ _ _ _ _ = Ok (_, ?p1) |- _ =>
      assert (K : buckets_ok (eq_cache p1))
        by (apply (calculate_equity_buckets _ _ _ _ _ _ _
                     (base_iters_bucket _ _) C G))
  end.
  repeat policy_step H; injection H as _ <-; exact K.
Qed.

Lemma handle_new_round_cache (b : bot rng_state) (game_state : GameState)
    (P : cache -> Prop) :
  P [] -> P (eq_cache (core b)) ->
  P (eq_cache (core (handle_new_round NUM_ROUNDS b game_state))).
Proof.
  intros P0 Pb. unfold handle_new_round. cbn [core eq_cache].
  destruct (gs_round_num game_state mod 10 =? 0); assumption.
Qed.

Lemma buckets_ok_empty : buckets_ok [].
Proof. intros k v []. Qed.

End PolicyProperties.

Section PolicyReturns.

Variable rng_state : Type.
Variable shuffle : rng_state -> list card -> list card * rng_state.
Hypothesis shuffle_permutes :
  forall g deck, Permutation deck (fst (shuffle g deck)).
Variable random : rng_state -> Q * rng_state.
Variable STARTING_STACK : Z.





(** X23.  When a discard is due, [get_action] returns a discard of index 0, 1
    or 2 without an exception: three own cards of the deck, a board of deck
    cards of at most six cards but not one, a cache of probabilities; for
    every generator whose shuffle permutes. *)
Theorem get_action_discard_total (b : bot rng_state) (round_state : RoundState)
    (active : Z) (c1 c2 c3 : card) :
  has_action (rs_legal_actions round_state) Discard_cls = true ->
  getitem_z (rs_hands round_state) active = Ok [c1; c2; c3] ->
  incl [c1; c2; c3] full_deck ->
  incl (rs_board round_state) full_deck ->
  List.length (rs_board round_state) <> 1%nat ->
  (List.length (rs_board round_state) <= 6)%nat ->
  cache_ok (eq_cache (core b)) ->
  exists idx b',
    get_action shuffle random STARTING_STACK b round_state active
    = Ok (Discard (DiscardAction idx), b')
    /\ (idx < 3)%nat.
Proof.
  intros D G I IB N1 L6 C.
  destruct (get_best_discard_first_max rng_state shuffle shuffle_permutes (core b)
              c1 c2 c3 (rs_board round_state) I IB N1 L6 C)
    as [e0 [e1 [e2 [p1 [p2 [p3 [idx [_ [_ [_ [E R]]]]]]]]]]].
  exists idx, (mk_bot (lockdown_mode b) p3). split.
  - unfold get_action. rewrite G. cbn [bind]. rewrite D, E. reflexivity.
  - destruct R as [[-> _]|[[-> _]|[-> _]]]; lia.
Qed.

End PolicyReturns.

(** X16.  Whatever [get_action] returns other than a fold is an action the
    engine listed as legal: a check, call, raise or discard is returned only
    when [legal_actions] holds its class or an instance of it. *)
Theorem get_action_reply_is_legal (rng_state : Type)
    (shuffle : rng_state -> list card -> list card * rng_state)
    (random : rng_state -> Q * rng_state) (STARTING_STACK : Z)
    (b b' : bot rng_state) (round_state : RoundState) (active : Z) (a : reply) :
  get_action shuffle random STARTING_STACK b round_state active = Ok (a, b') ->
  a <> FoldAction ->
  has_action (rs_legal_actions round_state) (reply_cls a) = true.
Proof. apply get_action_legal. Qed.

Lemma get_action_reply_is_legal_witness :
  has_action (rs_legal_actions preflop_state) (reply_cls (RaiseAction 400)) = true.
Proof.
  apply (get_action_reply_is_legal unit shuffle_rev random_half 400
           fresh_bot fresh_bot preflop_state 0 (RaiseAction 400)).
  - vm_compute. reflexivity.
  - discriminate.
Defined.

Lemma get_action_raise_within_bounds_witness :
  exists amount b',
    get_action shuffle_rev random_half 400 fresh_bot flop_state 0
    = Ok (RaiseAction amount, b')
    /\ fst (rs_raise_bounds flop_state) <= amount <= snd (rs_raise_bounds flop_state).
Proof.
  destruct (get_action shuffle_rev random_half 400 fresh_bot flop_state 0)
    as [[[| | |amount|d] b']|x] eqn:E; try (vm_compute in E; discriminate E).
  exists amount, b'. split; [reflexivity|].
  apply (get_action_raise_within_bounds unit shuffle_rev random_half 400
           fresh_bot b' flop_state 0 amount).
  - exact E.
  - simpl. lia.
Defined.

(** X18.  A legal discard overrides everything else: when [get_action]
    returns, its reply is a discard exactly when a discard is legal, and the
    index discarded is 0, 1 or 2. *)
Theorem get_action_discard_override (rng_state : Type)
    (shuffle : rng_state -> list card -> list card * rng_state)
    (random : rng_state -> Q * rng_state) (STARTING_STACK : Z)
    (b b' : bot rng_state) (round_state : RoundState) (active : Z) (a : reply) :
  get_action shuffle random STARTING_STACK b round_state active = Ok (a, b') ->
  (has_action (rs_legal_actions round_state) Discard_cls = true
   <-> exists idx, a = Discard (DiscardAction idx) /\ (idx < 3)%nat).
Proof.
  intros H. split.
  - exact (get_action_discard rng_state shuffle random STARTING_STACK b b'
             round_state active a H).
  - intros [idx [-> _]].
    now apply (get_action_legal rng_state shuffle random STARTING_STACK b b'
                 round_state active (Discard (DiscardAction idx))).
Qed.

Lemma get_action_discard_override_witness :
  exists a b',
    get_action shuffle_rev random_half 400 fresh_bot discard_state 0 = Ok (a, b')
    /\ (has_action (rs_legal_actions discard_state) Discard_cls = true
        <-> exists idx, a = Discard (DiscardAction idx) /\ (idx < 3)%nat).
Proof.
  destruct (get_action shuffle_rev random_half 400 fresh_bot discard_state 0)
    as [[a b']|x] eqn:E; [|vm_compute in E; discriminate E].
  exists a, b'. split; [reflexivity|].
  apply (get_action_discard_override unit shuffle_rev random_half 400
           fresh_bot b' discard_state 0 a).
  exact E.
Defined.



(** X20.  Both hooks keep the cache sound: if every cached estimate is a
    probability, this is still so after [handle_new_round] and after any
    [get_action] that returns; [handle_new_round] leaves the generator alone
    and [get_action] leaves the lockdown flag alone. *)
Theorem hooks_keep_cache_ok (rng_state : Type)
    (shuffle : rng_state -> list card -> list card * rng_state)
    (random : rng_state -> Q * rng_state) (NUM_ROUNDS STARTING_STACK : Z)
    (b b' : bot rng_state) (game_state : GameState) (round_state : RoundState)
    (active : Z) (a : reply) :
  cache_ok (eq_cache (core b)) ->
  get_action shuffle random STARTING_STACK b round_state active = Ok (a, b') ->
  cache_ok (eq_cache (core (handle_new_round NUM_ROUNDS b game_state)))
  /\ rng (core (handle_new_round NUM_ROUNDS b game_state)) = rng (core b)
  /\ cache_ok (eq_cache (core b'))
  /\ lockdown_mode b' = lockdown_mode b.
Proof.
  intros C H.
  destruct (get_action_state rng_state shuffle random STARTING_STACK b b'
              round_state active a H) as [L K].
  split; [|split; [reflexivity|split; [exact (K C)|exact L]]].
  apply (handle_new_round_cache rng_state NUM_ROUNDS b game_state cache_ok);
    [apply cache_ok_empty|exact C].
Qed.

Lemma hooks_keep_cache_ok_witness :
  exists a b',
    get_action shuffle_rev random_half 400 fresh_bot flop_state 0 = Ok (a, b')
    /\ cache_ok (eq_cache (core (handle_new_round 1000 fresh_bot (mk_game 7 0))))
    /\ rng (core (handle_new_round 1000 fresh_bot (mk_game 7 0))) = rng (core fresh_bot)
    /\ cache_ok (eq_cache (core b'))
    /\ lockdown_mode b' = lockdown_mode fresh_bot.
Proof.
  destruct (get_action shuffle_rev random_half 400 fresh_bot flop_state 0)
    as [[a b']|x] eqn:E; [|vm_compute in E; discriminate E].
  exists a, b'. split; [reflexivity|].
  apply (hooks_keep_cache_ok unit shuffle_rev random_half 1000 400
           fresh_bot b' (mk_game 7 0) flop_state 0 a).
  - apply cache_ok_empty.
  - exact E.
Defined.

Lemma pair_never_folds_preflop_witness : RaiseAction 400 <> FoldAction.
Proof.
  apply (pair_never_folds_preflop unit shuffle_rev random_half 400
           fresh_bot fresh_bot preflop_state 0 "Ah" "Ad" "Kc" (RaiseAction 400)).
  - reflexivity.
  - intros x Hx. simpl in Hx. vm_compute. intuition.
  - left. reflexivity.
  - reflexivity.
  - reflexivity.
  - reflexivity.
  - left. reflexivity.
  - vm_compute. reflexivity.
Defined.


Lemma get_action_discard_total_witness :
  exists idx b',
    get_action shuffle_rev random_half 400 fresh_bot discard_state 0
    = Ok (Discard (DiscardAction idx), b')
    /\ (idx < 3)%nat.
Proof.
  apply (get_action_discard_total unit shuffle_rev shuffle_rev_permutes random_half 400
           fresh_bot discard_state 0 "Ah" "2c" "3d").
  - reflexivity.
  - reflexivity.
  - intros x Hx. simpl in Hx. vm_compute. intuition.
  - intros x Hx. simpl in Hx. vm_compute. intuition.
  - simpl. lia.
  - simpl. lia.
  - apply cache_ok_empty.
Defined.

(** X24.  The 40-iteration bucket is never used: [get_action] asks the
    equity query for 50 to 110 iterations and the discard selector for 50 or
    60, so if the cache holds only entries of the buckets 60, 90 and 120, it
    still does so after [handle_new_round] and after any [get_action] that
    returns. *)
Theorem bucket_40_never_used (rng_state : Type)
    (shuffle : rng_state -> list card -> list card * rng_state)
    (random : rng_state -> Q * rng_state) (NUM_ROUNDS STARTING_STACK : Z)
    (b b' : bot rng_state) (game_state : GameState) (round_state : RoundState)
    (active : Z) (a : reply) :
  buckets_ok (eq_cache (core b)) ->
  get_action shuffle random STARTING_STACK b round_state active = Ok (a, b') ->
  buckets_ok (eq_cache (core (handle_new_round NUM_ROUNDS b game_state)))
  /\ buckets_ok (eq_cache (core b')).
Proof.
  intros C H. split.
  - apply (handle_new_round_cache rng_state NUM_ROUNDS b game_state buckets_ok);
      [apply buckets_ok_empty|exact C].
  - exact (get_action_buckets rng_state shuffle random STARTING_STACK b b'
             round_state active a C H).
Qed.

Lemma bucket_40_never_used_witness :
  exists a b',
    get_action shuffle_rev random_half 400 fresh_bot discard_state 0 = Ok (a, b')
    /\ buckets_ok (eq_cache (core (handle_new_round 1000 fresh_bot (mk_game 7 0))))
    /\ buckets_ok (eq_cache (core b')).
Proof.
  destruct (get_action shuffle_rev random_half 400 fresh_bot discard_state 0)
    as [[a b']|x] eqn:E; [|vm_compute in E; discriminate E].
  exists a, b'. split; [reflexivity|].
  apply (bucket_40_never_used unit shuffle_rev random_half 1000 400
           fresh_bot b' (mk_game 7 0) discard_state 0 a).
  - apply buckets_ok_empty.
  - exact E.
Defined.
